(** * HerLang runtime core: guarded allocator, worker pool, shared cell,
      lock-order registry.

    A shallow embedding of the C++ headers [advanced_memory.hpp],
    [cooperative_threading.hpp] and [shared_state.hpp], with the
    properties of the runtime specification stated and proved against
    it, and of the code around them: the type checker
    ([type_system.cpp]), the checked array ([memory_safety.hpp]), the
    blocked reduction and the cache-friendly vector
    ([performance_optimization.hpp]), the generator's string escaping
    ([generator.cpp]) and the error report ([error_system.cpp]).
    [size_t] values are integers reduced modulo [2^64]; steady-clock
    readings are integers (nanosecond ticks) handed to each operation
    that reads the clock; [float] values are the rationals they denote,
    compared exactly. *)

From Stdlib Require Import ZArith Lia QArith Lqa Floats Ascii.
From stdpp Require Import gmap strings list fin_maps sorting pretty.

Local Open Scope Z_scope.

(** ** Machine integers *)

Definition SIZE_MAX : Z := 2 ^ 64 - 1.

(** Arithmetic on [size_t] is arithmetic modulo [2^64]. *)
Definition wrap_size_t (z : Z) : Z := z mod 2 ^ 64.

(** ** error_system.hpp: HerLangError *)

Inductive ErrorType :=
| SyntaxError
| TypeError
| MemoryError
| RuntimeError
| UnexpectedToken
| UndefinedFunction
| InvalidArgument.

Record HerLangError := mkHerLangError {
  error_type : ErrorType;
  message : string;
  context : string;
  line_number : Z;
  suggestions : list string;
  help_url : string
}.

(** [HerLangError(type, msg, line = -1)] *)
Definition new_error (type : ErrorType) (msg : string) : HerLangError :=
  {| error_type := type; message := msg; context := EmptyString;
     line_number := -1; suggestions := [];
     help_url := "https://github.com/HerLang/docs/issues" |}.

Definition with_context (e : HerLangError) (ctx : string) : HerLangError :=
  {| error_type := error_type e; message := message e; context := ctx;
     line_number := line_number e; suggestions := suggestions e;
     help_url := help_url e |}.

Definition with_suggestion (e : HerLangError) (s : string) : HerLangError :=
  {| error_type := error_type e; message := message e; context := context e;
     line_number := line_number e; suggestions := suggestions e ++ [s];
     help_url := help_url e |}.

(** What a call does: it returns a value, it leaves by throwing a
    [HerLangError], or it runs into behaviour the language leaves
    undefined (a raw access outside the allocated object). *)
Inductive outcome (A : Type) :=
| Returns (a : A)
| Throws (e : HerLangError)
| Undefined.
Arguments Returns {A} a.
Arguments Throws {A} e.
Arguments Undefined {A}.

(** ** advanced_memory.hpp *)

Module Memory.

Record SafeMemoryBlock := mkBlock {
  data : Z;
  size : Z;
  alignment : Z;
  allocated_time : Z;
  allocation_context : string;
  ref_count : Z;
  is_protected : bool
}.

(** [offset + access_size <= size], the sum taken in [size_t]. *)
Definition check_access (b : SafeMemoryBlock) (offset access_size : Z) : bool :=
  wrap_size_t (offset + access_size) <=? size b.

(** [BoundaryGuardedPtr<T>]: the raw pointer and the shared block record
    ([None] is the empty [shared_ptr]). *)
Record BoundaryGuardedPtr := mkPtr {
  ptr : Z;
  block_info : option SafeMemoryBlock
}.

Definition MAX_ALLOCATION : Z := 1 * 1024 * 1024 * 1024.

(** [alignof(std::max_align_t)] on the 64-bit targets the runtime builds for. *)
Definition ALIGNMENT : Z := 16.

Definition out_of_bounds : HerLangError :=
  with_context
    (with_suggestion
       (with_suggestion
          (new_error MemoryError "Array access out of bounds")
          "Check array size before accessing")
       "Use safe_at() method for bounds-checked access")
    "Boundary-guarded pointer access".

Definition allocation_too_large : HerLangError :=
  with_context
    (with_suggestion
       (with_suggestion
          (new_error MemoryError "Allocation size exceeds safety limit")
          "Reduce allocation size")
       "Use streaming or chunked processing")
    "Memory allocation safety check".

Definition allocation_failed : HerLangError :=
  with_context
    (with_suggestion
       (with_suggestion
          (new_error MemoryError "Memory allocation failed")
          "Reduce memory usage")
       "Check system memory availability")
    "Memory allocation".

Section TypedView.
(** The element type [T] of a handle and [sizeof(T)]. *)
Context {T : Type}.
Variable sizeof_T : Z.

(** The typed contents of the heap: the array of [T] that starts at
    each live address.  Reading [p[i]] past the end of that array, or
    through an address that is not live, is undefined. *)
Definition raw_index (heap : gmap Z (list T)) (p : Z) (index : Z) : outcome T :=
  match heap !! p with
  | Some cells =>
      match cells !! Z.to_nat index with
      | Some v => Returns v
      | None => Undefined
      end
  | None => Undefined
  end.

(** [block_info && block_info->check_access(index * sizeof(T), sizeof(T))] *)
Definition access_allowed (h : BoundaryGuardedPtr) (index : Z) : bool :=
  match block_info h with
  | None => false
  | Some b => check_access b (wrap_size_t (index * sizeof_T)) sizeof_T
  end.

(** [operator[]]: the element read through the returned reference. *)
Definition operator_index (heap : gmap Z (list T)) (h : BoundaryGuardedPtr)
    (index : Z) : outcome T :=
  if negb (access_allowed h index) then Throws out_of_bounds
  else raw_index heap (ptr h) index.

Definition safe_at (heap : gmap Z (list T)) (h : BoundaryGuardedPtr)
    (index : Z) : outcome (option T) :=
  if negb (access_allowed h index) then Returns None
  else match raw_index heap (ptr h) index with
       | Returns v => Returns (Some v)
       | Throws e => Throws e
       | Undefined => Undefined
       end.

(** [size()]: the block size in elements. *)
Definition size_in_elements (h : BoundaryGuardedPtr) : Z :=
  match block_info h with
  | Some b => size b / sizeof_T
  | None => 0
  end.
End TypedView.

Record AdvancedMemoryManager := mkManager {
  protected_blocks : gmap Z SafeMemoryBlock
}.

Definition empty_manager : AdvancedMemoryManager :=
  {| protected_blocks := ∅ |}.

(** [allocate<T>(count, context)].  [now] is the clock reading taken for
    [allocated_time]; [aligned_alloc alignment size] is the answer of
    [std::aligned_alloc], [None] for a null pointer. *)
Definition allocate (sizeof_T : Z) (mm : AdvancedMemoryManager) (count : Z)
    (ctx : string) (now : Z) (aligned_alloc : Z -> Z -> option Z)
    : outcome (BoundaryGuardedPtr * AdvancedMemoryManager) :=
  let total_size := wrap_size_t (count * sizeof_T) in
  if MAX_ALLOCATION <? total_size then Throws allocation_too_large
  else
    match aligned_alloc ALIGNMENT total_size with
    | None => Throws allocation_failed
    | Some raw_ptr =>
        let block :=
          {| data := raw_ptr; size := total_size; alignment := ALIGNMENT;
             allocated_time := now; allocation_context := ctx;
             ref_count := 1; is_protected := true |} in
        Returns ({| ptr := raw_ptr; block_info := Some block |},
                 {| protected_blocks := <[raw_ptr := block]> (protected_blocks mm) |})
    end.

Definition deallocate (mm : AdvancedMemoryManager) (p : Z) : AdvancedMemoryManager :=
  match protected_blocks mm !! p with
  | Some _ => {| protected_blocks := delete p (protected_blocks mm) |}
  | None => mm
  end.

Definition get_block_info (mm : AdvancedMemoryManager) (p : Z) : option SafeMemoryBlock :=
  protected_blocks mm !! p.

Record MemoryStats := mkStats {
  total_allocated : Z;
  block_count : Z;
  largest_block : Z;
  oldest_allocation : Z
}.

(** [duration_cast<milliseconds>] of a tick difference (truncating). *)
Definition to_milliseconds (ticks : Z) : Z := Z.quot ticks 1000000.

(** One iteration of the loop of [get_stats]. *)
Definition stats_step (now : Z) (_ : Z) (block : SafeMemoryBlock)
    (stats : MemoryStats) : MemoryStats :=
  {| total_allocated := wrap_size_t (total_allocated stats + size block);
     block_count := block_count stats;
     largest_block := Z.max (largest_block stats) (size block);
     oldest_allocation :=
       Z.max (oldest_allocation stats)
             (to_milliseconds (now - allocated_time block)) |}.

Definition get_stats (mm : AdvancedMemoryManager) (now : Z) : MemoryStats :=
  map_fold (stats_step now)
    {| total_allocated := 0;
       block_count := wrap_size_t (Z.of_nat (base.size (protected_blocks mm)));
       largest_block := 0;
       oldest_allocation := 0 |}
    (protected_blocks mm).

(** *** GentleGarbageCollector *)

(** [MAX_SYSTEM_LOAD = 0.7f], the value that literal denotes. *)
Definition MAX_SYSTEM_LOAD : Q := 11744051 # 16777216.
Definition MAX_CLEANUP_PER_CYCLE : Z := 10.

(** What one call of [perform_incremental_cleanup] leaves behind: the
    cleanup budget it computed, the time it slept (milliseconds) and the
    memory manager it was given a reference to. *)
Record CleanupCycle := mkCycle {
  max_cleanup : Z;
  slept_ms : Z;
  manager_after : AdvancedMemoryManager
}.

Definition perform_incremental_cleanup (mm : AdvancedMemoryManager) (now : Z)
    : CleanupCycle :=
  let stats := get_stats mm now in
  let budget :=
    if 100 * 1024 * 1024 <? total_allocated stats
    then wrap_size_t (MAX_CLEANUP_PER_CYCLE * 2)
    else MAX_CLEANUP_PER_CYCLE in
  {| max_cleanup := budget; slept_ms := 1; manager_after := mm |}.

(** One wake-up of [gc_loop]: the flag [should_run] and the load
    estimate as read after the wait, and the clock. *)
Record Wakeup := mkWakeup {
  should_run : bool;
  system_load : Q;
  woke_at : Z
}.

(** [gc_loop] over the wake-ups it goes through; it leaves at the first
    one that finds [should_run] cleared. *)
Fixpoint gc_loop (mm : AdvancedMemoryManager) (wakeups : list Wakeup)
    : AdvancedMemoryManager :=
  match wakeups with
  | [] => mm
  | w :: rest =>
      if negb (should_run w) then mm
      else if negb (Qle_bool MAX_SYSTEM_LOAD (system_load w))
           then gc_loop (manager_after (perform_incremental_cleanup mm (woke_at w))) rest
           else gc_loop mm rest
  end.

(** *** Calls on the manager, as a client issues them *)

Inductive Call :=
| Allocate (sizeof_T count : Z) (ctx : string) (now : Z) (answer : option Z)
| Deallocate (p : Z).

Definition perform (mm : AdvancedMemoryManager) (c : Call) : AdvancedMemoryManager :=
  match c with
  | Allocate sizeof_T count ctx now answer =>
      match allocate sizeof_T mm count ctx now (fun _ _ => answer) with
      | Returns (_, mm') => mm'
      | _ => mm
      end
  | Deallocate p => deallocate mm p
  end.

Definition run (mm : AdvancedMemoryManager) (calls : list Call) : AdvancedMemoryManager :=
  fold_left perform calls mm.

(** The bytes an allocation keeps for itself: at least one, so that two
    live allocations never share an address. *)
Definition footprint (sz : Z) : Z := Z.max 1 sz.

(** What [std::aligned_alloc] promises about a non-null answer: the new
    object lies inside the address space, away from address zero, and
    overlaps no object that is still live. *)
Definition fresh_region (blocks : gmap Z SafeMemoryBlock) (a sz : Z) : Prop :=
  0 < a /\ a + footprint sz <= 2 ^ 64 /\
  forall a' b', blocks !! a' = Some b' ->
    a + footprint sz <= a' \/ a' + footprint (size b') <= a.

(** A sequence of calls whose allocation answers are ones the system
    allocator can give, the manager's blocks being the live objects. *)
Fixpoint allocator_answers (mm : AdvancedMemoryManager) (calls : list Call) : Prop :=
  match calls with
  | [] => True
  | c :: rest =>
      match c with
      | Allocate sizeof_T count _ _ (Some a) =>
          wrap_size_t (count * sizeof_T) <= MAX_ALLOCATION ->
          fresh_region (protected_blocks mm) a (wrap_size_t (count * sizeof_T))
      | _ => True
      end /\ allocator_answers (perform mm c) rest
  end.

(** The sum of the byte sizes of the registered blocks (an integer, not
    a [size_t]). *)
Definition registered_bytes (mm : AdvancedMemoryManager) : Z :=
  foldr (fun kb acc => size kb.2 + acc) 0 (map_to_list (protected_blocks mm)).

(** *** Sums over the registry *)

Definition block_bytes (kb : Z * SafeMemoryBlock) : Z := size kb.2.
Definition block_footprint (kb : Z * SafeMemoryBlock) : Z := footprint (size kb.2).

Definition sum_with (f : Z * SafeMemoryBlock -> Z) (l : list (Z * SafeMemoryBlock)) : Z :=
  foldr (fun kb acc => f kb + acc) 0 l.

(** *** Live blocks do not overlap *)

(** The blocks of a registry lie in the address space, none at address
    zero, and any two of them are apart. *)
Definition apart (x y : Z * SafeMemoryBlock) : Prop :=
  x.1 + block_footprint x <= y.1 \/ y.1 + block_footprint y <= x.1.

Definition placed (x : Z * SafeMemoryBlock) : Prop :=
  0 < x.1 /\ 0 <= size x.2 /\ x.1 + block_footprint x <= 2 ^ 64.

Definition laid_out (l : list (Z * SafeMemoryBlock)) : Prop :=
  Forall placed l /\
  forall x y, x ∈ l -> y ∈ l -> x.1 <> y.1 -> apart x y.

Definition well_placed (mm : AdvancedMemoryManager) : Prop :=
  forall a b, protected_blocks mm !! a = Some b ->
    placed (a, b) /\
    forall a' b', protected_blocks mm !! a' = Some b' -> a <> a' -> apart (a, b) (a', b').

Definition by_address (x y : Z * SafeMemoryBlock) : Prop := x.1 <= y.1.

(** A client session: two allocations, the release of the first, the
    release of an address that was never handed out, and an allocation
    the system refuses. *)
Definition sample_calls : list Call :=
  [Allocate 4 1000 "test_array" 0 (Some 4096);
   Allocate 8 16 "matrix" 1 (Some 65536);
   Deallocate 4096;
   Deallocate 12345;
   Allocate 1 0 "none" 2 None].

End Memory.

(** ** cooperative_threading.hpp *)

Module Threading.

(** Two's-complement wrap of an [int], as [std::atomic<int>] increments. *)
Definition wrap_int (z : Z) : Z := (z + 2 ^ 31) mod 2 ^ 32 - 2 ^ 31.

Definition Qlt_bool (x y : Q) : bool := negb (Qle_bool y x).

(** [std::min(a, b)] and [std::max(a, b)] *)
Definition float_min (a b : Q) : Q := if Qlt_bool b a then b else a.
Definition float_max (a b : Q) : Q := if Qlt_bool a b then b else a.

Record WellnessMetrics := mkMetrics {
  last_break : Z;
  consecutive_tasks : Z;
  stress_level : Q;
  start_time : Z;
  total_tasks_completed : Z
}.

(** [WellnessMetrics()] at clock reading [now]. *)
Definition new_metrics (now : Z) : WellnessMetrics :=
  {| last_break := now; consecutive_tasks := 0; stress_level := 0;
     start_time := now; total_tasks_completed := 0 |}.

Definition seconds (n : Z) : Z := n * 1000000000.
Definition minutes (n : Z) : Z := seconds (n * 60).
Definition hours (n : Z) : Z := minutes (n * 60).

Definition MAX_CONSECUTIVE_TASKS : Z := 50.
Definition MAX_WORK_DURATION : Z := hours 2.
(** [0.8f] *)
Definition MAX_STRESS_LEVEL : Q := 13421773 # 16777216.
Definition BREAK_DURATION : Z := minutes 15.
(** [0.6f] *)
Definition STRESS_THRESHOLD : Q := 5033165 # 8388608.

Definition needs_mandatory_break (m : WellnessMetrics) (now : Z) : bool :=
  let work_duration := now - last_break m in
  (MAX_CONSECUTIVE_TASKS <=? consecutive_tasks m)
  || (MAX_WORK_DURATION <=? work_duration)
  || Qle_bool MAX_STRESS_LEVEL (stress_level m).

Section FloatArithmetic.
(** Rounding of a real result to [float]; the properties below hold
    whatever it is. *)
Variable fl : Q -> Q.

(** [now] is the clock reading after the sleep. *)
Definition take_wellness_break (m : WellnessMetrics) (now : Z) : WellnessMetrics :=
  {| last_break := now;
     consecutive_tasks := 0;
     stress_level := fl (stress_level m * (1 # 2));
     start_time := start_time m;
     total_tasks_completed := total_tasks_completed m |}.

Definition record_task_completion (m : WellnessMetrics) (now : Z) : WellnessMetrics :=
  let time_since_last := now - last_break m in
  {| last_break := last_break m;
     consecutive_tasks := wrap_int (consecutive_tasks m + 1);
     stress_level :=
       if time_since_last <? minutes 1
       then float_min 1 (fl (stress_level m + (13421773 # 134217728)))
       else float_max 0 (fl (stress_level m - (13421773 # 268435456)));
     start_time := start_time m;
     total_tasks_completed := wrap_size_t (total_tasks_completed m + 1) |}.
End FloatArithmetic.

(** How a call of a queued task ends: it returns, it throws an
    exception derived from [std::exception], or it throws something
    else.  (A task that never ends is not considered: the turn of the
    loop that runs it does not end either.) *)
Inductive TaskEnding :=
| Finishes
| ThrowsException
| ThrowsOther.

(** A queued [std::function<void()>]: a packaged client task
    ([submit_with_care] wraps the client's callable in a
    [std::packaged_task], which keeps an exception for the future and
    returns), the closure [force_wellness_break] pushes, or a callable a
    client hands to [try_assign_task] directly, which ends as it
    likes. *)
Inductive Task :=
| Packaged (id : nat)
| WellnessBreak
| Raw (id : nat) (ending : TaskEnding).

Definition ending_of (t : Task) : TaskEnding :=
  match t with
  | Packaged _ | WellnessBreak => Finishes
  | Raw _ ending => ending
  end.

Record CooperativeWorker := mkWorker {
  task_queue : list Task;
  should_stop : bool;
  wellness : WellnessMetrics;
  worker_id : Z
}.

Definition enqueue (w : CooperativeWorker) (t : Task) : CooperativeWorker :=
  {| task_queue := task_queue w ++ [t]; should_stop := should_stop w;
     wellness := wellness w; worker_id := worker_id w |}.

Definition try_assign_task (w : CooperativeWorker) (t : Task) (now : Z)
    : bool * CooperativeWorker :=
  if needs_mandatory_break (wellness w) now then (false, w)
  else (true, enqueue w t).

Definition force_wellness_break (w : CooperativeWorker) : CooperativeWorker :=
  enqueue w WellnessBreak.

Definition get_stress_level (w : CooperativeWorker) : Q := stress_level (wellness w).
Definition get_queue_size (w : CooperativeWorker) : Z :=
  wrap_size_t (Z.of_nat (length (task_queue w))).

Record CooperativeThreadPool := mkPool {
  workers : list CooperativeWorker;
  round_robin_counter : Z
}.

Definition all_overwhelmed : HerLangError :=
  with_context
    (with_suggestion
       (with_suggestion
          (new_error RuntimeError "All workers are overwhelmed and need rest")
          "Reduce task submission rate")
       "Wait for workers to complete their wellness breaks")
    "Thread pool task submission".

Definition needs_wellness_break : HerLangError :=
  with_context
    (with_suggestion
       (new_error RuntimeError "Could not assign task - worker needs wellness break")
       "Retry after a short delay")
    "Worker wellness protection".

(** The scan of [find_optimal_worker] from position [i] on: the best
    worker so far (its index) and the lowest stress seen. *)
Fixpoint lowest_stress_scan (ws : list CooperativeWorker) (i : nat)
    (best_worker : option nat) (lowest_stress : Q) : option nat :=
  match ws with
  | [] => best_worker
  | w :: rest =>
      let stress := get_stress_level w in
      if Qlt_bool stress lowest_stress && Qlt_bool stress STRESS_THRESHOLD
      then lowest_stress_scan rest (S i) (Some i) stress
      else lowest_stress_scan rest (S i) best_worker lowest_stress
  end.

(** [find_optimal_worker]: the index of the chosen worker ([None] for a
    null pointer) and the pool with its round-robin counter advanced
    when the fallback ran. *)
Definition find_optimal_worker (p : CooperativeThreadPool)
    : option nat * CooperativeThreadPool :=
  match lowest_stress_scan (workers p) 0 None 1 with
  | Some i => (Some i, p)
  | None =>
      match workers p with
      | [] => (None, p)
      | _ :: _ =>
          let index := round_robin_counter p mod Z.of_nat (length (workers p)) in
          (Some (Z.to_nat index),
           {| workers := workers p;
              round_robin_counter := wrap_size_t (round_robin_counter p + 1) |})
      end
  end.

(** [submit_with_care]: the pool afterwards and how the call ends (the
    future it returns is identified with the task). *)
Definition submit_with_care (p : CooperativeThreadPool) (t : Task) (now : Z)
    : CooperativeThreadPool * outcome Task :=
  match find_optimal_worker p with
  | (None, p1) => (p1, Throws all_overwhelmed)
  | (Some i, p1) =>
      match workers p1 !! i with
      | None => (p1, Undefined)
      | Some w =>
          match try_assign_task w t now with
          | (false, _) => (p1, Throws needs_wellness_break)
          | (true, w') =>
              ({| workers := <[i := w']> (workers p1);
                  round_robin_counter := round_robin_counter p1 |},
               Returns t)
          end
      end
  end.

(** What happens to a worker between two rests. *)
Inductive Activity :=
| Completes (now : Z)
| Assigns (t : Task) (now : Z)
| ForcesBreak.

Definition act (fl : Q -> Q) (w : CooperativeWorker) (a : Activity) : CooperativeWorker :=
  match a with
  | Completes now =>
      {| task_queue := task_queue w; should_stop := should_stop w;
         wellness := record_task_completion fl (wellness w) now;
         worker_id := worker_id w |}
  | Assigns t now => (try_assign_task w t now).2
  | ForcesBreak => force_wellness_break w
  end.

Definition is_completion (a : Activity) : bool :=
  match a with Completes _ => true | _ => false end.

Definition completions (acts : list Activity) : Z :=
  Z.of_nat (length (List.filter is_completion acts)).

Definition INT_MAX : Z := 2 ^ 31 - 1.

(** A worker just created, and fifty completed tasks with an assignment
    in between. *)
Definition rested_worker : CooperativeWorker :=
  {| task_queue := []; should_stop := false; wellness := new_metrics 0;
     worker_id := 0 |}.

Definition fifty_tasks : list Activity :=
  replicate 25 (Completes (seconds 90)) ++ [Assigns (Packaged 3) (seconds 91)]
  ++ replicate 25 (Completes (seconds 95)).

(** A worker seven quick tasks after its rest: stress [0.70000005]. *)
Definition busy_worker : CooperativeWorker :=
  {| task_queue := [];
     should_stop := false;
     wellness :=
       {| last_break := 0; consecutive_tasks := 7;
          stress_level := 2936013 # 4194304;
          start_time := 0; total_tasks_completed := 7 |};
     worker_id := 0 |}.

Definition busy_pool : CooperativeThreadPool :=
  {| workers := [busy_worker]; round_robin_counter := 0 |}.

(** *** The rest of the pool interface *)

(** What the properties of the stress level need of the rounding of
    [float] arithmetic: it is monotone and gives back 0, 1/2 and 1. *)
Definition rounds_to_float (fl : Q -> Q) : Prop :=
  (forall x y, (x <= y)%Q -> (fl x <= fl y)%Q) /\
  (0 <= fl 0)%Q /\ (fl (1 # 2) <= 1 # 2)%Q /\ (fl 1 <= 1)%Q.

(** The clock readings of one turn of [work_loop]: at the wellness
    check, after the break the loop takes (if any), after the break a
    [force_wellness_break] task takes (if that is the task), and when
    the completion is recorded. *)
Record Clock := mkClock {
  checked_at : Z;
  rested_at : Z;
  task_rested_at : Z;
  completed_at : Z
}.

(** One turn of [work_loop], from the moment the wait on the queue
    returns.  A worker told to stop leaves the loop; with an empty queue
    nothing is taken.  A task that returns is recorded; a
    [std::exception] is caught and nothing is recorded; any other
    exception is not caught and leaves the thread's function, which ends
    the program ([std::terminate]): there is no worker afterwards. *)
Definition work_iteration (fl : Q -> Q) (w : CooperativeWorker) (c : Clock)
    : option CooperativeWorker :=
  if should_stop w then Some w
  else
    match task_queue w with
    | [] => Some w
    | task :: rest =>
        let checked :=
          if needs_mandatory_break (wellness w) (checked_at c)
          then take_wellness_break fl (wellness w) (rested_at c)
          else wellness w in
        let ran :=
          match task with
          | WellnessBreak => take_wellness_break fl checked (task_rested_at c)
          | Packaged _ | Raw _ _ => checked
          end in
        match ending_of task with
        | Finishes =>
            Some {| task_queue := rest; should_stop := should_stop w;
                    wellness := record_task_completion fl ran (completed_at c);
                    worker_id := worker_id w |}
        | ThrowsException =>
            Some {| task_queue := rest; should_stop := should_stop w;
                    wellness := ran; worker_id := worker_id w |}
        | ThrowsOther => None
        end
    end.

(** [work_loop] over the turns it takes, one clock record each. *)
Fixpoint work_loop (fl : Q -> Q) (w : CooperativeWorker) (clocks : list Clock)
    : option CooperativeWorker :=
  match clocks with
  | [] => Some w
  | c :: later =>
      match work_iteration fl w c with
      | Some w' => work_loop fl w' later
      | None => None
      end
  end.

(** [ensure_worker_wellness] *)
Definition ensure_worker_wellness (p : CooperativeThreadPool) : CooperativeThreadPool :=
  {| workers :=
       (fun w => if Qlt_bool STRESS_THRESHOLD (get_stress_level w)
                 then force_wellness_break w else w) <$> workers p;
     round_robin_counter := round_robin_counter p |}.

(** Two workers, the first above the pool threshold. *)
Definition calm_worker : CooperativeWorker :=
  {| task_queue := [Packaged 4]; should_stop := false;
     wellness :=
       {| last_break := 0; consecutive_tasks := 2;
          stress_level := 13421773 # 67108864;
          start_time := 0; total_tasks_completed := 2 |};
     worker_id := 1 |}.

Definition mixed_pool : CooperativeThreadPool :=
  {| workers := [busy_worker; calm_worker]; round_robin_counter := 5 |}.

End Threading.

(** ** shared_state.hpp *)

Module SharedState.

(** How a client callable ends: it returns, or it leaves by an
    exception of the client's own. *)
Inductive completion (E R : Type) :=
| Normal (r : R)
| Raised (e : E).
Arguments Normal {E R} r.
Arguments Raised {E R} e.

Section Cell.
Context {T E : Type}.
(** [T]'s [operator==]. *)
Variable equal : T -> T -> bool.

Record ProtectedSharedState := mkCell {
  data : T;
  state_name : string;
  read_count : Z;
  write_count : Z;
  creation_time : Z
}.

(** [ProtectedSharedState(initial_data, name)] at clock reading [now]. *)
Definition new_cell (initial_data : T) (name : string) (now : Z) : ProtectedSharedState :=
  {| data := initial_data; state_name := name; read_count := 0;
     write_count := 0; creation_time := now |}.

Definition set_read_count (c : ProtectedSharedState) (n : Z) : ProtectedSharedState :=
  {| data := data c; state_name := state_name c; read_count := n;
     write_count := write_count c; creation_time := creation_time c |}.

Definition set_write_count (c : ProtectedSharedState) (n : Z) : ProtectedSharedState :=
  {| data := data c; state_name := state_name c; read_count := read_count c;
     write_count := n; creation_time := creation_time c |}.

Definition set_data (c : ProtectedSharedState) (d : T) : ProtectedSharedState :=
  {| data := d; state_name := state_name c; read_count := read_count c;
     write_count := write_count c; creation_time := creation_time c |}.

(** [safe_read]: the [read_count--] after the [try] block is never
    reached, the [try] block returns. *)
Definition safe_read {R} (c : ProtectedSharedState) (reader : T -> completion E R)
    : completion E R * ProtectedSharedState :=
  let c1 := set_read_count c (wrap_size_t (read_count c + 1)) in
  match reader (data c1) with
  | Normal r => (Normal r, c1)
  | Raised e => (Raised e, set_read_count c1 (wrap_size_t (read_count c1 - 1)))
  end.

(** [safe_write]: the writer works on [data] in place; it hands back
    the value it left there with its result or its exception. *)
Definition safe_write {R} (c : ProtectedSharedState)
    (writer : T -> T * completion E R)
    : completion E R * ProtectedSharedState :=
  let c1 := set_write_count c (wrap_size_t (write_count c + 1)) in
  match writer (data c1) with
  | (d, Normal result) =>
      (Normal result,
       set_write_count (set_data c1 d) (wrap_size_t (write_count c1 - 1)))
  | (d, Raised e) =>
      (Raised e,
       set_write_count (set_data c1 d) (wrap_size_t (write_count c1 - 1)))
  end.

(** The loop of [optimistic_update] with [fuel] iterations left.
    The updater is called on [local_copy], an object it may change (a
    callable that takes [T&]): it hands back what it left in
    [local_copy] with its result or its exception, and the commit test
    [data == local_copy] sees the object as the updater left it.
    [others attempt d] is the value other threads leave in [data],
    found at [d], between the release of the shared lock and the
    acquisition of the exclusive lock in iteration [attempt]. *)
Fixpoint optimistic_attempts (others : Z -> T -> T)
    (updater : T -> T * completion E T)
    (fuel : nat) (attempt : Z) (c : ProtectedSharedState)
    : completion E bool * ProtectedSharedState :=
  match fuel with
  | O => (Normal false, c)
  | S fuel' =>
      match updater (data c) with
      | (_, Raised e) => (Raised e, c)
      | (local_copy, Normal updated) =>
          let c1 := set_data c (others attempt (data c)) in
          if equal (data c1) local_copy
          then (Normal true,
                set_write_count (set_data c1 updated)
                  (wrap_size_t (write_count c1 + 1)))
          else optimistic_attempts others updater fuel' (attempt + 1) c1
      end
  end.

Definition optimistic_update (others : Z -> T -> T) (c : ProtectedSharedState)
    (updater : T -> T * completion E T) (max_retries : Z)
    : completion E bool * ProtectedSharedState :=
  optimistic_attempts others updater (Z.to_nat max_retries) 0 c.

(** An updater that takes its argument by value or by reference to
    [const]: it leaves the object it is called on as it found it. *)
Definition by_value (fn : T -> completion E T) : T -> T * completion E T :=
  fun d => (d, fn d).

(** The value other threads leave in the cell over [n] attempts of
    [optimistic_update], from attempt number [attempt] on. *)
Fixpoint overwritten (others : Z -> T -> T) (n : nat) (attempt : Z) (d : T) : T :=
  match n with
  | O => d
  | S n' => overwritten others n' (attempt + 1) (others attempt d)
  end.

(** [try_update_for]; [acquired] tells whether the lock was obtained
    within the timeout.  The updater is called on [data] itself: when
    it throws, [data] keeps what the updater left there. *)
Definition try_update_for (c : ProtectedSharedState)
    (updater : T -> T * completion E T)
    (acquired : bool) : completion E bool * ProtectedSharedState :=
  if negb acquired then (Normal false, c)
  else match updater (data c) with
       | (kept, Raised e) => (Raised e, set_data c kept)
       | (_, Normal d) =>
           (Normal true,
            set_write_count (set_data c d) (wrap_size_t (write_count c + 1)))
       end.

Definition get_copy (c : ProtectedSharedState) : completion E T * ProtectedSharedState :=
  safe_read c (fun d => Normal d).

Record AccessStats := mkAccessStats {
  name : string;
  total_reads : Z;
  total_writes : Z;
  lifetime : Z;
  current_readers : Z
}.

Definition get_stats (c : ProtectedSharedState) (now : Z) : AccessStats :=
  {| name := state_name c;
     total_reads := read_count c;
     total_writes := write_count c;
     lifetime := Z.quot (now - creation_time c) 1000000;
     current_readers := 0 |}.

(** A sequence of [safe_read] calls with one reader each. *)
Fixpoint read_all {R} (c : ProtectedSharedState) (readers : list (T -> completion E R))
    : ProtectedSharedState :=
  match readers with
  | [] => c
  | reader :: rest => read_all (safe_read c reader).2 rest
  end.

(** How many of the readers return when run one after the other. *)
Fixpoint successful_reads {R} (c : ProtectedSharedState)
    (readers : list (T -> completion E R)) : Z :=
  match readers with
  | [] => 0
  | reader :: rest =>
      (match (safe_read c reader).1 with Normal _ => 1 | Raised _ => 0 end)
      + successful_reads (safe_read c reader).2 rest
  end.
End Cell.

(** *** DeadlockPrevention *)

Record LockInfo := mkLockInfo {
  lock_name : string;
  owner : Z;
  acquired_time : Z
}.

(** Threads are named by integers ([std::thread::id]). *)
Record DeadlockPrevention := mkRegistry {
  held_locks : gmap Z (list string);
  lock_registry : gmap string LockInfo;
  lock_hierarchy : gmap string Z;
  next_hierarchy_level : Z
}.

Definition new_registry : DeadlockPrevention :=
  {| held_locks := ∅; lock_registry := ∅; lock_hierarchy := ∅;
     next_hierarchy_level := 0 |}.

Definition register_lock_type (d : DeadlockPrevention) (lock : string) : DeadlockPrevention :=
  match lock_hierarchy d !! lock with
  | Some _ => d
  | None =>
      {| held_locks := held_locks d; lock_registry := lock_registry d;
         lock_hierarchy := <[lock := next_hierarchy_level d]> (lock_hierarchy d);
         next_hierarchy_level := next_hierarchy_level d + 1 |}
  end.

Definition would_create_cycle (d : DeadlockPrevention) (tid : Z) (target_lock : string) : bool :=
  match lock_registry d !! target_lock with
  | Some info =>
      if bool_decide (owner info ≠ tid) then
        match held_locks d !! owner info with
        | Some other_locks =>
            match held_locks d !! tid with
            | Some our_locks =>
                existsb (fun our_lock =>
                   existsb (fun other_lock => String.eqb our_lock other_lock) other_locks)
                  our_locks
            | None => false
            end
        | None => false
        end
      else false
  | None => false
  end.

(** [can_acquire_safely] called by thread [tid].  For a name that is not
    in the hierarchy the function calls [register_lock_type] while it
    holds [registry_mutex], which that function locks again: locking a
    [std::mutex] the thread already owns is undefined. *)
Definition can_acquire_safely (d : DeadlockPrevention) (tid : Z) (lock : string)
    : outcome bool :=
  match lock_hierarchy d !! lock with
  | None => Undefined
  | Some target_level =>
      let held := default [] (held_locks d !! tid) in
      if existsb (fun held_lock =>
            match lock_hierarchy d !! held_lock with
            | Some level => target_level <? level
            | None => false
            end) held
      then Returns false
      else Returns (negb (would_create_cycle d tid lock))
  end.

Definition register_lock_acquisition (d : DeadlockPrevention) (tid : Z) (lock : string)
    (now : Z) : DeadlockPrevention :=
  {| held_locks := <[tid := default [] (held_locks d !! tid) ++ [lock]]> (held_locks d);
     lock_registry :=
       <[lock := {| lock_name := lock; owner := tid; acquired_time := now |}]>
         (lock_registry d);
     lock_hierarchy := lock_hierarchy d;
     next_hierarchy_level := next_hierarchy_level d |}.

Definition register_lock_release (d : DeadlockPrevention) (tid : Z) (lock : string)
    : DeadlockPrevention :=
  {| held_locks :=
       <[tid := List.filter (fun l => negb (String.eqb l lock))
                  (default [] (held_locks d !! tid))]> (held_locks d);
     lock_registry := delete lock (lock_registry d);
     lock_hierarchy := lock_hierarchy d;
     next_hierarchy_level := next_hierarchy_level d |}.

(** The cell of the test suite: [SafeSharedState<int>(0, "test_counter")]. *)
Definition test_counter : @ProtectedSharedState Z := new_cell 0 "test_counter" 0.

(** The registry after [register_lock_type(A); register_lock_type(B)]. *)
Definition registered_in_order (A B : string) : DeadlockPrevention :=
  register_lock_type (register_lock_type new_registry A) B.

(** *** analyze_potential_deadlocks *)

Record DeadlockReport := mkReport {
  potential_deadlock_detected : bool;
  involved_locks : list string;
  involved_threads : list Z;
  description : string
}.

(** [lock_hierarchy[name]]: [std::map::operator[]] enters level 0 for a
    name that is not there. *)
Definition level_of (hierarchy : gmap string Z) (lock : string) : Z * gmap string Z :=
  match hierarchy !! lock with
  | Some level => (level, hierarchy)
  | None => (0, <[lock := 0]> hierarchy)
  end.

(** The inner loop over one thread's locks: whether some adjacent pair
    has a falling level (the loop breaks at the first), and the
    hierarchy after the look-ups. *)
Fixpoint hierarchy_violation (hierarchy : gmap string Z) (locks : list string)
    : bool * gmap string Z :=
  match locks with
  | lock1 :: ((lock2 :: _) as rest) =>
      let (level1, h1) := level_of hierarchy lock1 in
      let (level2, h2) := level_of h1 lock2 in
      if level2 <? level1 then (true, h2) else hierarchy_violation h2 rest
  | _ => (false, hierarchy)
  end.

Definition by_thread (x y : Z * list string) : Prop := x.1 <= y.1.

#[global] Instance by_thread_dec x y : Decision (by_thread x y).
Proof. unfold by_thread. apply _. Defined.

(** The entries of [held_locks] in the order [std::map] iterates them. *)
Definition threads_in_order (d : DeadlockPrevention) : list (Z * list string) :=
  merge_sort by_thread (map_to_list (held_locks d)).

(** One pass of the outer loop. *)
Definition analyze_thread (acc : DeadlockReport * gmap string Z)
    (entry : Z * list string) : DeadlockReport * gmap string Z :=
  let (report, hierarchy) := acc in
  let (tid, locks) := entry in
  match hierarchy_violation hierarchy locks with
  | (true, h) =>
      ({| potential_deadlock_detected := true;
          involved_locks := locks;
          involved_threads := involved_threads report ++ [tid];
          description := "Lock hierarchy violation detected" |}, h)
  | (false, h) => (report, h)
  end.

Definition analyze_potential_deadlocks (d : DeadlockPrevention)
    : DeadlockReport * DeadlockPrevention :=
  let (report, hierarchy) :=
    fold_left analyze_thread (threads_in_order d)
      ({| potential_deadlock_detected := false; involved_locks := [];
          involved_threads := []; description := EmptyString |},
       lock_hierarchy d) in
  (report,
   {| held_locks := held_locks d; lock_registry := lock_registry d;
      lock_hierarchy := hierarchy;
      next_hierarchy_level := next_hierarchy_level d |}).

(** *** SafeLockGuard *)

Definition deadlock_risk (lock : string) : HerLangError :=
  with_context
    (with_suggestion
       (with_suggestion
          (new_error RuntimeError ("Potential deadlock detected for lock: " ++ lock))
          "Review lock acquisition order")
       "Consider using try_lock with timeout")
    "Deadlock prevention system".

(** The constructor, run by thread [tid]: the registry afterwards when
    the guard is built.  The mutex itself is taken between the check and
    the registration. *)
Definition guard_enter (d : DeadlockPrevention) (tid : Z) (lock : string) (now : Z)
    : outcome DeadlockPrevention :=
  match can_acquire_safely d tid lock with
  | Returns true => Returns (register_lock_acquisition d tid lock now)
  | Returns false => Throws (deadlock_risk lock)
  | Throws e => Throws e
  | Undefined => Undefined
  end.

(** The destructor of a guard that owns its lock. *)
Definition guard_leave (d : DeadlockPrevention) (tid : Z) (lock : string)
    : DeadlockPrevention :=
  register_lock_release d tid lock.

(** Guards built and destroyed by the threads of a program.  A guard
    whose constructor throws leaves the registry as it was. *)
Inductive GuardStep :=
| Enter (tid : Z) (lock : string) (now : Z)
| Leave (tid : Z) (lock : string).

Definition guard_step (d : DeadlockPrevention) (s : GuardStep) : DeadlockPrevention :=
  match s with
  | Enter tid lock now =>
      match guard_enter d tid lock now with
      | Returns d' => d'
      | _ => d
      end
  | Leave tid lock => guard_leave d tid lock
  end.

(** Calls on the registry that do not go through a guard. *)
Inductive RegistryCall :=
| RegisterType (lock : string)
| RegisterAcquisition (tid : Z) (lock : string) (now : Z)
| RegisterRelease (tid : Z) (lock : string).

Definition registry_call (d : DeadlockPrevention) (c : RegistryCall) : DeadlockPrevention :=
  match c with
  | RegisterType lock => register_lock_type d lock
  | RegisterAcquisition tid lock now => register_lock_acquisition d tid lock now
  | RegisterRelease tid lock => register_lock_release d tid lock
  end.

(** The levels of the locks a thread holds never fall along its list. *)
Definition level_le (hierarchy : gmap string Z) (a b : string) : Prop :=
  exists la lb, hierarchy !! a = Some la /\ hierarchy !! b = Some lb /\ la <= lb.

Definition ascending (d : DeadlockPrevention) : Prop :=
  forall tid locks, held_locks d !! tid = Some locks ->
    StronglySorted (level_le (lock_hierarchy d)) locks /\
    Forall (fun a => is_Some (lock_hierarchy d !! a)) locks.

(** No two names share a level, and every level is below the next one
    to be handed out. *)
Definition distinct_levels (d : DeadlockPrevention) : Prop :=
  0 <= next_hierarchy_level d /\
  (forall lock level, lock_hierarchy d !! lock = Some level ->
     0 <= level < next_hierarchy_level d) /\
  (forall lock1 lock2 level,
     lock_hierarchy d !! lock1 = Some level ->
     lock_hierarchy d !! lock2 = Some level -> lock1 = lock2).

(** Two neighbours in a thread's list whose levels fall. *)
Definition falling_pair (hierarchy : gmap string Z) (locks : list string) : Prop :=
  exists i a b la lb,
    locks !! i = Some a /\ locks !! S i = Some b /\
    hierarchy !! a = Some la /\ hierarchy !! b = Some lb /\ lb < la.

(** Every lock a thread holds has a level. *)
Definition held_are_registered (d : DeadlockPrevention) : Prop :=
  forall tid locks, held_locks d !! tid = Some locks ->
    Forall (fun a => is_Some (lock_hierarchy d !! a)) locks.

Definition clean_report : DeadlockReport :=
  {| potential_deadlock_detected := false; involved_locks := [];
     involved_threads := []; description := EmptyString |}.

End SharedState.

(** ** type_system.hpp, type_system.cpp *)

Module TypeSystem.

Inductive HerType :=
| Unknown
| Text
| Number
| Truth
| Maybe
| Nothing.

#[global] Instance HerType_eq_dec : EqDecision HerType.
Proof. solve_decision. Defined.

Record TypeInfo := mkTypeInfo {
  base_type : HerType;
  is_nullable : bool;
  type_name : string
}.

(** The constructor [TypeInfo(type, nullable)]. *)
Definition new_type_info (type : HerType) (nullable : bool) : TypeInfo :=
  {| base_type := type;
     is_nullable := nullable;
     type_name :=
       (match type with
        | Text => "text"
        | Number => "number"
        | Truth => "truth"
        | Maybe => "maybe"
        | Nothing => "nothing"
        | Unknown => "unknown"
        end ++ if nullable then "?" else EmptyString)%string |}.

Definition to_cpp_type (t : TypeInfo) : string :=
  let cpp_type :=
    match base_type t with
    | Text => "std::string"
    | Number => "double"
    | Truth => "bool"
    | Nothing => "void"
    | _ => "auto"
    end in
  if is_nullable t then ("std::optional<" ++ cpp_type ++ ">")%string else cpp_type.

Record TypeChecker := mkChecker {
  variable_types : gmap string TypeInfo;
  function_return_types : gmap string TypeInfo
}.

Definition new_checker : TypeChecker :=
  {| variable_types := ∅; function_return_types := ∅ |}.

Definition declare_variable (tc : TypeChecker) (name : string) (type : TypeInfo)
    : TypeChecker :=
  {| variable_types := <[name := type]> (variable_types tc);
     function_return_types := function_return_types tc |}.

Definition get_variable_type (tc : TypeChecker) (name : string) : TypeInfo :=
  match variable_types tc !! name with
  | Some type => type
  | None => new_type_info Unknown false
  end.

Definition declare_function (tc : TypeChecker) (name : string) (return_type : TypeInfo)
    : TypeChecker :=
  {| variable_types := variable_types tc;
     function_return_types := <[name := return_type]> (function_return_types tc) |}.

Definition get_function_return_type (tc : TypeChecker) (name : string) : TypeInfo :=
  match function_return_types tc !! name with
  | Some type => type
  | None => new_type_info Nothing false
  end.

Definition is_compatible (expected actual : TypeInfo) : bool :=
  if decide (base_type expected = Unknown) then true
  else if decide (base_type actual = Unknown) then true
  else if decide (base_type expected = base_type actual)
       then negb (is_nullable expected) || is_nullable actual
  else if decide (base_type expected = Text /\ base_type actual = Number) then true
  else false.

(** [HerLangError(type, msg, line)] *)
Definition new_error_at (type : ErrorType) (msg : string) (line : Z) : HerLangError :=
  {| error_type := type; message := msg; context := EmptyString;
     line_number := line; suggestions := [];
     help_url := "https://github.com/HerLang/docs/issues" |}.

Definition type_mismatch (var_name : string) (var_type value_type : TypeInfo) (line : Z)
    : HerLangError :=
  with_context
    (with_suggestion
       (with_suggestion
          (new_error_at TypeError
             ("Type mismatch: cannot assign " ++ type_name value_type
              ++ " to variable '" ++ var_name ++ "' of type " ++ type_name var_type)%string
             line)
          "Check the types are compatible")
       "Consider explicit type conversion if needed")
    "Type checking assignment".

Definition check_assignment_compatibility (tc : TypeChecker) (var_name : string)
    (value_type : TypeInfo) (line : Z) : outcome unit :=
  let var_type := get_variable_type tc var_name in
  if negb (is_compatible var_type value_type)
  then Throws (type_mismatch var_name var_type value_type line)
  else Returns tt.

(** [std::string::back] and [pop_back] on a string that is not empty. *)
Fixpoint back (s : string) : option ascii :=
  match s with
  | EmptyString => None
  | String c EmptyString => Some c
  | String _ rest => back rest
  end.

Fixpoint pop_back (s : string) : string :=
  match s with
  | EmptyString => EmptyString
  | String _ EmptyString => EmptyString
  | String c rest => String c (pop_back rest)
  end.

(** [::tolower] in the C locale: the letters A to Z move to a to z. *)
Definition tolower (c : ascii) : ascii :=
  let n := N_of_ascii c in
  if ((65 <=? n) && (n <=? 90))%N then ascii_of_N (n + 32) else c.

Fixpoint lowercase (s : string) : string :=
  match s with
  | EmptyString => EmptyString
  | String c rest => String (tolower c) (lowercase rest)
  end.

Definition parse_type_annotation (annotation : string) : option TypeInfo :=
  if String.eqb annotation EmptyString then None
  else
    let is_nullable := bool_decide (back annotation = Some "?"%char) in
    let clean_annotation :=
      lowercase (if is_nullable then pop_back annotation else annotation) in
    if String.eqb clean_annotation "text" || String.eqb clean_annotation "string"
    then Some (new_type_info Text is_nullable)
    else if String.eqb clean_annotation "number" || String.eqb clean_annotation "num"
    then Some (new_type_info Number is_nullable)
    else if String.eqb clean_annotation "truth" || String.eqb clean_annotation "bool"
    then Some (new_type_info Truth is_nullable)
    else if String.eqb clean_annotation "nothing" || String.eqb clean_annotation "void"
    then Some (new_type_info Nothing is_nullable)
    else None.

End TypeSystem.

(** ** memory_safety.hpp *)

Module MemorySafety.

(** [std::to_string] of a [size_t]. *)
Definition to_string (n : Z) : string := pretty (Z.to_N n).

Section Arrays.
Context {T : Type}.

Record SafeArray := mkArray {
  data : list T;
  name : string
}.

(** [SafeArray(array_name)] *)
Definition new_array (array_name : string) : SafeArray :=
  {| data := []; name := array_name |}.

Definition size (a : SafeArray) : Z := Z.of_nat (length (data a)).
Definition empty (a : SafeArray) : bool := bool_decide (data a = []).

Definition index_out_of_bounds (a : SafeArray) (index : Z) : HerLangError :=
  with_context
    (with_suggestion
       (with_suggestion
          (new_error MemoryError
             ("Array index out of bounds for '" ++ name a ++ "'")%string)
          ("Index " ++ to_string index ++ " is >= array size "
           ++ to_string (size a))%string)
       "Use array.size() to check bounds before accessing")
    "Safe array bounds checking".

(** [at(index)]: the element the returned reference refers to. *)
Definition at_index (a : SafeArray) (index : Z) : outcome T :=
  if size a <=? index then Throws (index_out_of_bounds a index)
  else match data a !! Z.to_nat index with
       | Some v => Returns v
       | None => Undefined
       end.

(** [operator[]] forwards to [at]. *)
Definition subscript (a : SafeArray) (index : Z) : outcome T := at_index a index.

Definition push_back (a : SafeArray) (value : T) : SafeArray :=
  {| data := data a ++ [value]; name := name a |}.
End Arrays.

End MemorySafety.

(** ** performance_optimization.hpp *)

Module Performance.

Definition CACHE_BLOCK_SIZE : nat := 1024.

Section Reduce.
Context {T : Type}.

(** The first loop of [parallel_reduce] over the array [data] (its
    [count] is the length): one partial result per block of 1024
    elements, each started from [init].  The recursion runs on a bound
    for the number of blocks. *)
Fixpoint partial_results (blocks : nat) (data : list T) (init : T)
    (operation : T -> T -> T) : list T :=
  match blocks, data with
  | S blocks', _ :: _ =>
      fold_left operation (take CACHE_BLOCK_SIZE data) init
      :: partial_results blocks' (drop CACHE_BLOCK_SIZE data) init operation
  | _, _ => []
  end.

Definition parallel_reduce (data : list T) (init : T) (operation : T -> T -> T) : T :=
  fold_left operation (partial_results (length data) data init operation) init.
End Reduce.

(** *** CacheFriendlyVector *)

(** How an operation on the vector ends: it is done, the allocator
    refused memory ([std::bad_alloc]), or the code ran into undefined
    behaviour (a division by zero, a write outside the buffer, a read
    of a slot that was never written). *)
Inductive vector_result (A : Type) :=
| Done (a : A)
| BadAlloc
| Broken.
Arguments Done {A} a.
Arguments BadAlloc {A}.
Arguments Broken {A}.

Definition CACHE_LINE_SIZE : Z := 64.

(** The bytes [CacheAlignedAllocator<64>::allocate<T>(count)] asks
    [std::aligned_alloc] for: [(size + 63) & ~63]. *)
Definition requested_bytes (sizeof_T count : Z) : Z :=
  let size := wrap_size_t (count * sizeof_T) in
  Z.land (wrap_size_t (size + CACHE_LINE_SIZE - 1))
         (wrap_size_t (Z.lnot (CACHE_LINE_SIZE - 1))).

Section Vector.
Context {T : Type}.
Variable sizeof_T : Z.
(** Whether the system grants the vector's [k]-th request, which is for
    so many bytes. *)
Variable grants : nat -> Z -> bool.

Definition ELEMENTS_PER_CACHE_LINE : Z := CACHE_LINE_SIZE / sizeof_T.

(** The written elements (there are [size_] of them) and the capacity
    the vector believes it has; and, kept by the model only, the bytes
    of the buffer [data] points to (what the allocator was asked for)
    and how many requests the vector has made to the allocator, which
    selects the allocator's answer. *)
Record CacheFriendlyVector := mkVector {
  cells : list T;
  capacity_ : Z;
  buffer_bytes : Z;
  requests : nat
}.

Definition size_ (v : CacheFriendlyVector) : Z := Z.of_nat (length (cells v)).

(** [((n + ELEMENTS_PER_CACHE_LINE - 1) / ELEMENTS_PER_CACHE_LINE)
      * ELEMENTS_PER_CACHE_LINE] in [size_t]. *)
Definition whole_lines (n : Z) : Z :=
  wrap_size_t
    (wrap_size_t (wrap_size_t (n + ELEMENTS_PER_CACHE_LINE) - 1)
       / ELEMENTS_PER_CACHE_LINE
     * ELEMENTS_PER_CACHE_LINE).

(** The constructor. *)
Definition new_vector (initial_capacity : Z) : vector_result CacheFriendlyVector :=
  if ELEMENTS_PER_CACHE_LINE =? 0 then Broken
  else
    let capacity := whole_lines initial_capacity in
    let bytes := requested_bytes sizeof_T capacity in
    if grants 0%nat bytes
    then Done {| cells := []; capacity_ := capacity; buffer_bytes := bytes;
                 requests := 1 |}
    else BadAlloc.

(** [resize_capacity]: the [memcpy] of [size_ * sizeof(T)] bytes (a
    [size_t] product) must stay inside the old buffer and the new
    one. *)
Definition resize_capacity (v : CacheFriendlyVector) (new_capacity : Z)
    : vector_result CacheFriendlyVector :=
  if ELEMENTS_PER_CACHE_LINE =? 0 then Broken
  else
    let capacity := whole_lines new_capacity in
    let bytes := requested_bytes sizeof_T capacity in
    if negb (grants (requests v) bytes) then BadAlloc
    else
      let copied := wrap_size_t (size_ v * sizeof_T) in
      if (bytes <? copied) || (buffer_bytes v <? copied) then Broken
      else Done {| cells := cells v; capacity_ := capacity; buffer_bytes := bytes;
                   requests := S (requests v) |}.

(** [data[size_++] = value]: the element written must lie inside the
    buffer. *)
Definition store_next (v : CacheFriendlyVector) (value : T)
    : vector_result CacheFriendlyVector :=
  if (size_ v + 1) * sizeof_T <=? buffer_bytes v
  then Done {| cells := cells v ++ [value]; capacity_ := capacity_ v;
               buffer_bytes := buffer_bytes v; requests := requests v |}
  else Broken.

Definition vector_push_back (v : CacheFriendlyVector) (value : T)
    : vector_result CacheFriendlyVector :=
  if capacity_ v <=? size_ v then
    match resize_capacity v (wrap_size_t (capacity_ v * 2)) with
    | Done v' => store_next v' value
    | BadAlloc => BadAlloc
    | Broken => Broken
    end
  else store_next v value.

(** Reading [operator[]], which checks nothing: the element must lie
    inside the buffer and have been written. *)
Definition vector_index (v : CacheFriendlyVector) (index : Z) : vector_result T :=
  if (index <? 0) || (buffer_bytes v <? (index + 1) * sizeof_T) then Broken
  else match cells v !! Z.to_nat index with
       | Some x => Done x
       | None => Broken
       end.

(** [push_back] of one value after the other. *)
Fixpoint push_all (v : CacheFriendlyVector) (values : list T)
    : vector_result CacheFriendlyVector :=
  match values with
  | [] => Done v
  | value :: rest =>
      match vector_push_back v value with
      | Done v' => push_all v' rest
      | BadAlloc => BadAlloc
      | Broken => Broken
      end
  end.

(** What holds of a vector in use: the capacity covers the written
    elements, is a whole number of cache lines, has at most doubled
    past the elements, and the buffer has room for it. *)
Definition in_use (bound : Z) (v : CacheFriendlyVector) : Prop :=
  1 <= capacity_ v /\ size_ v <= capacity_ v /\
  capacity_ v mod ELEMENTS_PER_CACHE_LINE = 0 /\
  capacity_ v <= bound + 2 * size_ v + 64 /\
  capacity_ v * sizeof_T <= buffer_bytes v.

(** A vector is constructed and the values are pushed. *)
Definition build_vector (initial_capacity : Z) (values : list T)
    : vector_result CacheFriendlyVector :=
  match new_vector initial_capacity with
  | Done v => push_all v values
  | BadAlloc => BadAlloc
  | Broken => Broken
  end.
End Vector.

End Performance.

(** ** generator.cpp *)

Module Generator.

Definition quote : ascii := "034"%char.
Definition backslash : ascii := "092"%char.

(** [escape_string]: a backslash goes before each double quote and each
    backslash; every other character is copied. *)
Fixpoint escape_string (s : string) : string :=
  match s with
  | EmptyString => EmptyString
  | String c rest =>
      if Ascii.eqb c quote then String backslash (String quote (escape_string rest))
      else if Ascii.eqb c backslash
      then String backslash (String backslash (escape_string rest))
      else String c (escape_string rest)
  end.

(** A text cut into the pieces [escape_string] writes: a backslash
    followed by a quote or a backslash stands for the second character,
    any other character but a quote stands for itself.  A quote with no
    backslash before it, a backslash followed by another character, and
    a backslash at the end are no such pieces. *)
Fixpoint escaped_pieces (s : string) : option string :=
  match s with
  | EmptyString => Some EmptyString
  | String c rest =>
      if Ascii.eqb c quote then None
      else if Ascii.eqb c backslash then
        match rest with
        | String e rest' =>
            if Ascii.eqb e quote || Ascii.eqb e backslash
            then String e <$> escaped_pieces rest'
            else None
        | EmptyString => None
        end
      else String c <$> escaped_pieces rest
  end.

(** How often a character occurs in a text. *)
Fixpoint occurrences (c : ascii) (s : string) : nat :=
  match s with
  | EmptyString => 0%nat
  | String c' rest =>
      ((if Ascii.eqb c' c then 1 else 0) + occurrences c rest)%nat
  end.

End Generator.

(** ** error_system.cpp: the friendly report *)

Module ErrorReport.

Definition nl : string := String "010"%char EmptyString.

(** The table has an entry for each of the seven types, so the text for
    a type that is not in the table is never returned. *)
Definition get_encouragement (type : ErrorType) : string :=
  match type with
  | SyntaxError => "Syntax takes practice - you're learning!"
  | TypeError => "Type mismatches happen to everyone, let's fix this together."
  | MemoryError => "Memory management can be tricky, but we can solve this."
  | RuntimeError => "Runtime issues are great learning opportunities."
  | UnexpectedToken => "The parser got confused, but we can clarify this."
  | UndefinedFunction => "Function not found - let's check the definition."
  | InvalidArgument => "Argument mismatch - let's align the parameters."
  end.

(** The table has four of the seven types; the others get the one
    general solution. *)
Definition get_common_solutions (type : ErrorType) : list string :=
  match type with
  | SyntaxError =>
      ["Check for missing colons (:) after function declarations";
       "Ensure 'end' statements match your blocks";
       "Verify proper indentation and spacing"]
  | TypeError =>
      ["Check if variables are properly initialized";
       "Verify function parameters match expected types";
       "Consider using explicit type annotations"]
  | UndefinedFunction =>
      ["Check if the function is defined before it's called";
       "Verify the function name spelling";
       "Ensure the function is in scope"]
  | UnexpectedToken =>
      ["Check for missing quotes around strings";
       "Verify proper punctuation and symbols";
       "Look for unclosed parentheses or brackets"]
  | MemoryError | RuntimeError | InvalidArgument =>
      ["Review the documentation and examples"]
  end.

Definition with_help_url (e : HerLangError) (url : string) : HerLangError :=
  {| error_type := error_type e; message := message e; context := context e;
     line_number := line_number e; suggestions := suggestions e;
     help_url := url |}.

(** [what()] *)
Definition what (e : HerLangError) : string := message e.

Definition rule : string :=
  "━━━━━━━━━━━━━━━━━━━━━━━━━━━━━━━━━━━━━━━━━━━━━━━━━━".

Definition suggestions_heading : string := "🤝 Suggestions:" +:+ nl.

(** One line of the list of suggestions, as the three strings written. *)
Definition bullet (s : string) : list string := ["   • "; s; nl].

Definition is_empty {A : Type} (l : list A) : bool :=
  match l with [] => true | _ => false end.

Definition empty_string (s : string) : bool :=
  match s with EmptyString => true | _ => false end.

(** [display_friendly_error]: the strings written to [std::cerr], one
    for each operand of [<<], in the order written. *)
Definition display_friendly_error (e : HerLangError) : list string :=
  [nl +:+ "🌸 HerLang Error Report" +:+ nl; rule +:+ nl]
  ++ (if 0 <? line_number e
      then ["📍 Line "; pretty (line_number e); ": "] else [])
  ++ [message e; nl +:+ nl]
  ++ (if negb (empty_string (context e))
      then ["📝 Context: "; context e; nl +:+ nl] else [])
  ++ ["💝 "; get_encouragement (error_type e); nl +:+ nl]
  ++ (let common_solutions := get_common_solutions (error_type e) in
      if negb (is_empty (suggestions e)) || negb (is_empty common_solutions)
      then [suggestions_heading]
           ++ flat_map bullet (suggestions e)
           ++ flat_map bullet common_solutions
           ++ [nl]
      else [])
  ++ ["🌐 Need more help? Visit: "; help_url e; nl; rule +:+ nl +:+ nl].

(** [ErrorReporter::report_with_support] *)
Definition report_with_support (e : HerLangError) : list string :=
  display_friendly_error e.

(** An error as the throw sites build it: suggestions attached one
    after the other, then a context. *)
Definition with_suggestions (e : HerLangError) (added : list string) : HerLangError :=
  fold_left with_suggestion added e.

End ErrorReport.

(** * Properties *)

(** ** Machine integers *)

Lemma wrap_size_t_range z : 0 <= wrap_size_t z <= SIZE_MAX.
Proof.
  unfold wrap_size_t, SIZE_MAX.
  pose proof (Z.mod_pos_bound z (2 ^ 64) ltac:(lia)). lia.
Qed.

Lemma wrap_size_t_small z : 0 <= z <= SIZE_MAX -> wrap_size_t z = z.
Proof. unfold wrap_size_t, SIZE_MAX. intros. apply Z.mod_small. lia. Qed.

(** ** The guarded allocator *)

Module MemoryFacts.
Import Memory.

(** *** Sums over the registry *)

Lemma sum_with_perm f l1 l2 : l1 ≡ₚ l2 -> sum_with f l1 = sum_with f l2.
Proof.
  induction 1 as [|x l l' _ IH|x y l|l l' l'' _ IH1 _ IH2]; simpl; lia.
Qed.

Lemma sum_with_nil f : sum_with f [] = 0.
Proof. reflexivity. Qed.

Lemma sum_with_cons f x l : sum_with f (x :: l) = f x + sum_with f l.
Proof. reflexivity. Qed.

Lemma registered_bytes_sum mm :
  registered_bytes mm = sum_with block_bytes (map_to_list (protected_blocks mm)).
Proof. reflexivity. Qed.

#[local] Instance by_address_dec x y : Decision (by_address x y).
Proof. unfold by_address. apply _. Defined.

#[local] Instance by_address_total : Total by_address.
Proof. intros x y. unfold by_address. lia. Qed.

#[local] Instance by_address_trans : Transitive by_address.
Proof. intros x y z. unfold by_address. lia. Qed.

Lemma footprint_pos sz : 1 <= footprint sz.
Proof. unfold footprint. lia. Qed.

Lemma footprint_ge sz : sz <= footprint sz.
Proof. unfold footprint. lia. Qed.

(** Blocks in address order, each inside [[lo, hi)], pairwise apart and
    at distinct addresses, take up at most [hi - lo] bytes. *)
Lemma sorted_footprints_fit l : forall lo hi,
  StronglySorted by_address l ->
  NoDup l.*1 ->
  (forall x, x ∈ l -> lo <= x.1 /\ x.1 + block_footprint x <= hi) ->
  (forall x y, x ∈ l -> y ∈ l -> x.1 <> y.1 -> apart x y) ->
  lo <= hi ->
  sum_with block_footprint l <= hi - lo.
Proof.
  induction l as [|x l IH]; intros lo hi Hs Hnd Hin Hap Hle.
  { rewrite sum_with_nil. lia. }
  rewrite sum_with_cons.
  apply StronglySorted_inv in Hs as [Hs Hhd].
  rewrite fmap_cons in Hnd. apply NoDup_cons in Hnd as [Hx Hnd].
  destruct (Hin x ltac:(left)) as [Hlo Hhi].
  pose proof (footprint_pos (size x.2)) as Hfx. fold (block_footprint x) in Hfx.
  assert (Hrest : forall y, y ∈ l ->
            x.1 + block_footprint x <= y.1 /\ y.1 + block_footprint y <= hi).
  { intros y Hy. split; [|apply Hin; by right].
    assert (x.1 <> y.1) as Hne.
    { intros Heq. apply Hx. rewrite Heq. apply list_elem_of_fmap. eauto. }
    rewrite Forall_forall in Hhd. specialize (Hhd y Hy). unfold by_address in Hhd.
    pose proof (footprint_pos (size y.2)) as Hfy. fold (block_footprint y) in Hfy.
    destruct (Hap x y ltac:(left) ltac:(by right) Hne) as [H1|H1]; lia. }
  assert (sum_with block_footprint l <= hi - (x.1 + block_footprint x)) as Hsum.
  { apply IH; [done | done | done | | lia].
    intros y z Hy Hz. apply Hap; by right. }
  lia.
Qed.

Lemma laid_out_perm l1 l2 : l1 ≡ₚ l2 -> laid_out l1 -> laid_out l2.
Proof.
  intros Hp [Hpl Hap]. split.
  - by rewrite <- Hp.
  - intros x y Hx Hy. apply Hap; by rewrite Hp.
Qed.

Lemma well_placed_laid_out mm :
  well_placed mm -> laid_out (map_to_list (protected_blocks mm)).
Proof.
  intros Hwp. split.
  - apply Forall_forall. intros [a b] Hin%elem_of_map_to_list.
    by apply Hwp.
  - intros [a b] [a' b'] Hx%elem_of_map_to_list Hy%elem_of_map_to_list Hne.
    by apply (Hwp a b Hx).
Qed.

(** Hence the footprints of a well placed registry stay below [2^64]. *)
Lemma footprints_fit mm :
  well_placed mm ->
  sum_with block_footprint (map_to_list (protected_blocks mm)) <= SIZE_MAX.
Proof.
  intros Hwp. apply well_placed_laid_out in Hwp.
  set (l := map_to_list (protected_blocks mm)) in *.
  pose proof (merge_sort_Permutation by_address l) as Hperm.
  rewrite <- (sum_with_perm _ _ _ Hperm).
  apply (laid_out_perm _ _ (symmetry Hperm)) in Hwp as [Hpl Hap].
  assert (sum_with block_footprint (merge_sort by_address l) <= 2 ^ 64 - 1) as Hfit.
  { apply sorted_footprints_fit.
    - apply StronglySorted_merge_sort; apply _.
    - rewrite Hperm. apply NoDup_fst_map_to_list.
    - intros x Hx. rewrite Forall_forall in Hpl. destruct (Hpl x Hx) as (?&?&?). lia.
    - exact Hap.
    - lia. }
  unfold SIZE_MAX. lia.
Qed.

Lemma sum_bytes_le_footprints l :
  Forall placed l ->
  0 <= sum_with block_bytes l <= sum_with block_footprint l /\
  Z.of_nat (length l) <= sum_with block_footprint l.
Proof.
  induction 1 as [|x l (?&?&?) _ IH].
  { rewrite !sum_with_nil. simpl. lia. }
  rewrite !sum_with_cons, length_cons.
  change (block_bytes x) with (size x.2).
  change (block_footprint x) with (footprint (size x.2)).
  pose proof (footprint_pos (size x.2)). pose proof (footprint_ge (size x.2)). lia.
Qed.

Lemma apart_sym x y : apart x y -> apart y x.
Proof. unfold apart. tauto. Qed.

Lemma well_placed_empty : well_placed empty_manager.
Proof. intros a b H. simpl in H. by rewrite lookup_empty in H. Qed.

Lemma well_placed_deallocate mm p : well_placed mm -> well_placed (deallocate mm p).
Proof.
  intros Hwp. unfold deallocate.
  destruct (protected_blocks mm !! p) eqn:Hp; [|done].
  intros a b Ha. simpl in Ha. apply lookup_delete_Some in Ha as [_ Ha].
  destruct (Hwp a b Ha) as [Hpl Hap]. split; [done|].
  intros a' b' Ha'. simpl in Ha'. apply lookup_delete_Some in Ha' as [_ Ha'].
  by apply Hap.
Qed.

Lemma well_placed_insert mm a blk :
  well_placed mm ->
  0 <= size blk ->
  fresh_region (protected_blocks mm) a (size blk) ->
  well_placed {| protected_blocks := <[a := blk]> (protected_blocks mm) |}.
Proof.
  intros Hwp Hsz (Hpos & Hend & Hfresh) k b Hk. simpl in Hk.
  apply lookup_insert_Some in Hk as [[<- <-]|[Hne Hk]].
  - split; [by repeat split|].
    intros a' b' Ha' Hne. simpl in Ha'. rewrite lookup_insert_ne in Ha' by done.
    apply (Hfresh a' b' Ha').
  - destruct (Hwp k b Hk) as [Hpl Hap]. split; [done|].
    intros a' b' Ha'. simpl in Ha'.
    apply lookup_insert_Some in Ha' as [[<- <-]|[_ Ha']].
    + intros _. apply apart_sym. apply (Hfresh k b Hk).
    + by apply Hap.
Qed.

Lemma well_placed_perform mm c :
  well_placed mm -> allocator_answers mm [c] -> well_placed (perform mm c).
Proof.
  intros Hwp [Hc _]. destruct c as [sizeof_T count ctx now answer|p]; simpl.
  - unfold allocate.
    destruct (MAX_ALLOCATION <? wrap_size_t (count * sizeof_T)) eqn:Hmax; [done|].
    destruct answer as [a|]; [|done].
    apply Z.ltb_ge in Hmax.
    apply well_placed_insert; simpl; [done | apply wrap_size_t_range | by apply Hc].
  - by apply well_placed_deallocate.
Qed.

Lemma well_placed_run calls : forall mm,
  well_placed mm -> allocator_answers mm calls -> well_placed (run mm calls).
Proof.
  induction calls as [|c calls IH]; intros mm Hwp Hans; [done|].
  destruct Hans as [Hc Hrest]. simpl. apply IH; [|done].
  apply well_placed_perform; [done|]. by split.
Qed.

(** *** The loop of [get_stats] *)

Lemma stats_fold now init l :
  total_allocated init = 0 ->
  total_allocated (foldr (uncurry (stats_step now)) init l)
  = wrap_size_t (sum_with block_bytes l)
  /\ block_count (foldr (uncurry (stats_step now)) init l) = block_count init.
Proof.
  intros Hinit. induction l as [|[a b] l [IHt IHc]].
  - change (foldr (uncurry (stats_step now)) init []) with init.
    split; [|done]. by rewrite sum_with_nil, Hinit.
  - change (foldr (uncurry (stats_step now)) init ((a, b) :: l))
      with (stats_step now a b (foldr (uncurry (stats_step now)) init l)).
    unfold stats_step at 1 3. cbn [total_allocated block_count].
    split; [|done]. rewrite IHt, sum_with_cons.
    change (block_bytes (a, b)) with (size b).
    unfold wrap_size_t. rewrite Z.add_mod_idemp_l by lia. f_equal. lia.
Qed.

Lemma get_stats_totals mm now :
  total_allocated (get_stats mm now) = wrap_size_t (registered_bytes mm)
  /\ block_count (get_stats mm now)
     = wrap_size_t (Z.of_nat (base.size (protected_blocks mm))).
Proof.
  unfold get_stats. rewrite map_fold_foldr.
  match goal with |- context [foldr _ ?i ?l] =>
    destruct (stats_fold now i l eq_refl) as [Ht Hc] end.
  rewrite Ht, Hc. cbn [block_count]. split; [|done].
  by rewrite registered_bytes_sum.
Qed.

(** In a well placed manager neither the byte total nor the block count
    reaches the end of [size_t]. *)
Lemma well_placed_totals mm :
  well_placed mm ->
  0 <= registered_bytes mm <= SIZE_MAX /\
  0 <= Z.of_nat (base.size (protected_blocks mm)) <= SIZE_MAX.
Proof.
  intros Hwp. pose proof (footprints_fit mm Hwp) as Hfit.
  apply well_placed_laid_out in Hwp as [Hpl _].
  destruct (sum_bytes_le_footprints _ Hpl) as [Hb Hn].
  rewrite length_map_to_list in Hn. rewrite registered_bytes_sum. lia.
Qed.

Lemma deallocate_unknown mm p :
  protected_blocks mm !! p = None -> deallocate mm p = mm.
Proof. intros Hp. unfold deallocate. by rewrite Hp. Qed.

(** C2.  After any finite sequence of [allocate] and [deallocate] calls
    on a new memory manager, the allocation answers being ones the
    system allocator can give, [get_stats().total_allocated] is the sum
    of the byte sizes of the registered blocks and [block_count] is
    their number; [deallocate] of an address that is not registered
    leaves the manager, and with it the statistics, as they were. *)
Theorem stats_follow_registry (calls : list Call) (now : Z) :
  allocator_answers empty_manager calls ->
  let mm := run empty_manager calls in
  total_allocated (get_stats mm now) = registered_bytes mm /\
  block_count (get_stats mm now) = Z.of_nat (base.size (protected_blocks mm)) /\
  forall p, protected_blocks mm !! p = None ->
    deallocate mm p = mm /\ get_stats (deallocate mm p) now = get_stats mm now.
Proof.
  intros Hans mm.
  assert (well_placed mm) as Hwp
    by (apply well_placed_run; [apply well_placed_empty | done]).
  destruct (well_placed_totals mm Hwp) as [Hb Hn].
  destruct (get_stats_totals mm now) as [Ht Hc].
  rewrite Ht, Hc, !wrap_size_t_small by done.
  repeat split; try done.
  - by apply deallocate_unknown.
  - by rewrite deallocate_unknown.
Qed.

Lemma stats_follow_registry_witness :
  allocator_answers empty_manager sample_calls /\
  let mm := run empty_manager sample_calls in
  total_allocated (get_stats mm 5) = registered_bytes mm /\
  block_count (get_stats mm 5) = Z.of_nat (base.size (protected_blocks mm)) /\
  forall p, protected_blocks mm !! p = None ->
    deallocate mm p = mm /\ get_stats (deallocate mm p) 5 = get_stats mm 5.
Proof.
  assert (allocator_answers empty_manager sample_calls) as Hans.
  { pose proof (eq_refl :
      perform empty_manager (Allocate 4 1000 "test_array" 0 (Some 4096))
      = {| protected_blocks :=
             <[4096 := mkBlock 4096 4000 16 0 "test_array" 1 true]> ∅ |}) as Hm.
    unfold sample_calls. cbn -[insert fresh_region perform].
    rewrite Hm. cbn -[insert fresh_region].
    split; [intros _|split; [intros _|done]]; unfold fresh_region.
    - split; [lia|]. split; [vm_compute; congruence|].
      intros a' b' H. by rewrite lookup_empty in H.
    - split; [lia|]. split; [vm_compute; congruence|].
      intros a' b' H. apply lookup_insert_Some in H as [[<- <-]|[_ H]].
      + right. vm_compute. congruence.
      + by rewrite lookup_empty in H. }
  split; [exact Hans|].
  exact (stats_follow_registry sample_calls 5 Hans).
Defined.

(** *** The background reclaimer *)

Lemma gc_loop_keeps_manager wakeups : forall mm, gc_loop mm wakeups = mm.
Proof.
  induction wakeups as [|w rest IH]; intros mm; simpl; [done|].
  destruct (should_run w); simpl; [|done].
  destruct (Qle_bool MAX_SYSTEM_LOAD (system_load w)); simpl; by rewrite IH.
Qed.

(** C9.  A cleanup cycle reclaims nothing: [perform_incremental_cleanup]
    leaves the block registry of the memory manager, and so its
    statistics at any later time, as they were; the same holds for the
    whole collector loop, whatever wake-ups it goes through. *)
Theorem cleanup_reclaims_nothing (mm : AdvancedMemoryManager) (now : Z) :
  protected_blocks (manager_after (perform_incremental_cleanup mm now))
  = protected_blocks mm /\
  (forall later,
     get_stats (manager_after (perform_incremental_cleanup mm now)) later
     = get_stats mm later) /\
  (forall wakeups later,
     protected_blocks (gc_loop mm wakeups) = protected_blocks mm /\
     get_stats (gc_loop mm wakeups) later = get_stats mm later).
Proof.
  split; [reflexivity|]. split; [reflexivity|].
  intros wakeups later. by rewrite gc_loop_keeps_manager.
Qed.

(** *** Allocation *)

(** X1.  As long as [count * sizeof(T)] fits [size_t], [allocate]
    throws a Memory error for requests above 1 GiB and for null answers
    of the system allocator, and otherwise registers a block of
    [count * sizeof(T)] bytes under the returned address. *)
Lemma allocate_within_size_t sizeof_T mm count ctx now aligned_alloc :
  0 <= count * sizeof_T <= SIZE_MAX ->
  allocate sizeof_T mm count ctx now aligned_alloc =
    if MAX_ALLOCATION <? count * sizeof_T then Throws allocation_too_large
    else match aligned_alloc ALIGNMENT (count * sizeof_T) with
         | None => Throws allocation_failed
         | Some p =>
             let block := mkBlock p (count * sizeof_T) ALIGNMENT now ctx 1 true in
             Returns (mkPtr p (Some block),
                      mkManager (<[p := block]> (protected_blocks mm)))
         end.
Proof. intros Hfit. unfold allocate. by rewrite wrap_size_t_small. Qed.

Lemma allocate_within_size_t_witness :
  0 <= 1000 * 4 <= SIZE_MAX /\
  allocate 4 empty_manager 1000 "test_array" 7 (fun _ _ => Some 4096)
  = Returns (mkPtr 4096 (Some (mkBlock 4096 4000 16 7 "test_array" 1 true)),
             mkManager (<[4096 := mkBlock 4096 4000 16 7 "test_array" 1 true]> ∅))
  /\ allocate 4 empty_manager (2 ^ 30) "huge" 7 (fun _ _ => Some 4096)
     = Throws allocation_too_large
  /\ error_type allocation_too_large = MemoryError
  /\ error_type allocation_failed = MemoryError.
Proof.
  split; [by vm_compute|]. split; [|split; [|done]].
  - exact (allocate_within_size_t 4 empty_manager 1000 "test_array" 7
             (fun _ _ => Some 4096) ltac:(by vm_compute)).
  - exact (allocate_within_size_t 4 empty_manager (2 ^ 30) "huge" 7
             (fun _ _ => Some 4096) ltac:(by vm_compute)).
Defined.

(** C5, at a count whose byte size does not fit [size_t]: [2^62 + 4]
    elements of four bytes are more than 1 GiB, yet the product wraps to
    16, the limit check passes and a 16-byte block is registered. *)
Theorem allocate_size_wraps (mm : AdvancedMemoryManager) (ctx : string) (now a : Z) :
  let count := 2 ^ 62 + 4 in
  0 <= count <= SIZE_MAX /\
  MAX_ALLOCATION < count * 4 /\
  exists block,
    allocate 4 mm count ctx now (fun _ _ => Some a)
    = Returns (mkPtr a (Some block), mkManager (<[a := block]> (protected_blocks mm)))
    /\ size block = 16.
Proof.
  intros count. split; [by vm_compute|]. split; [by vm_compute|].
  eexists. unfold allocate.
  replace (wrap_size_t (count * 4)) with 16 by (by vm_compute).
  replace (MAX_ALLOCATION <? 16) with false by (by vm_compute).
  split; reflexivity.
Qed.

(** *** Guarded access *)

Section GuardedAccess.
Context {T : Type}.
Variable sizeof_T : Z.
Hypothesis sizeof_pos : 0 < sizeof_T.

Lemma access_allowed_in_range h b index :
  block_info h = Some b ->
  0 <= size b <= SIZE_MAX ->
  0 <= index < size_in_elements sizeof_T h ->
  access_allowed sizeof_T h index = true.
Proof.
  unfold size_in_elements, access_allowed, check_access. intros -> Hsz Hi.
  assert ((index + 1) * sizeof_T <= size b).
  { transitivity (size b / sizeof_T * sizeof_T); [nia|].
    rewrite Z.mul_comm. apply Z.mul_div_le. lia. }
  rewrite (wrap_size_t_small (index * sizeof_T)) by nia.
  rewrite wrap_size_t_small by nia. apply Z.leb_le. nia.
Qed.

Lemma access_allowed_past_end h b index :
  block_info h = Some b ->
  0 <= size b ->
  size_in_elements sizeof_T h <= index ->
  index * sizeof_T + sizeof_T <= SIZE_MAX ->
  access_allowed sizeof_T h index = false.
Proof.
  unfold size_in_elements, access_allowed, check_access. intros -> Hsz Hi Hfit.
  assert (0 <= size b / sizeof_T) by (apply Z.div_pos; lia).
  assert (size b < (index + 1) * sizeof_T).
  { pose proof (Z.mul_succ_div_gt (size b) sizeof_T sizeof_pos). nia. }
  rewrite (wrap_size_t_small (index * sizeof_T)) by nia.
  rewrite wrap_size_t_small by nia. apply Z.leb_gt. nia.
Qed.

End GuardedAccess.


(** C1, at an index whose byte offset does not fit [size_t]: for the
    handle of [allocate<float>(1000, "test_array")], index [2^62] is far
    past [size()], yet [index * sizeof(float)] wraps to 0, the bounds
    check passes and both [operator[]] and [safe_at] read outside the
    block instead of failing or returning nothing. *)
Theorem guarded_index_wraps (T : Type) (x : T) (now : Z) :
  let heap : gmap Z (list T) := {[ 4096 := replicate 1000 x ]} in
  exists h mm,
    allocate 4 empty_manager 1000 "test_array" now (fun _ _ => Some 4096)
    = Returns (h, mm) /\
    size_in_elements 4 h = 1000 /\
    size_in_elements 4 h <= 2 ^ 62 <= SIZE_MAX /\
    operator_index 4 heap h (2 ^ 62) = Undefined /\
    safe_at 4 heap h (2 ^ 62) = Undefined.
Proof.
  intros heap. eexists. eexists. split; [reflexivity|].
  split; [by vm_compute|]. split; [by vm_compute|].
  unfold operator_index, safe_at.
  match goal with |- context [access_allowed 4 ?h (2 ^ 62)] =>
    replace (access_allowed 4 h (2 ^ 62)) with true by (by vm_compute) end.
  cbn [negb]. unfold raw_index. cbn [ptr]. unfold heap.
  rewrite lookup_singleton_eq.
  rewrite (lookup_ge_None_2 (replicate 1000 x) (Z.to_nat (2 ^ 62)))
    by (rewrite length_replicate; lia).
  done.
Qed.

(** *** Registration and release *)

Lemma allocate_returns_inv sizeof_T mm count ctx now aligned_alloc h mm' :
  allocate sizeof_T mm count ctx now aligned_alloc = Returns (h, mm') ->
  exists p,
    aligned_alloc ALIGNMENT (wrap_size_t (count * sizeof_T)) = Some p /\
    wrap_size_t (count * sizeof_T) <= MAX_ALLOCATION /\
    h = mkPtr p (Some (mkBlock p (wrap_size_t (count * sizeof_T)) ALIGNMENT now ctx 1 true)) /\
    mm' = mkManager (<[p := mkBlock p (wrap_size_t (count * sizeof_T)) ALIGNMENT now ctx 1 true]>
                       (protected_blocks mm)).
Proof.
  unfold allocate. intros Hret.
  destruct (MAX_ALLOCATION <? wrap_size_t (count * sizeof_T)) eqn:Hmax; [done|].
  apply Z.ltb_ge in Hmax.
  destruct (aligned_alloc ALIGNMENT (wrap_size_t (count * sizeof_T))) as [p|]; [|done].
  injection Hret as <- <-. by exists p.
Qed.

(** X3.  A successful [allocate] registers the block under the returned
    address: [get_block_info] of that address gives the block the handle
    refers to, with the requested context, the allocation time, a size
    of at most 1 GiB and a reference count of one, and the information
    about every other address is as before. *)
Theorem allocate_registers_block sizeof_T mm count ctx now aligned_alloc h mm' :
  allocate sizeof_T mm count ctx now aligned_alloc = Returns (h, mm') ->
  exists block,
    block_info h = Some block /\
    get_block_info mm' (ptr h) = Some block /\
    data block = ptr h /\
    0 <= size block <= MAX_ALLOCATION /\
    allocation_context block = ctx /\
    allocated_time block = now /\
    ref_count block = 1 /\
    forall q, q <> ptr h -> get_block_info mm' q = get_block_info mm q.
Proof.
  intros (p & _ & Hmax & -> & ->)%allocate_returns_inv.
  eexists. split; [reflexivity|]. unfold get_block_info. cbn.
  rewrite lookup_insert_eq. repeat split; try done.
  - apply wrap_size_t_range.
  - intros q Hq. by rewrite lookup_insert_ne.
Qed.

Lemma allocate_registers_block_witness :
  exists block,
    get_block_info
      (mkManager (<[4096 := mkBlock 4096 4000 16 7 "test_array" 1 true]> ∅)) 4096
    = Some block /\ size block = 4000 /\ allocation_context block = "test_array".
Proof.
  destruct (allocate_registers_block 4 empty_manager 1000 "test_array" 7
              (fun _ _ => Some 4096) _ _ eq_refl)
    as (block & Hh & Hinfo & _).
  exists block. split; [exact Hinfo|].
  injection Hh as <-. by split.
Defined.

Lemma registered_bytes_delete mm p block :
  protected_blocks mm !! p = Some block ->
  registered_bytes (mkManager (delete p (protected_blocks mm)))
  = registered_bytes mm - size block.
Proof.
  intros Hp. rewrite !registered_bytes_sum. cbn [protected_blocks].
  rewrite <- (sum_with_perm _ _ _ (map_to_list_delete _ _ _ Hp)).
  rewrite sum_with_cons. unfold block_bytes at 2. simpl. lia.
Qed.

(** X4.  [deallocate] of a registered address removes exactly that
    entry: its block information is gone, the information about every
    other address is as before, the number of registered blocks drops by
    one and the registered bytes drop by the size of the block; a second
    [deallocate] of the same address changes nothing. *)
Theorem deallocate_removes_block mm p block :
  get_block_info mm p = Some block ->
  get_block_info (deallocate mm p) p = None /\
  (forall q, q <> p -> get_block_info (deallocate mm p) q = get_block_info mm q) /\
  S (base.size (protected_blocks (deallocate mm p))) = base.size (protected_blocks mm) /\
  registered_bytes (deallocate mm p) = registered_bytes mm - size block /\
  deallocate (deallocate mm p) p = deallocate mm p.
Proof.
  unfold get_block_info. intros Hp.
  assert (deallocate mm p = mkManager (delete p (protected_blocks mm))) as ->
    by (unfold deallocate; by rewrite Hp).
  cbn [protected_blocks]. split; [apply lookup_delete_eq|].
  split; [intros q Hq; by rewrite lookup_delete_ne|].
  split.
  { rewrite map_size_delete, Hp.
    assert (base.size (protected_blocks mm) <> 0)%nat
      by (apply map_size_ne_0_lookup_2 with p; by rewrite Hp).
    simpl. lia. }
  split; [by apply registered_bytes_delete|].
  unfold deallocate. cbn [protected_blocks]. by rewrite lookup_delete_eq.
Qed.

Lemma deallocate_removes_block_witness :
  let mm := mkManager (<[4096 := mkBlock 4096 4000 16 7 "test_array" 1 true]> ∅) in
  get_block_info (deallocate mm 4096) 4096 = None /\
  registered_bytes (deallocate mm 4096) = registered_bytes mm - 4000.
Proof.
  intros mm.
  destruct (deallocate_removes_block mm 4096
              (mkBlock 4096 4000 16 7 "test_array" 1 true) eq_refl)
    as (Hgone & _ & _ & Hbytes & _).
  split; [exact Hgone | exact Hbytes].
Defined.

(** X5.  Releasing the address a successful [allocate] has just
    returned gives back the registry as it was before the allocation,
    provided the address was not registered before (as it is not for a
    live allocator answer). *)
Theorem allocate_then_deallocate sizeof_T mm count ctx now aligned_alloc h mm' :
  allocate sizeof_T mm count ctx now aligned_alloc = Returns (h, mm') ->
  get_block_info mm (ptr h) = None ->
  deallocate mm' (ptr h) = mm.
Proof.
  intros (p & _ & _ & -> & ->)%allocate_returns_inv Hfresh.
  unfold get_block_info in Hfresh. cbn [ptr] in *.
  unfold deallocate. cbn [protected_blocks]. rewrite lookup_insert_eq.
  rewrite delete_insert_eq, delete_id by done. by destruct mm.
Qed.

Lemma allocate_then_deallocate_witness :
  deallocate (mkManager (<[4096 := mkBlock 4096 4000 16 7 "test_array" 1 true]> ∅)) 4096
  = empty_manager.
Proof.
  exact (allocate_then_deallocate 4 empty_manager 1000 "test_array" 7
           (fun _ _ => Some 4096) _ _ eq_refl eq_refl).
Defined.

(** *** Largest block and oldest allocation *)

Lemma stats_fold_extremes now init l :
  (forall kb, kb ∈ l ->
     size kb.2 <= largest_block (foldr (uncurry (stats_step now)) init l) /\
     to_milliseconds (now - allocated_time kb.2)
     <= oldest_allocation (foldr (uncurry (stats_step now)) init l)) /\
  largest_block init <= largest_block (foldr (uncurry (stats_step now)) init l) /\
  oldest_allocation init <= oldest_allocation (foldr (uncurry (stats_step now)) init l) /\
  (largest_block (foldr (uncurry (stats_step now)) init l) = largest_block init \/
   exists kb, kb ∈ l /\
     size kb.2 = largest_block (foldr (uncurry (stats_step now)) init l)).
Proof.
  induction l as [|[a b] l (IHall & IHl & IHo & IHatt)].
  { cbn [foldr]. split; [intros kb Hkb; by apply elem_of_nil in Hkb|].
    split; [lia|]. split; [lia|]. by left. }
  change (foldr (uncurry (stats_step now)) init ((a, b) :: l))
    with (stats_step now a b (foldr (uncurry (stats_step now)) init l)).
  set (rest := foldr (uncurry (stats_step now)) init l) in *.
  unfold stats_step. cbn [largest_block oldest_allocation].
  split; [|split; [lia|split; [lia|]]].
  - intros kb [->|Hkb]%elem_of_cons; cbn [snd].
    + lia.
    + destruct (IHall kb Hkb). lia.
  - destruct (Z.max_spec (largest_block rest) (size b)) as [[Hlt ->]|[Hge ->]].
    + right. exists (a, b). split; [by left|done].
    + destruct IHatt as [->|(kb & Hkb & Heq)]; [by left|].
      right. exists kb. split; [by right|done].
Qed.

(** X6.  [get_stats().largest_block] is at least the size of every
    registered block and, when no size is negative, it is the size of
    one of them, or 0 for an empty registry; [oldest_allocation] is at
    least the age in milliseconds of every registered block and never
    negative. *)
Theorem stats_report_extremes (mm : AdvancedMemoryManager) (now : Z) :
  (forall p b, protected_blocks mm !! p = Some b -> 0 <= size b) ->
  (forall p b, protected_blocks mm !! p = Some b ->
     size b <= largest_block (get_stats mm now) /\
     to_milliseconds (now - allocated_time b) <= oldest_allocation (get_stats mm now)) /\
  0 <= oldest_allocation (get_stats mm now) /\
  (protected_blocks mm = ∅ -> largest_block (get_stats mm now) = 0) /\
  (protected_blocks mm <> ∅ ->
     exists p b, protected_blocks mm !! p = Some b /\
       size b = largest_block (get_stats mm now)).
Proof.
  intros Hpos. unfold get_stats. rewrite map_fold_foldr.
  match goal with |- context [foldr _ ?i ?l] =>
    destruct (stats_fold_extremes now i l) as (Hall & Hl & Ho & Hatt) end.
  cbn [largest_block oldest_allocation] in *.
  split; [|split; [done|split]].
  - intros p b Hp. apply (Hall (p, b)). by apply elem_of_map_to_list.
  - intros ->. by rewrite map_to_list_empty.
  - intros Hne. destruct Hatt as [Hzero|([p b] & Hkb & Heq)].
    + destruct (map_choose _ Hne) as (p & b & Hp).
      exists p, b. split; [done|]. rewrite Hzero.
      pose proof (Hpos p b Hp).
      destruct (Hall (p, b)) as [Hle _]; [by apply elem_of_map_to_list|].
      cbn [snd] in Hle. lia.
    + exists p, b. split; [by apply elem_of_map_to_list|done].
Qed.

Lemma stats_report_extremes_witness :
  let mm := mkManager (<[65536 := mkBlock 65536 128 16 1 "matrix" 1 true]>
                         (<[4096 := mkBlock 4096 4000 16 0 "test_array" 1 true]> ∅)) in
  exists p b, protected_blocks mm !! p = Some b /\
    size b = largest_block (get_stats mm 5).
Proof.
  intros mm.
  assert (forall p b, protected_blocks mm !! p = Some b -> 0 <= size b) as Hpos.
  { intros p b Hp. cbn [protected_blocks mm] in Hp.
    apply lookup_insert_Some in Hp as [[_ <-]|[_ Hp]]; [done|].
    apply lookup_insert_Some in Hp as [[_ <-]|[_ Hp]]; [done|].
    by rewrite lookup_empty in Hp. }
  apply (proj2 (proj2 (proj2 (stats_report_extremes mm 5 Hpos)))).
  intros Hempty.
  assert (protected_blocks mm !! 65536 = None) as Hnone by (by rewrite Hempty).
  by vm_compute in Hnone.
Defined.

(** *** The handle of a new allocation *)

(** X7.  When [count * sizeof(T)] is at most 1 GiB, the handle a
    successful [allocate<T>(count)] returns has [size() = count]; every
    index below [count] passes its bounds check, and every index from
    [count] on whose byte offset fits [size_t] fails it. *)
Theorem new_handle_has_count_elements sizeof_T mm count ctx now aligned_alloc h mm' :
  0 < sizeof_T ->
  0 <= count ->
  count * sizeof_T <= MAX_ALLOCATION ->
  allocate sizeof_T mm count ctx now aligned_alloc = Returns (h, mm') ->
  size_in_elements sizeof_T h = count /\
  (forall index, 0 <= index < count -> access_allowed sizeof_T h index = true) /\
  (forall index, count <= index -> index * sizeof_T + sizeof_T <= SIZE_MAX ->
     access_allowed sizeof_T h index = false).
Proof.
  intros Hs Hc Hmax (p & _ & _ & -> & _)%allocate_returns_inv.
  assert (wrap_size_t (count * sizeof_T) = count * sizeof_T) as Hw.
  { apply wrap_size_t_small. unfold MAX_ALLOCATION, SIZE_MAX in *. nia. }
  rewrite Hw.
  assert (size_in_elements sizeof_T
            (mkPtr p (Some (mkBlock p (count * sizeof_T) ALIGNMENT now ctx 1 true)))
          = count) as Hsize.
  { unfold size_in_elements. cbn. apply Z.div_mul. lia. }
  split; [exact Hsize|]. split.
  - intros index Hi. eapply access_allowed_in_range; [done|reflexivity| |].
    + cbn. unfold MAX_ALLOCATION, SIZE_MAX in *. nia.
    + rewrite Hsize. lia.
  - intros index Hi Hfit. eapply access_allowed_past_end; [done|reflexivity| | |done].
    + cbn. nia.
    + rewrite Hsize. lia.
Qed.

Lemma new_handle_has_count_elements_witness :
  size_in_elements 4
    (mkPtr 4096 (Some (mkBlock 4096 4000 16 7 "test_array" 1 true))) = 1000.
Proof.
  exact (proj1 (new_handle_has_count_elements 4 empty_manager 1000 "test_array" 7
                  (fun _ _ => Some 4096) _ _ ltac:(lia) ltac:(lia)
                  ltac:(by vm_compute) eq_refl)).
Defined.

End MemoryFacts.

(** ** The worker pool *)

Module ThreadingFacts.
Import Threading.

Lemma wrap_int_small z : - 2 ^ 31 <= z <= INT_MAX -> wrap_int z = z.
Proof.
  unfold wrap_int, INT_MAX. intros Hz.
  rewrite Z.mod_small by lia. lia.
Qed.

Lemma Qle_bool_true_iff x y : Qle_bool x y = true <-> (x <= y)%Q.
Proof. apply Qle_bool_iff. Qed.

Lemma Qlt_bool_false x y : (y <= x)%Q -> Qlt_bool x y = false.
Proof.
  intros Hle. unfold Qlt_bool. apply negb_false_iff. by apply Qle_bool_iff.
Qed.

(** [needs_mandatory_break] decides the three conditions of the
    wellness policy. *)
Lemma needs_mandatory_break_iff m now :
  needs_mandatory_break m now = true <->
  (MAX_CONSECUTIVE_TASKS <= consecutive_tasks m
   \/ MAX_WORK_DURATION <= now - last_break m
   \/ (MAX_STRESS_LEVEL <= stress_level m)%Q).
Proof.
  unfold needs_mandatory_break.
  rewrite !orb_true_iff, !Z.leb_le, Qle_bool_true_iff. tauto.
Qed.

Lemma try_assign_refused w t now :
  needs_mandatory_break (wellness w) now = true ->
  try_assign_task w t now = (false, w).
Proof. intros H. unfold try_assign_task. by rewrite H. Qed.

Lemma try_assign_accepted w t now :
  needs_mandatory_break (wellness w) now = false ->
  try_assign_task w t now = (true, enqueue w t).
Proof. intros H. unfold try_assign_task. by rewrite H. Qed.

(** Between two rests the counter of consecutive tasks counts the
    completed tasks; assignments and break requests leave it alone. *)
Lemma consecutive_after fl acts : forall w,
  0 <= consecutive_tasks (wellness w) ->
  consecutive_tasks (wellness w) + completions acts <= INT_MAX ->
  consecutive_tasks (wellness (fold_left (act fl) acts w))
  = consecutive_tasks (wellness w) + completions acts.
Proof.
  unfold completions.
  induction acts as [|a acts IH]; intros w Hpos Hmax; simpl in *; [lia|].
  destruct a as [now|t now|]; simpl in *.
  - rewrite IH; simpl.
    + rewrite wrap_int_small by (unfold INT_MAX in *; lia). lia.
    + rewrite wrap_int_small by (unfold INT_MAX in *; lia). lia.
    + rewrite wrap_int_small by (unfold INT_MAX in *; lia). lia.
  - unfold try_assign_task.
    destruct (needs_mandatory_break (wellness w) now); simpl; by rewrite IH.
  - by rewrite IH.
Qed.

(** C6.  [try_assign_task] returns false and leaves the worker as it
    was exactly when the worker needs a mandatory break, that is when it
    has 50 or more consecutive completed tasks, or two hours or more
    have passed since its last rest, or its stress is at least [0.8f];
    in every other case it appends the task to the queue and returns
    true.  In particular a worker that has completed 50 tasks (or more)
    since its last rest, whatever was assigned or requested in between,
    refuses every assignment at every time. *)
Theorem try_assign_respects_breaks (fl : Q -> Q) (w : CooperativeWorker)
    (t : Task) (now : Z) :
  let m := wellness w in
  let break_needed :=
    50 <= consecutive_tasks m \/ hours 2 <= now - last_break m
    \/ (MAX_STRESS_LEVEL <= stress_level m)%Q in
  (break_needed <-> try_assign_task w t now = (false, w)) /\
  (~ break_needed <->
     try_assign_task w t now
     = (true, mkWorker (task_queue w ++ [t]) (should_stop w) (wellness w) (worker_id w))) /\
  (forall w0 acts,
     consecutive_tasks (wellness w0) = 0 ->
     50 <= completions acts <= INT_MAX ->
     w = fold_left (act fl) acts w0 ->
     try_assign_task w t now = (false, w)).
Proof.
  intros m break_needed.
  assert (needs_mandatory_break m now = true <-> break_needed) as Hiff
    by apply needs_mandatory_break_iff.
  split; [|split].
  - split.
    + intros Hb. apply try_assign_refused. by apply Hiff.
    + intros Heq. apply Hiff. unfold try_assign_task in Heq. fold m in Heq.
      by destruct (needs_mandatory_break m now).
  - split.
    + intros Hb. apply try_assign_accepted. fold m.
      destruct (needs_mandatory_break m now); [|done]. destruct Hb. by apply Hiff.
    + intros Heq Hb. apply Hiff in Hb.
      rewrite (try_assign_refused w t now Hb) in Heq. discriminate.
  - intros w0 acts Hzero Hn ->. apply try_assign_refused.
    apply needs_mandatory_break_iff. left.
    rewrite (consecutive_after fl acts w0) by lia.
    unfold MAX_CONSECUTIVE_TASKS. lia.
Qed.

Lemma try_assign_respects_breaks_witness :
  let w := fold_left (act (fun q => q)) fifty_tasks rested_worker in
  consecutive_tasks (wellness rested_worker) = 0 /\
  50 <= completions fifty_tasks <= INT_MAX /\
  try_assign_task w (Packaged 7) (seconds 100) = (false, w).
Proof.
  split; [reflexivity|]. split; [by vm_compute|].
  apply (proj2 (proj2 (try_assign_respects_breaks (fun q => q)
           (fold_left (act (fun q => q)) fifty_tasks rested_worker)
           (Packaged 7) (seconds 100))) rested_worker fifty_tasks).
  - reflexivity.
  - by vm_compute.
  - reflexivity.
Defined.

(** *** Submission *)

(** When no worker is below the pool threshold the scan keeps what it
    started with. *)
Lemma scan_finds_nobody ws : forall i best lowest,
  (forall w, w ∈ ws -> (STRESS_THRESHOLD <= get_stress_level w)%Q) ->
  lowest_stress_scan ws i best lowest = best.
Proof.
  induction ws as [|w ws IH]; intros i best lowest Hall; simpl; [done|].
  rewrite (Qlt_bool_false (get_stress_level w) STRESS_THRESHOLD)
    by (apply Hall; left).
  rewrite andb_false_r. apply IH. intros w' Hw'. apply Hall. by right.
Qed.

Lemma round_robin_in_range (counter : Z) (ws : list CooperativeWorker) :
  ws <> [] ->
  (Z.to_nat (counter mod Z.of_nat (length ws)) < length ws)%nat.
Proof.
  intros Hne. destruct ws as [|w ws]; [done|].
  pose proof (Z.mod_pos_bound counter (Z.of_nat (length (w :: ws)))) as Hb.
  simpl length in *. lia.
Qed.

Lemma find_optimal_worker_fallback p :
  (forall w, w ∈ workers p -> (STRESS_THRESHOLD <= get_stress_level w)%Q) ->
  find_optimal_worker p =
    match workers p with
    | [] => (None, p)
    | _ :: _ =>
        (Some (Z.to_nat (round_robin_counter p mod Z.of_nat (length (workers p)))),
         mkPool (workers p) (wrap_size_t (round_robin_counter p + 1)))
    end.
Proof.
  intros Hall. unfold find_optimal_worker. by rewrite scan_finds_nobody.
Qed.

(** C3, as the pool implements it.  When every worker's stress is at
    or above the pool threshold [0.6f] (as every [float] above 0.6 is),
    [submit_with_care] falls back to the next worker in round-robin
    order.  It throws the Runtime error "All
    workers are overwhelmed and need rest" only when the pool has no
    worker.  Otherwise, if the chosen worker needs a mandatory break the
    call throws the Runtime error "Could not assign task - worker needs
    wellness break" and no queue changes; if it does not, the task is
    appended to that worker's queue and the call returns.  In
    particular, when every worker's stress is at least [0.8f] the call
    fails with a Runtime error and enqueues nothing. *)
Theorem submit_falls_back_to_round_robin (p : CooperativeThreadPool) (t : Task)
    (now : Z) :
  (forall w, w ∈ workers p -> (STRESS_THRESHOLD <= get_stress_level w)%Q) ->
  (workers p = [] -> submit_with_care p t now = (p, Throws all_overwhelmed)) /\
  (workers p <> [] ->
     let i := Z.to_nat (round_robin_counter p mod Z.of_nat (length (workers p))) in
     let advanced ws := mkPool ws (wrap_size_t (round_robin_counter p + 1)) in
     exists w, workers p !! i = Some w /\
       submit_with_care p t now =
         if needs_mandatory_break (wellness w) now
         then (advanced (workers p), Throws needs_wellness_break)
         else (advanced (<[i := enqueue w t]> (workers p)), Returns t)) /\
  ((forall w, w ∈ workers p -> (MAX_STRESS_LEVEL <= get_stress_level w)%Q) ->
     exists p' e, submit_with_care p t now = (p', Throws e) /\
       error_type e = RuntimeError /\ workers p' = workers p).
Proof.
  intros Hall.
  pose proof (find_optimal_worker_fallback p Hall) as Hfind.
  assert (workers p <> [] ->
     exists w, workers p !! Z.to_nat (round_robin_counter p mod Z.of_nat (length (workers p))) = Some w /\
       submit_with_care p t now =
         if needs_mandatory_break (wellness w) now
         then (mkPool (workers p) (wrap_size_t (round_robin_counter p + 1)),
               Throws needs_wellness_break)
         else (mkPool (<[Z.to_nat (round_robin_counter p mod Z.of_nat (length (workers p)))
                         := enqueue w t]> (workers p))
                 (wrap_size_t (round_robin_counter p + 1)), Returns t)) as Hstep.
  { intros Hne.
    destruct (lookup_lt_is_Some_2 _ _ (round_robin_in_range (round_robin_counter p) _ Hne))
      as [w Hw].
    exists w. split; [done|].
    unfold submit_with_care. rewrite Hfind.
    destruct (workers p) as [|w1 ws] eqn:Hws; [done|].
    cbn [workers round_robin_counter]. rewrite Hw. unfold try_assign_task.
    by destruct (needs_mandatory_break (wellness w) now). }
  split; [|split].
  - intros Hnil. unfold submit_with_care. rewrite Hfind. by rewrite Hnil.
  - exact Hstep.
  - intros Hbreak. destruct (workers p) as [|w1 ws] eqn:Hws.
    + exists p, all_overwhelmed. unfold submit_with_care. rewrite Hfind.
      by rewrite Hws.
    + destruct Hstep as (w & Hw & Hsub); [done|].
      assert (needs_mandatory_break (wellness w) now = true) as Hneeds.
      { apply needs_mandatory_break_iff. right. right.
        apply Hbreak. by apply list_elem_of_lookup_2 in Hw. }
      rewrite Hneeds in Hsub.
      by exists (mkPool (w1 :: ws) (wrap_size_t (round_robin_counter p + 1))),
        needs_wellness_break.
Qed.

Lemma busy_pool_above_threshold w :
  w ∈ workers busy_pool -> (STRESS_THRESHOLD < get_stress_level w)%Q.
Proof. intros ->%list_elem_of_singleton. by vm_compute. Qed.

Lemma submit_falls_back_to_round_robin_witness :
  submit_with_care busy_pool (Packaged 1) (seconds 30)
  = ({| workers := [enqueue busy_worker (Packaged 1)]; round_robin_counter := 1 |},
     Returns (Packaged 1)).
Proof.
  destruct (proj1 (proj2 (submit_falls_back_to_round_robin busy_pool (Packaged 1)
              (seconds 30)
              (fun w Hw => Qlt_le_weak _ _ (busy_pool_above_threshold w Hw))))
            ltac:(done))
    as (w & Hw & Hsub).
  injection Hw as <-. exact Hsub.
Defined.

(** C3 as first stated fails: every worker of this one-worker pool has
    stress above [0.6f], and yet the submission returns with the task on
    the worker's queue. *)
Lemma submit_enqueues_above_threshold :
  (forall w, w ∈ workers busy_pool -> (STRESS_THRESHOLD < get_stress_level w)%Q) /\
  exists p',
    submit_with_care busy_pool (Packaged 1) (seconds 30) = (p', Returns (Packaged 1)) /\
    task_queue <$> workers p' = [[Packaged 1]].
Proof.
  split; [exact busy_pool_above_threshold|].
  eexists. split; reflexivity.
Qed.

(** *** The stress level *)

Lemma Qlt_bool_true_iff x y : Qlt_bool x y = true <-> (x < y)%Q.
Proof.
  unfold Qlt_bool. rewrite negb_true_iff. split.
  - intros H. apply Qnot_le_lt. intros Hle%Qle_bool_iff. congruence.
  - intros H. destruct (Qle_bool y x) eqn:E; [|done].
    apply Qle_bool_iff in E. by apply Qlt_not_le in H.
Qed.

Lemma Qlt_bool_false_iff x y : Qlt_bool x y = false <-> (y <= x)%Q.
Proof.
  unfold Qlt_bool. rewrite negb_false_iff. apply Qle_bool_iff.
Qed.

Lemma float_min_one x : (0 <= x)%Q -> (0 <= float_min 1 x <= 1)%Q.
Proof.
  intros Hx. unfold float_min. destruct (Qlt_bool x 1) eqn:E.
  - apply Qlt_bool_true_iff in E. lra.
  - lra.
Qed.

Lemma float_max_zero x : (x <= 1)%Q -> (0 <= float_max 0 x <= 1)%Q.
Proof.
  intros Hx. unfold float_max. destruct (Qlt_bool 0 x) eqn:E.
  - apply Qlt_bool_true_iff in E. lra.
  - lra.
Qed.

Lemma record_keeps_stress fl m now :
  rounds_to_float fl ->
  (0 <= stress_level m <= 1)%Q ->
  (0 <= stress_level (record_task_completion fl m now) <= 1)%Q.
Proof.
  intros (Hmono & H0 & _ & H1) Hm. unfold record_task_completion. cbn [stress_level].
  destruct (now - last_break m <? minutes 1).
  - apply float_min_one. apply Qle_trans with (fl 0%Q); [done|]. apply Hmono. lra.
  - apply float_max_zero. apply Qle_trans with (fl 1%Q); [|done]. apply Hmono. lra.
Qed.

Lemma break_halves_stress fl m now :
  rounds_to_float fl ->
  (0 <= stress_level m <= 1)%Q ->
  (0 <= stress_level (take_wellness_break fl m now) <= 1 # 2)%Q.
Proof.
  intros (Hmono & H0 & Hhalf & _) Hm. unfold take_wellness_break. cbn [stress_level].
  split.
  - apply Qle_trans with (fl 0%Q); [done|]. apply Hmono. lra.
  - apply Qle_trans with (fl (1 # 2)); [|done]. apply Hmono. lra.
Qed.

Lemma work_iteration_keeps_stress fl w c w' :
  rounds_to_float fl ->
  (0 <= get_stress_level w <= 1)%Q ->
  work_iteration fl w c = Some w' ->
  (0 <= get_stress_level w' <= 1)%Q.
Proof.
  intros Hfl Hw. unfold work_iteration, get_stress_level in *.
  destruct (should_stop w); [by intros [= <-]|].
  destruct (task_queue w) as [|task rest]; [by intros [= <-]|].
  assert (forall m now, (0 <= stress_level m <= 1)%Q ->
            (0 <= stress_level (take_wellness_break fl m now) <= 1)%Q) as Hbreak.
  { intros m now Hm. pose proof (break_halves_stress fl m now Hfl Hm). lra. }
  assert (0 <= stress_level
                 (if needs_mandatory_break (wellness w) (checked_at c)
                  then take_wellness_break fl (wellness w) (rested_at c)
                  else wellness w) <= 1)%Q as Hchecked.
  { destruct (needs_mandatory_break (wellness w) (checked_at c)); [by apply Hbreak|done]. }
  destruct task as [id| |id [| |]]; cbn [ending_of]; intros [= <-]; cbn [wellness];
    try apply record_keeps_stress; try done.
  by apply Hbreak.
Qed.

(** X8.  With [float] rounding that is monotone and exact on 0, 1/2 and
    1, the stress level never leaves [[0, 1]]: it is 0 for a new worker,
    and recording a completed task, taking a wellness break (which
    brings it to 1/2 or below) and a whole turn of the worker loop,
    whether its task returns or throws a [std::exception], keep it
    between 0 and 1. *)
Theorem stress_stays_in_unit_interval (fl : Q -> Q) (w : CooperativeWorker)
    (now : Z) (c : Clock) :
  rounds_to_float fl ->
  (0 <= get_stress_level w <= 1)%Q ->
  (stress_level (new_metrics now) == 0)%Q /\
  (0 <= stress_level (record_task_completion fl (wellness w) now) <= 1)%Q /\
  (0 <= stress_level (take_wellness_break fl (wellness w) now) <= 1 # 2)%Q /\
  (forall w', work_iteration fl w c = Some w' ->
     0 <= get_stress_level w' <= 1)%Q /\
  (forall acts, 0 <= get_stress_level (fold_left (act fl) acts w) <= 1)%Q.
Proof.
  intros Hfl Hw. split; [reflexivity|].
  split; [by apply record_keeps_stress|].
  split; [by apply break_halves_stress|].
  split; [intros w'; by apply work_iteration_keeps_stress|].
  intros acts. revert w Hw. induction acts as [|a acts IH]; intros w Hw; [done|].
  cbn [fold_left]. apply IH. destruct a as [t|t t'|]; cbn.
  - by apply record_keeps_stress.
  - unfold try_assign_task. by destruct (needs_mandatory_break (wellness w) t').
  - done.
Qed.

Lemma identity_rounds_to_float : rounds_to_float (fun q => q).
Proof. repeat split; intros; lra. Qed.

Lemma stress_stays_in_unit_interval_witness :
  exists w',
    work_iteration (fun q => q) calm_worker
      (mkClock (seconds 10) (seconds 10) (seconds 10) (seconds 11)) = Some w' /\
    (0 <= get_stress_level w' <= 1)%Q.
Proof.
  assert (0 <= get_stress_level calm_worker <= 1)%Q as Hw by (by vm_compute).
  eexists. split; [reflexivity|].
  exact (proj1 (proj2 (proj2 (proj2
           (stress_stays_in_unit_interval (fun q => q) calm_worker 0
              (mkClock (seconds 10) (seconds 10) (seconds 10) (seconds 11))
              identity_rounds_to_float Hw)))) _ eq_refl).
Defined.

(** X9.  A wellness break makes the worker assignable again: after
    [take_wellness_break] on a worker whose stress is within [[0, 1]],
    every [try_assign_task] during the next two hours, as long as fewer
    than 50 further tasks were completed, is accepted. *)
Theorem break_makes_worker_assignable (fl : Q -> Q) (w : CooperativeWorker)
    (rested later : Z) (t : Task) :
  rounds_to_float fl ->
  (0 <= get_stress_level w <= 1)%Q ->
  rested <= later < rested + hours 2 ->
  let rested_worker :=
    mkWorker (task_queue w) (should_stop w)
      (take_wellness_break fl (wellness w) rested) (worker_id w) in
  needs_mandatory_break (wellness rested_worker) later = false /\
  try_assign_task rested_worker t later = (true, enqueue rested_worker t).
Proof.
  intros Hfl Hw Hlater rw.
  assert (needs_mandatory_break (wellness rw) later = false) as Hno.
  { destruct (needs_mandatory_break (wellness rw) later) eqn:E; [|done].
    apply needs_mandatory_break_iff in E. unfold rw in E. cbn in E.
    pose proof (break_halves_stress fl (wellness w) rested Hfl Hw) as Hhalf.
    cbn in Hhalf. unfold MAX_CONSECUTIVE_TASKS, MAX_WORK_DURATION, MAX_STRESS_LEVEL in E.
    destruct E as [E|[E|E]]; [lia|lia|].
    assert (1 # 2 < 13421773 # 16777216)%Q by (by vm_compute). lra. }
  split; [done|]. by apply try_assign_accepted.
Qed.

Lemma break_makes_worker_assignable_witness :
  try_assign_task
    (mkWorker [] false (take_wellness_break (fun q => q) (wellness busy_worker) (minutes 15)) 0)
    (Packaged 9) (minutes 20)
  = (true,
     mkWorker [Packaged 9] false
       (take_wellness_break (fun q => q) (wellness busy_worker) (minutes 15)) 0).
Proof.
  exact (proj2 (break_makes_worker_assignable (fun q => q) busy_worker (minutes 15)
                  (minutes 20) (Packaged 9) identity_rounds_to_float
                  ltac:(by vm_compute) ltac:(by vm_compute))).
Defined.

(** *** The choice of a worker *)

(** The scan either keeps the worker it started with, when no worker of
    the list is below both the lowest stress so far and the threshold,
    or settles on a worker of the list that is below both and at most as
    stressed as every worker of the list. *)
Lemma lowest_stress_scan_spec ws : forall i best lowest,
  (lowest_stress_scan ws i best lowest = best /\
   forall w, w ∈ ws ->
     (lowest <= get_stress_level w)%Q \/ (STRESS_THRESHOLD <= get_stress_level w)%Q)
  \/ exists k w,
       lowest_stress_scan ws i best lowest = Some (i + k)%nat /\
       ws !! k = Some w /\
       (get_stress_level w < lowest)%Q /\
       (get_stress_level w < STRESS_THRESHOLD)%Q /\
       forall w', w' ∈ ws -> (get_stress_level w <= get_stress_level w')%Q.
Proof.
  induction ws as [|w ws IH]; intros i best lowest; cbn [lowest_stress_scan].
  { left. split; [done|]. intros w Hw. by apply elem_of_nil in Hw. }
  destruct (Qlt_bool (get_stress_level w) lowest) eqn:Hlow;
    destruct (Qlt_bool (get_stress_level w) STRESS_THRESHOLD) eqn:Hthr; cbn [andb].
  - apply Qlt_bool_true_iff in Hlow. apply Qlt_bool_true_iff in Hthr.
    destruct (IH (S i) (Some i) (get_stress_level w)) as [[-> Hnone]|(k & w2 & -> & Hk & Hlt & Hthr2 & Hmin)].
    + right. exists 0%nat, w. rewrite Nat.add_0_r. repeat split; try done.
      intros w' [->|Hw']%elem_of_cons; [lra|]. destruct (Hnone w' Hw'); lra.
    + right. exists (S k), w2. replace (i + S k)%nat with (S i + k)%nat by lia.
      repeat split; try done; [lra|].
      intros w' [->|Hw']%elem_of_cons; [lra|]. by apply Hmin.
  - apply Qlt_bool_false_iff in Hthr.
    destruct (IH (S i) best lowest) as [[-> Hnone]|(k & w2 & -> & Hk & Hlt & Hthr2 & Hmin)].
    + left. split; [done|]. intros w' [->|Hw']%elem_of_cons; [by right|by apply Hnone].
    + right. exists (S k), w2. replace (i + S k)%nat with (S i + k)%nat by lia.
      repeat split; try done.
      intros w' [->|Hw']%elem_of_cons; [lra|]. by apply Hmin.
  - apply Qlt_bool_false_iff in Hlow.
    destruct (IH (S i) best lowest) as [[-> Hnone]|(k & w2 & -> & Hk & Hlt & Hthr2 & Hmin)].
    + left. split; [done|]. intros w' [->|Hw']%elem_of_cons; [by left|by apply Hnone].
    + right. exists (S k), w2. replace (i + S k)%nat with (S i + k)%nat by lia.
      repeat split; try done.
      intros w' [->|Hw']%elem_of_cons; [lra|]. by apply Hmin.
  - apply Qlt_bool_false_iff in Hlow.
    destruct (IH (S i) best lowest) as [[-> Hnone]|(k & w2 & -> & Hk & Hlt & Hthr2 & Hmin)].
    + left. split; [done|]. intros w' [->|Hw']%elem_of_cons; [by left|by apply Hnone].
    + right. exists (S k), w2. replace (i + S k)%nat with (S i + k)%nat by lia.
      repeat split; try done.
      intros w' [->|Hw']%elem_of_cons; [lra|]. by apply Hmin.
Qed.

Lemma threshold_below_one : (STRESS_THRESHOLD < 1)%Q.
Proof. by vm_compute. Qed.

(** X10.  When some worker's stress is below the pool threshold [0.6f],
    [find_optimal_worker] returns a worker of the pool whose stress is
    below the threshold and no higher than that of any other worker, and
    it leaves the round-robin counter alone. *)
Theorem find_optimal_worker_least_stressed (p : CooperativeThreadPool)
    (calm : CooperativeWorker) :
  calm ∈ workers p ->
  (get_stress_level calm < STRESS_THRESHOLD)%Q ->
  exists i w,
    find_optimal_worker p = (Some i, p) /\
    workers p !! i = Some w /\
    (get_stress_level w < STRESS_THRESHOLD)%Q /\
    forall w', w' ∈ workers p -> (get_stress_level w <= get_stress_level w')%Q.
Proof.
  intros Hin Hcalm. unfold find_optimal_worker.
  pose proof threshold_below_one as Hone.
  destruct (lowest_stress_scan_spec (workers p) 0 None 1)
    as [[_ Hnone]|(k & w & -> & Hk & _ & Hthr & Hmin)].
  - destruct (Hnone calm Hin); lra.
  - exists k, w. by rewrite Nat.add_0_l.
Qed.

Lemma find_optimal_worker_least_stressed_witness :
  exists i w,
    find_optimal_worker mixed_pool = (Some i, mixed_pool) /\
    workers mixed_pool !! i = Some w /\
    (get_stress_level w < STRESS_THRESHOLD)%Q /\
    forall w', w' ∈ workers mixed_pool -> (get_stress_level w <= get_stress_level w')%Q.
Proof.
  apply (find_optimal_worker_least_stressed mixed_pool calm_worker).
  - right. left.
  - by vm_compute.
Defined.

(** [find_optimal_worker] keeps the workers and hands out an index
    inside the pool. *)
Lemma find_optimal_worker_in_range p i p1 :
  find_optimal_worker p = (Some i, p1) ->
  workers p1 = workers p /\ (i < length (workers p))%nat.
Proof.
  unfold find_optimal_worker.
  destruct (lowest_stress_scan_spec (workers p) 0 None 1)
    as [[-> _]|(k & w & -> & Hk & _)].
  - destruct (workers p) as [|w ws] eqn:Hws; [done|].
    intros [= <- <-]. split; [done|].
    by apply (round_robin_in_range _ (w :: ws)).
  - intros [= <- <-]. split; [done|]. cbn [Nat.add].
    by apply lookup_lt_Some in Hk.
Qed.

Lemma find_optimal_worker_none p p1 :
  find_optimal_worker p = (None, p1) -> p1 = p.
Proof.
  unfold find_optimal_worker.
  destruct (lowest_stress_scan (workers p) 0 None 1); [done|].
  destruct (workers p); [|done]. by intros [= <-].
Qed.

(** X11.  Whatever the pool, [submit_with_care] either returns, and
    then it has appended the task to the queue of exactly one worker,
    one that did not need a mandatory break, and left every other worker
    as it was; or it throws a Runtime error and leaves every worker as
    it was.  It never indexes outside the pool. *)
Theorem submit_changes_one_queue (p : CooperativeThreadPool) (t : Task) (now : Z) :
  match submit_with_care p t now with
  | (p', Returns t') =>
      t' = t /\
      exists i w,
        workers p !! i = Some w /\
        needs_mandatory_break (wellness w) now = false /\
        workers p' = <[i := enqueue w t]> (workers p)
  | (p', Throws e) => error_type e = RuntimeError /\ workers p' = workers p
  | (_, Undefined) => False
  end.
Proof.
  unfold submit_with_care.
  destruct (find_optimal_worker p) as [[i|] p1] eqn:Hfind.
  - destruct (find_optimal_worker_in_range p i p1 Hfind) as [Hws Hi].
    rewrite Hws. destruct (lookup_lt_is_Some_2 _ _ Hi) as [w Hw]. rewrite Hw.
    unfold try_assign_task.
    destruct (needs_mandatory_break (wellness w) now) eqn:Hneeds.
    + by split.
    + split; [done|]. by exists i, w.
  - apply find_optimal_worker_none in Hfind as ->. by split.
Qed.

(** *** The worker loop *)

Lemma work_iteration_runs_front fl w c task rest :
  should_stop w = false ->
  task_queue w = task :: rest ->
  ending_of task <> ThrowsOther ->
  exists w',
    work_iteration fl w c = Some w' /\
    task_queue w' = rest /\
    should_stop w' = false /\
    worker_id w' = worker_id w.
Proof.
  intros Hrun Hq Hends. unfold work_iteration. rewrite Hrun, Hq.
  destruct (ending_of task); [| |done]; by eexists.
Qed.




(** The loop works its queue off from the front, as long as no task
    ends the program. *)
Lemma work_loop_drops_front fl clocks : forall w,
  should_stop w = false ->
  (length clocks <= length (task_queue w))%nat ->
  Forall (fun t => ending_of t <> ThrowsOther) (take (length clocks) (task_queue w)) ->
  exists w',
    work_loop fl w clocks = Some w' /\
    task_queue w' = drop (length clocks) (task_queue w) /\
    should_stop w' = false.
Proof.
  induction clocks as [|c clocks IH]; intros w Hrun Hlen Hends; [by exists w|].
  cbn [work_loop length] in *.
  destruct (task_queue w) as [|task rest] eqn:Hq; [cbn in Hlen; lia|].
  cbn [take] in Hends. apply Forall_cons in Hends as [Hend Hends].
  destruct (work_iteration_runs_front fl w c task rest Hrun Hq Hend)
    as (w1 & -> & Hq1 & Hrun1 & _).
  destruct (IH w1 Hrun1) as (w' & Hloop & Hq' & Hrun').
  { rewrite Hq1. cbn in Hlen. lia. }
  { by rewrite Hq1. }
  exists w'. by rewrite Hloop, Hq', Hq1.
Qed.

Lemma work_loop_app fl clocks later : forall w,
  work_loop fl w (clocks ++ later)
  = match work_loop fl w clocks with
    | Some w' => work_loop fl w' later
    | None => None
    end.
Proof.
  induction clocks as [|c clocks IH]; intros w; [done|].
  cbn [app work_loop]. by destruct (work_iteration fl w c).
Qed.

(** X13.  [ensure_worker_wellness] changes no worker's wellness record
    and removes no queued task: it appends one break request to the
    queue of each running worker whose stress is above the pool
    threshold, and only to those.  The request waits its turn: when
    none of the tasks queued before it ends the program (by an
    exception that is not a [std::exception]), the worker loop first
    takes every one of them, and the break is taken on the turn
    after. *)
Theorem ensure_wellness_queues_break_last (fl : Q -> Q) (p : CooperativeThreadPool)
    (i : nat) (w : CooperativeWorker) (clocks : list Clock) (c : Clock) :
  workers p !! i = Some w ->
  should_stop w = false ->
  length clocks = length (task_queue w) ->
  Forall (fun t => ending_of t <> ThrowsOther) (task_queue w) ->
  length (workers (ensure_worker_wellness p)) = length (workers p) /\
  ((get_stress_level w <= STRESS_THRESHOLD)%Q ->
     workers (ensure_worker_wellness p) !! i = Some w) /\
  ((STRESS_THRESHOLD < get_stress_level w)%Q ->
     exists w' w1 w2,
       workers (ensure_worker_wellness p) !! i = Some w' /\
       wellness w' = wellness w /\
       task_queue w' = task_queue w ++ [WellnessBreak] /\
       work_loop fl w' clocks = Some w1 /\
       task_queue w1 = [WellnessBreak] /\
       work_loop fl w' (clocks ++ [c]) = Some w2 /\
       task_queue w2 = [] /\
       last_break (wellness w2) = task_rested_at c).
Proof.
  intros Hi Hrun Hlen Hends. unfold ensure_worker_wellness. cbn [workers].
  split; [by rewrite length_fmap|]. rewrite list_lookup_fmap, Hi. cbn.
  split.
  - intros Hle. by rewrite (proj2 (Qlt_bool_false_iff _ _) Hle).
  - intros Hlt. rewrite (proj2 (Qlt_bool_true_iff _ _) Hlt).
    set (w' := force_wellness_break w).
    destruct (work_loop_drops_front fl clocks w') as (w1 & Hloop & Hq & Hrun1); [done| | |].
    { cbn. rewrite length_app. cbn. lia. }
    { cbn. rewrite Hlen. by rewrite take_app_length. }
    assert (task_queue w1 = [WellnessBreak]) as Hlast.
    { rewrite Hq. cbn. rewrite Hlen. by rewrite drop_app_length. }
    exists w'. eexists w1, _. split; [reflexivity|]. split; [done|]. split; [done|].
    split; [done|]. split; [done|].
    rewrite work_loop_app, Hloop. cbn [work_loop].
    unfold work_iteration. rewrite Hrun1, Hlast. cbn [ending_of].
    split; [reflexivity|]. by cbn.
Qed.

Lemma ensure_wellness_queues_break_last_witness :
  exists w',
    workers (ensure_worker_wellness mixed_pool) !! 0%nat = Some w' /\
    wellness w' = wellness busy_worker /\
    task_queue w' = [WellnessBreak].
Proof.
  destruct (proj2 (proj2 (ensure_wellness_queues_break_last (fun q => q) mixed_pool
                            0 busy_worker [] (mkClock 0 0 0 0) eq_refl eq_refl eq_refl
                            ltac:(constructor)))
              ltac:(by vm_compute))
    as (w' & _ & _ & Hw' & Hwell & Hq & _).
  exists w'. by repeat split.
Defined.

End ThreadingFacts.

(** ** The protected shared cell *)

Module SharedStateFacts.
Import SharedState.

Section CellFacts.
Context {T E : Type}.
Implicit Types c : @ProtectedSharedState T.

Lemma wrap_inc_dec n :
  0 <= n <= SIZE_MAX -> wrap_size_t (wrap_size_t (n + 1) - 1) = n.
Proof.
  intros Hn. unfold wrap_size_t, SIZE_MAX in *.
  rewrite Zminus_mod_idemp_l.
  replace (n + 1 - 1) with n by lia. apply Z.mod_small. lia.
Qed.

(** [safe_write] takes back its increment of the write counter on
    both paths. *)
Lemma safe_write_restores_count {R} c (writer : T -> T * completion E R) :
  0 <= write_count c <= SIZE_MAX ->
  write_count (safe_write c writer).2 = write_count c.
Proof.
  intros Hn. unfold safe_write. cbn [data set_write_count write_count].
  destruct (writer (data c)) as [d [r|e]]; cbn; by apply wrap_inc_dec.
Qed.

Lemma safe_read_returns {R} c (reader : T -> completion E R) r :
  reader (data c) = Normal r ->
  safe_read c reader = (Normal r, set_read_count c (wrap_size_t (read_count c + 1))).
Proof. intros Hr. unfold safe_read. cbn [data set_read_count]. by rewrite Hr. Qed.

Lemma safe_read_throws {R} c (reader : T -> completion E R) e :
  reader (data c) = Raised e ->
  safe_read c reader
  = (Raised e,
     set_read_count c (wrap_size_t (wrap_size_t (read_count c + 1) - 1))).
Proof. intros Hr. unfold safe_read. cbn [data set_read_count]. by rewrite Hr. Qed.

Lemma set_read_count_same c : set_read_count c (read_count c) = c.
Proof. by destruct c. Qed.

(** Over a run of reads the counter grows by the number of readers
    that return. *)
Lemma read_all_counts {R} (readers : list (T -> completion E R)) : forall c,
  0 <= read_count c ->
  read_count c + successful_reads c readers <= SIZE_MAX ->
  read_count (read_all c readers) = read_count c + successful_reads c readers.
Proof.
  induction readers as [|reader readers IH]; intros c Hpos Hmax.
  { simpl. lia. }
  cbn [read_all successful_reads] in *.
  assert (0 <= successful_reads (safe_read c reader).2 readers) as Hrest.
  { clear. generalize (safe_read c reader).2. induction readers as [|r rs IHr]; intros c'.
    - simpl. lia.
    - cbn [successful_reads]. specialize (IHr (safe_read c' r).2).
      destruct ((safe_read c' r).1); lia. }
  assert (read_count c <= SIZE_MAX) as Hle
    by (destruct ((safe_read c reader).1); lia).
  destruct (reader (data c)) as [r|e] eqn:Hr.
  - rewrite (safe_read_returns c reader r Hr) in *. cbn [fst snd] in *.
    assert (wrap_size_t (read_count c + 1) = read_count c + 1) as Hw
      by (apply wrap_size_t_small; lia).
    rewrite Hw in *. rewrite IH; cbn [read_count set_read_count]; lia.
  - rewrite (safe_read_throws c reader e Hr) in *. cbn [fst snd] in *.
    assert (wrap_size_t (wrap_size_t (read_count c + 1) - 1) = read_count c) as Hw
      by (apply wrap_inc_dec; lia).
    rewrite Hw, set_read_count_same in *. rewrite IH; lia.
Qed.

(** C10.  For a cell whose read counter is not at the last value of
    [size_t]: a reader that throws has its exception passed on and
    leaves the read counter reported by [get_stats] as it was; a
    reader that returns leaves it one greater than before.  Neither
    path touches the value or the write counter, and over any run of
    reads the counter grows by exactly the number of readers that
    returned, so it records successful reads and not readers in
    flight. *)
Theorem safe_read_counts_successful_reads {R} c (reader : T -> completion E R)
    (now later : Z) :
  0 <= read_count c < SIZE_MAX ->
  (forall e, reader (data c) = Raised e ->
     (safe_read c reader).1 = Raised e /\
     total_reads (get_stats (safe_read c reader).2 later)
     = total_reads (get_stats c now)) /\
  (forall r, reader (data c) = Normal r ->
     (safe_read c reader).1 = Normal r /\
     total_reads (get_stats (safe_read c reader).2 later)
     = total_reads (get_stats c now) + 1) /\
  data (safe_read c reader).2 = data c /\
  write_count (safe_read c reader).2 = write_count c /\
  (forall readers : list (T -> completion E R),
     read_count c + successful_reads c readers <= SIZE_MAX ->
     total_reads (get_stats (read_all c readers) later)
     = total_reads (get_stats c now) + successful_reads c readers).
Proof.
  intros Hn. repeat split.
  - by rewrite (safe_read_throws c reader e).
  - rewrite (safe_read_throws c reader e) by done.
    cbn. apply wrap_inc_dec. lia.
  - by rewrite (safe_read_returns c reader r).
  - rewrite (safe_read_returns c reader r) by done.
    cbn. apply wrap_size_t_small. lia.
  - unfold safe_read. cbn [data set_read_count]. by destruct (reader (data c)).
  - unfold safe_read. cbn [data set_read_count]. by destruct (reader (data c)).
  - intros readers Hmax. cbn [get_stats total_reads].
    apply read_all_counts; lia.
Qed.
(** With no other thread writing and an updater that returns and leaves
    in its argument a value the cell's value compares equal to, the
    first attempt of the loop commits. *)
Lemma first_attempt_commits (equal : T -> T -> bool) (others : Z -> T -> T)
    (updater : T -> T * completion E T) c kept v fuel attempt :
  updater (data c) = (kept, Normal v) ->
  equal (data c) kept = true ->
  others attempt (data c) = data c ->
  optimistic_attempts equal others updater (S fuel) attempt c
  = (Normal true, set_write_count (set_data c v) (wrap_size_t (write_count c + 1))).
Proof.
  intros Hv Heq Hquiet. cbn [optimistic_attempts]. rewrite Hv.
  cbn [data set_data]. rewrite Hquiet, Heq. by destruct c.
Qed.

(** C7, as the cell implements it.  For a cell whose value compares
    equal to a copy of itself under [T]'s [operator==], and an update
    function that returns on it and leaves the snapshot it is called on
    as it found it, [optimistic_update] run with no concurrent mutation
    and at least one attempt allowed (the default is three) commits on
    its first attempt: it returns true, the value becomes
    [fn(old_value)] and the write counter is advanced; a single allowed
    attempt gives the same. *)
Theorem optimistic_update_commits_at_once (equal : T -> T -> bool)
    (others : Z -> T -> T) c (updater : T -> T * completion E T) (v : T)
    (max_retries : Z) :
  equal (data c) (data c) = true ->
  (forall attempt d, others attempt d = d) ->
  updater (data c) = (data c, Normal v) ->
  1 <= max_retries ->
  optimistic_update equal others c updater max_retries
  = (Normal true, set_write_count (set_data c v) (wrap_size_t (write_count c + 1)))
  /\ optimistic_update equal others c updater 1
     = optimistic_update equal others c updater max_retries
  /\ data (optimistic_update equal others c updater 3).2 = v.
Proof.
  intros Heq Hquiet Hv Hmax. unfold optimistic_update.
  destruct (Z.to_nat max_retries) as [|fuel] eqn:Hfuel; [lia|].
  change (Z.to_nat 1) with 1%nat. change (Z.to_nat 3) with 3%nat.
  by rewrite !(first_attempt_commits equal others updater c (data c) v)
    by (done || apply Hquiet).
Qed.

(** With no other thread writing, an updater that returns and leaves in
    its snapshot a value the cell's value does not compare equal to is
    refused on every attempt. *)
Lemma changed_snapshot_never_commits (equal : T -> T -> bool)
    (updater : T -> T * completion E T) c kept v (fuel : nat) (attempt : Z) :
  updater (data c) = (kept, Normal v) ->
  equal (data c) kept = false ->
  optimistic_attempts equal (fun _ d => d) updater fuel attempt c = (Normal false, c).
Proof.
  intros Hv Hneq. revert attempt.
  induction fuel as [|fuel IH]; intros attempt; [done|].
  cbn [optimistic_attempts]. rewrite Hv. cbn [data set_data]. rewrite Hneq.
  replace (set_data c (data c)) with c by (by destruct c). apply IH.
Qed.
End CellFacts.

Lemma safe_read_counts_successful_reads_witness :
  0 <= read_count test_counter < SIZE_MAX /\
  total_reads (get_stats (safe_read (E := string) test_counter (fun v => Normal v)).2 2)
  = total_reads (get_stats test_counter 1) + 1 /\
  total_reads
    (get_stats (safe_read (R := Z) test_counter (fun _ => Raised "reader failed")).2 2)
  = total_reads (get_stats test_counter 1).
Proof.
  assert (0 <= read_count test_counter < SIZE_MAX) as Hn by (by vm_compute).
  split; [exact Hn|]. split.
  - exact (proj2 (proj1 (proj2 (safe_read_counts_successful_reads test_counter
             (fun v => Normal v) 1 2 Hn)) 0 eq_refl)).
  - exact (proj2 (proj1 (safe_read_counts_successful_reads (R := Z) test_counter
             (fun _ => Raised "reader failed") 1 2 Hn) "reader failed" eq_refl)).
Defined.

(** C4, on the cell of the test suite: whatever a writer leaves in the
    value and whatever it returns or throws, the write counter reported
    by [get_stats] is 0 before the call and 0 after it, not 1.  So for
    the writer that adds 100 and returns the new value: it returns 100,
    the value becomes 100, and the counter is still 0.  The other two
    writing operations, [optimistic_update] and [try_update_for], do
    advance the counter on the same cell. *)
Theorem safe_write_keeps_write_count {R : Type}
    (any_writer : Z -> Z * completion string R) :
  let writer (v : Z) : Z * completion string Z := (v + 100, Normal (v + 100)) in
  let updater (v : Z) : Z * completion string Z := (v, Normal (v + 100)) in
  total_writes (get_stats test_counter 1) = 0 /\
  total_writes (get_stats (safe_write test_counter any_writer).2 2) = 0 /\
  (safe_write test_counter writer).1 = Normal 100 /\
  data (safe_write test_counter writer).2 = 100 /\
  total_writes (get_stats (safe_write test_counter writer).2 2) = 0 /\
  total_writes
    (get_stats (optimistic_update Z.eqb (fun _ d => d) test_counter updater 3).2 2) = 1 /\
  total_writes (get_stats (try_update_for test_counter updater true).2 2) = 1.
Proof.
  cbn zeta. split; [done|]. split; [|by repeat split].
  cbn [get_stats total_writes].
  rewrite safe_write_restores_count; [done|by vm_compute].
Qed.

Lemma optimistic_update_commits_at_once_witness :
  optimistic_update (E := string) Z.eqb (fun _ d => d) test_counter
    (by_value (fun v => Normal (v + 100))) 3
  = (Normal true, set_write_count (set_data test_counter 100) 1).
Proof.
  exact (proj1 (optimistic_update_commits_at_once (E := string) Z.eqb (fun _ d => d)
           test_counter (by_value (fun v => Normal (v + 100))) 100 3
           eq_refl (fun _ _ => eq_refl) eq_refl ltac:(lia))).
Defined.

(** C7 as first stated fails: a cell of [double] that holds a NaN never
    compares equal to its snapshot, so with no other thread at work all
    three attempts are refused, the call returns false and the value
    stays as it was. *)
Lemma optimistic_update_nan_never_commits :
  let c : @ProtectedSharedState float := new_cell PrimFloat.nan "ratio" 0 in
  let updater (v : float) : float * completion string float := (v, Normal 1%float) in
  optimistic_update PrimFloat.eqb (fun _ d => d) c updater 3 = (Normal false, c).
Proof. reflexivity. Qed.

(** It fails as well for an update function that changes the snapshot
    it is handed: [[](int& v) { v += 100; return v; }] on the cell of
    the test suite returns on every attempt and is never committed,
    since the cell's 0 is compared with the snapshot's 100. *)
Lemma optimistic_update_in_place_never_commits :
  optimistic_update (E := string) Z.eqb (fun _ d => d) test_counter
    (fun v => (v + 100, Normal (v + 100))) 3
  = (Normal false, test_counter).
Proof.
  exact (changed_snapshot_never_commits (E := string) Z.eqb
           (fun v => (v + 100, Normal (v + 100))) test_counter 100 100 3 0
           eq_refl eq_refl).
Qed.

(** *** Optimistic updates under interference *)

Section OptimisticFacts.
Context {T E : Type}.
Variable equal : T -> T -> bool.
Variable others : Z -> T -> T.
Variable updater : T -> T * completion E T.
Implicit Types c : @ProtectedSharedState T.

(** What every run of the retry loop keeps, and what its result tells. *)
Lemma optimistic_attempts_account fuel : forall attempt c,
  let result := optimistic_attempts equal others updater fuel attempt c in
  read_count result.2 = read_count c /\
  state_name result.2 = state_name c /\
  creation_time result.2 = creation_time c /\
  match result.1 with
  | Normal true =>
      write_count result.2 = wrap_size_t (write_count c + 1) /\
      exists snapshot kept k,
        0 <= k < Z.of_nat fuel /\
        updater snapshot = (kept, Normal (data result.2)) /\
        equal (others (attempt + k) snapshot) kept = true
  | Normal false => write_count result.2 = write_count c
  | Raised e =>
      write_count result.2 = write_count c /\
      exists snapshot kept, updater snapshot = (kept, Raised e)
  end.
Proof.
  induction fuel as [|fuel IH]; intros attempt c; cbn [optimistic_attempts].
  { by cbn. }
  destruct (updater (data c)) as [kept [updated|e]] eqn:Hup.
  - cbn [data set_data].
    destruct (equal (others attempt (data c)) kept) eqn:Heq.
    + cbn. repeat split; try done.
      exists (data c), kept, 0. rewrite Z.add_0_r. repeat split; try done; lia.
    + specialize (IH (attempt + 1) (set_data c (others attempt (data c)))).
      cbn zeta in IH. destruct IH as (Hr & Hn & Ht & Hres).
      split; [done|]. split; [done|]. split; [done|].
      destruct (optimistic_attempts equal others updater fuel (attempt + 1)
                  (set_data c (others attempt (data c)))) as [[[|]|e] c'];
        cbn [fst snd] in *; try done.
      destruct Hres as (Hw & snapshot & kept' & k & Hk & Hsnap & Hsame).
      split; [done|]. exists snapshot, kept', (k + 1). split; [lia|].
      split; [done|]. by replace (attempt + (k + 1)) with (attempt + 1 + k) by lia.
  - cbn. repeat split; try done. by exists (data c), kept.
Qed.

(** X14.  [optimistic_update] advances the write counter by one exactly
    when it returns true, and then the value it committed is the update
    function applied to a snapshot which, as the update function left
    it, still compared equal to the live value at the commit; when it
    returns false or the update function throws, the write counter is as
    before.  The read counter, the name and the creation time are never
    touched, and with [max_retries] at most 0 nothing happens at all. *)
Theorem optimistic_update_accounts_for_commits c (max_retries : Z) :
  let result := optimistic_update equal others c updater max_retries in
  read_count result.2 = read_count c /\
  state_name result.2 = state_name c /\
  match result.1 with
  | Normal true =>
      write_count result.2 = wrap_size_t (write_count c + 1) /\
      exists snapshot kept attempt,
        0 <= attempt < max_retries /\
        updater snapshot = (kept, Normal (data result.2)) /\
        equal (others attempt snapshot) kept = true
  | Normal false => write_count result.2 = write_count c
  | Raised e =>
      write_count result.2 = write_count c /\
      exists snapshot kept, updater snapshot = (kept, Raised e)
  end /\
  (max_retries <= 0 -> result = (Normal false, c)).
Proof.
  intros result. unfold result, optimistic_update.
  pose proof (optimistic_attempts_account (Z.to_nat max_retries) 0 c) as Hacc.
  cbn zeta in Hacc. destruct Hacc as (Hr & Hn & _ & Hres).
  split; [done|]. split; [done|]. split.
  - destruct (optimistic_attempts equal others updater (Z.to_nat max_retries) 0 c)
      as [[[|]|e] c']; cbn [fst snd] in *; try done.
    destruct Hres as (Hw & snapshot & kept & k & Hk & Hsnap & Hsame).
    split; [done|]. exists snapshot, kept, k. split; [lia|done].
  - intros Hle. by replace (Z.to_nat max_retries) with 0%nat by lia.
Qed.

Lemma optimistic_attempts_give_up fuel : forall attempt c,
  (forall k d, equal (others k d) (updater d).1 = false) ->
  (forall d, exists v, (updater d).2 = Normal v) ->
  optimistic_attempts equal others updater fuel attempt c
  = (Normal false, set_data c (overwritten others fuel attempt (data c))).
Proof.
  induction fuel as [|fuel IH]; intros attempt c Hdiff Hruns;
    cbn [optimistic_attempts overwritten].
  { by destruct c. }
  destruct (Hruns (data c)) as [v Hv]. pose proof (Hdiff attempt (data c)) as Hd.
  destruct (updater (data c)) as [kept result]. cbn [fst snd] in Hv, Hd. subst result.
  cbn [data set_data]. rewrite Hd, IH by done. by destruct c.
Qed.

(** X15.  When on every attempt the value found at the commit differs
    from the snapshot (as the update function left it), as it does when
    another thread changes the value between snapshot and commit each
    time, and the update function returns, [optimistic_update] uses up
    its [max_retries] attempts and returns false: the write counter and
    the read counter are as before and the cell holds the value the
    other threads wrote last, never a value computed by the update
    function. *)
Theorem optimistic_update_gives_up c (max_retries : Z) :
  (forall attempt d, equal (others attempt d) (updater d).1 = false) ->
  (forall d, exists v, (updater d).2 = Normal v) ->
  optimistic_update equal others c updater max_retries
  = (Normal false,
     set_data c (overwritten others (Z.to_nat max_retries) 0 (data c))).
Proof. intros Hdiff Hruns. by apply optimistic_attempts_give_up. Qed.
End OptimisticFacts.

Lemma optimistic_update_gives_up_witness :
  optimistic_update (E := string) Z.eqb (fun _ d => d + 1) test_counter
    (by_value (fun v => Normal (v * 2))) 3
  = (Normal false, set_data test_counter 3).
Proof.
  exact (optimistic_update_gives_up (E := string) Z.eqb (fun _ d => d + 1)
           (by_value (fun v => Normal (v * 2))) test_counter 3
           (fun _ d => proj2 (Z.eqb_neq (d + 1) d) ltac:(lia))
           (fun d => ex_intro _ (d * 2) eq_refl)).
Defined.

Lemma optimistic_update_accounts_for_commits_witness :
  optimistic_update (E := string) Z.eqb (fun _ d => d) test_counter
    (by_value (fun v => Normal (v + 1))) 0
  = (Normal false, test_counter).
Proof.
  exact (proj2 (proj2 (proj2 (optimistic_update_accounts_for_commits (E := string)
           Z.eqb (fun _ d => d) (by_value (fun v => Normal (v + 1))) test_counter 0)))
           ltac:(lia)).
Defined.

(** X16.  A lost race is retried on the fresh value.  Let the update
    function return on the value at entry and on the value another
    thread writes during the first attempt, leaving its snapshot as it
    found it both times; let the written value differ from the value at
    entry and compare equal to a copy of itself; let no thread write
    during the second attempt; and let at least two attempts be allowed.
    Then [optimistic_update] commits on the second attempt the update
    function applied to the value the other thread wrote, returns true
    and advances the write counter by one. *)
Theorem optimistic_update_retries_on_fresh_value {T E : Type}
    (equal : T -> T -> bool) (others : Z -> T -> T)
    (updater : T -> T * completion E T) (c : @ProtectedSharedState T)
    (stale fresh : T) (max_retries : Z) :
  equal (others 0 (data c)) (data c) = false ->
  others 1 (others 0 (data c)) = others 0 (data c) ->
  equal (others 0 (data c)) (others 0 (data c)) = true ->
  updater (data c) = (data c, Normal stale) ->
  updater (others 0 (data c)) = (others 0 (data c), Normal fresh) ->
  2 <= max_retries ->
  optimistic_update equal others c updater max_retries
  = (Normal true, set_write_count (set_data c fresh) (wrap_size_t (write_count c + 1))).
Proof.
  intros Hlost Hquiet Hsame Hstale Hfresh Hmax. unfold optimistic_update.
  destruct (Z.to_nat max_retries) as [|[|fuel]] eqn:Hfuel; [lia|lia|].
  cbn [optimistic_attempts]. rewrite Hstale. cbn [data set_data].
  rewrite Hlost, Hfresh. cbn [data set_data Z.add Pos.add].
  change (0 + 1) with 1. rewrite Hquiet, Hsame. by destruct c.
Qed.

Lemma optimistic_update_retries_on_fresh_value_witness :
  optimistic_update (E := string) Z.eqb
    (fun attempt d => if attempt =? 0 then d + 5 else d) test_counter
    (by_value (fun v => Normal (v * 2))) 3
  = (Normal true, set_write_count (set_data test_counter 10) 1).
Proof.
  exact (optimistic_update_retries_on_fresh_value (E := string) Z.eqb
           (fun attempt d => if attempt =? 0 then d + 5 else d)
           (by_value (fun v => Normal (v * 2))) test_counter 0 10 3
           eq_refl eq_refl eq_refl eq_refl eq_refl ltac:(lia)).
Defined.

End SharedStateFacts.

(** ** The lock-order registry *)

Module DeadlockFacts.
Import SharedState.

Lemma registered_in_order_eq A B :
  A <> B ->
  registered_in_order A B
  = {| held_locks := ∅; lock_registry := ∅;
       lock_hierarchy := <[B := 1]> (<[A := 0]> ∅);
       next_hierarchy_level := 2 |}.
Proof.
  intros Hne. unfold registered_in_order, register_lock_type, new_registry.
  cbn [lock_hierarchy]. rewrite lookup_empty.
  cbn [lock_hierarchy next_hierarchy_level held_locks lock_registry].
  by rewrite lookup_insert_ne, lookup_empty.
Qed.

(** A thread that holds a lock of a higher level is refused every lock
    of a lower level, whatever else the registry records. *)
Lemma holding_higher_refuses_lower d tid low high level_low level_high held :
  lock_hierarchy d !! low = Some level_low ->
  lock_hierarchy d !! high = Some level_high ->
  level_low < level_high ->
  held_locks d !! tid = Some held ->
  high ∈ held ->
  can_acquire_safely d tid low = Returns false.
Proof.
  intros Hlow Hhigh Hlt Hheld Hin. unfold can_acquire_safely.
  rewrite Hlow, Hheld. cbn [default].
  match goal with |- (if ?b then _ else _) = _ => assert (b = true) as -> end; [|done].
  apply existsb_exists. exists high. split; [by apply list_elem_of_In|].
  rewrite Hhigh. by apply Z.ltb_lt.
Qed.

(** C8.  In a registry where lock name A was registered before lock
    name B, A has level 0 and B level 1; a thread that holds no lock
    passes [can_acquire_safely] for A, and after it has registered the
    acquisition of A it passes for B; a thread that has registered the
    acquisition of B is refused A. *)
Theorem acquire_in_registration_order (A B : string) (t u : Z) (now : Z) :
  A <> B ->
  let d := registered_in_order A B in
  lock_hierarchy d !! A = Some 0 /\
  lock_hierarchy d !! B = Some 1 /\
  can_acquire_safely d t A = Returns true /\
  can_acquire_safely (register_lock_acquisition d t A now) t B = Returns true /\
  can_acquire_safely (register_lock_acquisition d u B now) u A = Returns false.
Proof.
  intros Hne d. unfold d. rewrite (registered_in_order_eq A B Hne).
  assert ((<[B := 1]> (<[A := 0]> (∅ : gmap string Z))) !! A = Some 0) as HA
    by (by rewrite lookup_insert_ne, lookup_insert_eq).
  assert ((<[B := 1]> (<[A := 0]> (∅ : gmap string Z))) !! B = Some 1) as HB
    by (by rewrite lookup_insert_eq).
  split; [exact HA|]. split; [exact HB|]. split; [|split].
  - unfold can_acquire_safely, would_create_cycle.
    cbn [lock_hierarchy held_locks lock_registry]. by rewrite HA, !lookup_empty.
  - unfold can_acquire_safely, would_create_cycle, register_lock_acquisition.
    cbn [lock_hierarchy held_locks lock_registry].
    rewrite HB, lookup_empty, lookup_insert_eq.
    cbn [default from_option id app existsb].
    rewrite HA. rewrite lookup_insert_ne, lookup_empty by done.
    replace (1 <? 0) with false by done. done.
  - eapply (holding_higher_refuses_lower _ u A B 0 1); cbn; try done.
    + by rewrite lookup_insert_eq.
    + rewrite lookup_empty. cbn. by apply list_elem_of_singleton.
Qed.

Lemma acquire_in_registration_order_witness :
  let d := registered_in_order "A" "B" in
  "A" <> "B" /\
  can_acquire_safely d 1 "A" = Returns true /\
  can_acquire_safely (register_lock_acquisition d 1 "A" 10) 1 "B" = Returns true /\
  can_acquire_safely (register_lock_acquisition d 2 "B" 10) 2 "A" = Returns false.
Proof.
  assert ("A" <> "B") as Hne by discriminate.
  split; [exact Hne|].
  exact (proj2 (proj2 (acquire_in_registration_order "A" "B" 1 2 10 Hne))).
Defined.

(** *** Hierarchy levels *)

Lemma distinct_levels_new : distinct_levels new_registry.
Proof. split; [done|]. split; intros *; cbn; by rewrite lookup_empty. Qed.

Lemma distinct_levels_register d lock :
  distinct_levels d -> distinct_levels (register_lock_type d lock).
Proof.
  intros (Hnext & Hbound & Hinj). unfold register_lock_type.
  destruct (lock_hierarchy d !! lock) eqn:Hlock; [done|].
  split; [cbn; lia|]. split; cbn [lock_hierarchy next_hierarchy_level].
  - intros l level [[<- <-]|[_ Hl]]%lookup_insert_Some; [lia|].
    specialize (Hbound l level Hl). lia.
  - intros l1 l2 level [[<- <-]|[Hne1 Hl1]]%lookup_insert_Some
      [[<- Heq]|[Hne2 Hl2]]%lookup_insert_Some; try done.
    + specialize (Hbound l2 _ Hl2). lia.
    + specialize (Hbound l1 _ Hl1). lia.
    + by apply (Hinj l1 l2 level).
Qed.

Lemma distinct_levels_call d c :
  distinct_levels d -> distinct_levels (registry_call d c).
Proof.
  destruct c as [lock|tid lock now|tid lock]; cbn [registry_call];
    [apply distinct_levels_register|done|done].
Qed.

Lemma distinct_levels_calls calls : forall d,
  distinct_levels d -> distinct_levels (fold_left registry_call calls d).
Proof.
  induction calls as [|c calls IH]; intros d Hd; [done|].
  cbn [fold_left]. apply IH. by apply distinct_levels_call.
Qed.

(** X17.  After any sequence of [register_lock_type],
    [register_lock_acquisition] and [register_lock_release] calls on a
    new registry, no two lock names share a hierarchy level and every
    level is at least 0 and below the next level to be handed out.
    Registering a name again changes nothing; registering a new name
    gives it the next level, above every level in use, and leaves the
    levels of all other names as they were. *)
Theorem hierarchy_levels_are_distinct (calls : list RegistryCall) (lock : string) :
  let d := fold_left registry_call calls new_registry in
  distinct_levels d /\
  register_lock_type (register_lock_type d lock) lock = register_lock_type d lock /\
  (forall level, lock_hierarchy d !! lock = Some level -> register_lock_type d lock = d) /\
  (lock_hierarchy d !! lock = None ->
     lock_hierarchy (register_lock_type d lock) !! lock = Some (next_hierarchy_level d) /\
     (forall other level, lock_hierarchy d !! other = Some level ->
        level < next_hierarchy_level d /\
        lock_hierarchy (register_lock_type d lock) !! other = Some level)).
Proof.
  intros d.
  assert (distinct_levels d) as Hd
    by (apply distinct_levels_calls, distinct_levels_new).
  split; [done|]. split; [|split].
  - unfold register_lock_type at 2 3.
    destruct (lock_hierarchy d !! lock) eqn:Hlock.
    + unfold register_lock_type. by rewrite Hlock.
    + unfold register_lock_type. cbn [lock_hierarchy]. by rewrite lookup_insert_eq.
  - intros level Hlock. unfold register_lock_type. by rewrite Hlock.
  - intros Hlock. unfold register_lock_type. rewrite Hlock. cbn [lock_hierarchy].
    split; [by rewrite lookup_insert_eq|].
    intros other level Hother. destruct Hd as (_ & Hbound & _).
    split; [by apply (Hbound other)|].
    rewrite lookup_insert_ne; [done|]. intros <-. congruence.
Qed.

Lemma hierarchy_levels_are_distinct_witness :
  let d := fold_left registry_call
             [RegisterType "A"; RegisterAcquisition 1 "A" 0; RegisterType "B";
              RegisterType "A"; RegisterRelease 1 "A"] new_registry in
  lock_hierarchy d !! "C" = None /\
  lock_hierarchy (register_lock_type d "C") !! "C" = Some 2 /\
  lock_hierarchy (register_lock_type d "C") !! "B" = Some 1.
Proof.
  intros d.
  assert (lock_hierarchy d !! "C" = None) as Hnone by reflexivity.
  split; [exact Hnone|].
  destruct (proj2 (proj2 (proj2 (hierarchy_levels_are_distinct
              [RegisterType "A"; RegisterAcquisition 1 "A" 0; RegisterType "B";
               RegisterType "A"; RegisterRelease 1 "A"] "C"))) Hnone)
    as [HC Hothers].
  split; [exact HC|].
  exact (proj2 (Hothers "B" 1 eq_refl)).
Defined.

(** *** Release *)

Lemma filter_keeps_others (lock : string) (l : list string) :
  lock ∉ l -> List.filter (fun x => negb (String.eqb x lock)) l = l.
Proof.
  induction l as [|a l IH]; intros Hnot; [done|].
  cbn [List.filter]. apply not_elem_of_cons in Hnot as [Hne Hnot].
  destruct (String.eqb_spec a lock) as [->|_]; [done|].
  cbn. by rewrite IH.
Qed.

Lemma filter_drops_lock (lock : string) (l : list string) :
  lock ∉ List.filter (fun x => negb (String.eqb x lock)) l.
Proof.
  rewrite list_elem_of_In, filter_In. intros [_ Hneq].
  by rewrite String.eqb_refl in Hneq.
Qed.

(** X18.  [register_lock_release] drops every occurrence of the lock
    from the calling thread's list and keeps the thread's other locks in
    order; it erases the owner record of that lock whichever thread
    owned it; it leaves the lists of all other threads, the owner
    records of all other locks and the hierarchy alone.  Releasing a
    lock right after registering its acquisition gives the thread back
    the list it had, if the lock was not in it. *)
Theorem release_forgets_lock (d : DeadlockPrevention) (tid : Z) (lock : string)
    (now : Z) :
  let d' := register_lock_release d tid lock in
  let held := default [] (held_locks d !! tid) in
  held_locks d' !! tid
  = Some (List.filter (fun x => negb (String.eqb x lock)) held) /\
  (lock ∉ default [] (held_locks d' !! tid)) /\
  lock_registry d' !! lock = None /\
  (forall other, other <> tid -> held_locks d' !! other = held_locks d !! other) /\
  (forall other, other <> lock -> lock_registry d' !! other = lock_registry d !! other) /\
  lock_hierarchy d' = lock_hierarchy d /\
  (lock ∉ held ->
     held_locks (register_lock_release (register_lock_acquisition d tid lock now) tid lock)
       !! tid = Some held).
Proof.
  intros d' held. unfold d', register_lock_release.
  cbn [held_locks lock_registry lock_hierarchy].
  rewrite lookup_insert_eq. cbn [default from_option id].
  split; [done|]. split; [apply filter_drops_lock|].
  split; [apply lookup_delete_eq|].
  split; [intros other Hne; by rewrite lookup_insert_ne|].
  split; [intros other Hne; by rewrite lookup_delete_ne|].
  split; [done|].
  intros Hnot. unfold register_lock_acquisition. cbn [held_locks].
  rewrite !lookup_insert_eq. cbn [default from_option id]. f_equal.
  fold held. rewrite List.filter_app, filter_keeps_others by done.
  cbn. rewrite String.eqb_refl. cbn. by rewrite app_nil_r.
Qed.

Lemma release_forgets_lock_witness :
  held_locks
    (register_lock_release
       (register_lock_acquisition (registered_in_order "A" "B") 1 "A" 10) 1 "A")
    !! 1 = Some [].
Proof.
  exact (proj2 (proj2 (proj2 (proj2 (proj2 (proj2
           (release_forgets_lock (registered_in_order "A" "B") 1 "A" 10))))))
           ltac:(apply not_elem_of_nil)).
Defined.

(** *** The acquisition check *)

Lemma higher_held_iff (hierarchy : gmap string Z) (level : Z) (held : list string) :
  existsb (fun held_lock =>
     match hierarchy !! held_lock with
     | Some l => level <? l
     | None => false
     end) held = true
  <-> exists a la, a ∈ held /\ hierarchy !! a = Some la /\ level < la.
Proof.
  rewrite existsb_exists. split.
  - intros (a & Hin & Hlt). destruct (hierarchy !! a) as [la|] eqn:Ha; [|done].
    exists a, la. split; [by apply list_elem_of_In|]. split; [done|by apply Z.ltb_lt].
  - intros (a & la & Hin & Ha & Hlt). exists a. split; [by apply list_elem_of_In|].
    rewrite Ha. by apply Z.ltb_lt.
Qed.

Lemma would_create_cycle_iff d tid lock :
  would_create_cycle d tid lock = true
  <-> exists info theirs shared,
        lock_registry d !! lock = Some info /\ owner info <> tid /\
        held_locks d !! owner info = Some theirs /\
        shared ∈ default [] (held_locks d !! tid) /\ shared ∈ theirs.
Proof.
  unfold would_create_cycle. split.
  - destruct (lock_registry d !! lock) as [info|]; [|done].
    case_bool_decide as Hown; [|done].
    destruct (held_locks d !! owner info) as [theirs|] eqn:Htheirs; [|done].
    destruct (held_locks d !! tid) as [ours|] eqn:Hours; [|done].
    intros (shared & Hin & (other & Hin' & Heq%String.eqb_eq)%existsb_exists)%existsb_exists.
    subst other. exists info, theirs, shared. cbn.
    split; [done|]. split; [done|]. split; [done|].
    split; by apply list_elem_of_In.
  - intros (info & theirs & shared & -> & Hown & Htheirs & Hours & Hshared).
    rewrite bool_decide_true by done. rewrite Htheirs.
    destruct (held_locks d !! tid) as [ours|]; [|by apply elem_of_nil in Hours].
    cbn in Hours. apply existsb_exists. exists shared.
    split; [by apply list_elem_of_In|].
    apply existsb_exists. exists shared. split; [by apply list_elem_of_In|].
    apply String.eqb_refl.
Qed.

(** The part of the check the guards rely on. *)
Lemma can_acquire_safely_iff_order d tid lock level :
  lock_hierarchy d !! lock = Some level ->
  can_acquire_safely d tid lock = Returns true ->
  forall a la, a ∈ default [] (held_locks d !! tid) ->
    lock_hierarchy d !! a = Some la -> la <= level.
Proof.
  intros Hlevel. unfold can_acquire_safely. rewrite Hlevel.
  destruct (existsb _ (default [] (held_locks d !! tid))) eqn:Hex; [done|].
  intros _ a la Ha Hla. destruct (Z.le_gt_cases la level) as [|Hgt]; [done|].
  assert (existsb (fun held_lock =>
            match lock_hierarchy d !! held_lock with
            | Some l => level <? l
            | None => false
            end) (default [] (held_locks d !! tid)) = true) as Htrue.
  { apply higher_held_iff. exists a, la. by repeat split. }
  congruence.
Qed.

(** X19.  For a lock name that is in the hierarchy,
    [can_acquire_safely] answers true exactly when both hold: no lock
    the calling thread holds has a higher level than the requested one,
    and it is not the case that the requested lock is owned by another
    thread whose held list shares a name with the caller's held list.
    In every other case it answers false. *)
Theorem can_acquire_safely_iff (d : DeadlockPrevention) (tid : Z) (lock : string)
    (level : Z) :
  lock_hierarchy d !! lock = Some level ->
  let held := default [] (held_locks d !! tid) in
  let in_order :=
    forall a la, a ∈ held -> lock_hierarchy d !! a = Some la -> la <= level in
  let mutual_hold :=
    exists info theirs shared,
      lock_registry d !! lock = Some info /\ owner info <> tid /\
      held_locks d !! owner info = Some theirs /\
      shared ∈ held /\ shared ∈ theirs in
  (can_acquire_safely d tid lock = Returns true <-> in_order /\ ~ mutual_hold) /\
  (can_acquire_safely d tid lock = Returns false <-> ~ (in_order /\ ~ mutual_hold)).
Proof.
  intros Hlevel held in_order mutual_hold. unfold can_acquire_safely. rewrite Hlevel.
  fold held.
  pose proof (higher_held_iff (lock_hierarchy d) level held) as Hhigh.
  pose proof (would_create_cycle_iff d tid lock) as Hcycle. fold held in Hcycle.
  fold mutual_hold in Hcycle.
  assert (in_order <-> ~ exists a la, a ∈ held /\ lock_hierarchy d !! a = Some la /\ level < la)
    as Horder.
  { unfold in_order. split.
    - intros Hin (a & la & Ha & Hla & Hlt). specialize (Hin a la Ha Hla). lia.
    - intros Hno a la Ha Hla. destruct (Z.le_gt_cases la level) as [|Hgt]; [done|].
      destruct Hno. exists a, la. by repeat split. }
  destruct (existsb _ held) eqn:Hex.
  - assert (~ in_order) by (rewrite Horder; intros Hno; apply Hno; by apply Hhigh).
    split; split; try done; tauto.
  - assert (in_order).
    { apply Horder. intros Hyes%Hhigh. congruence. }
    destruct (would_create_cycle d tid lock) eqn:Hc; cbn [negb].
    + assert mutual_hold by (by apply Hcycle).
      split; split; try done; tauto.
    + assert (~ mutual_hold) by (intros Hyes%Hcycle; congruence).
      split; split; try done; tauto.
Qed.

Lemma can_acquire_safely_iff_witness :
  can_acquire_safely (register_lock_acquisition (registered_in_order "A" "B") 1 "B" 10)
    1 "A" = Returns false.
Proof.
  apply (proj2 (can_acquire_safely_iff
                  (register_lock_acquisition (registered_in_order "A" "B") 1 "B" 10)
                  1 "A" 0 eq_refl)).
  intros [Horder _]. specialize (Horder "B" 1 ltac:(left) eq_refl). lia.
Defined.

(** *** The analysis *)

Lemma level_of_registered hierarchy lock level :
  hierarchy !! lock = Some level -> level_of hierarchy lock = (level, hierarchy).
Proof. intros H. unfold level_of. by rewrite H. Qed.

(** On registered names the inner loop changes nothing and finds a
    violation exactly when two neighbours fall. *)
Lemma hierarchy_violation_spec hierarchy locks :
  Forall (fun a => is_Some (hierarchy !! a)) locks ->
  exists found,
    hierarchy_violation hierarchy locks = (found, hierarchy) /\
    (found = true <-> falling_pair hierarchy locks).
Proof.
  induction locks as [|a [|b rest] IH]; intros Hreg.
  - exists false. split; [done|]. split; [done|].
    by intros (i & ? & ? & ? & ? & Hi & _).
  - exists false. split; [done|]. split; [done|].
    intros (i & ? & ? & ? & ? & _ & Hi & _). by destruct i.
  - apply Forall_cons in Hreg as [[la Ha] Hreg].
    pose proof Hreg as [[lb Hb] _]%Forall_cons.
    cbn [hierarchy_violation].
    rewrite (level_of_registered _ _ _ Ha), (level_of_registered _ _ _ Hb).
    destruct (lb <? la) eqn:Hlt.
    + exists true. split; [done|]. split; [|done]. intros _.
      exists 0%nat, a, b, la, lb. repeat split; try done. by apply Z.ltb_lt.
    + destruct (IH Hreg) as (found & Hviol & Hfound). exists found.
      split; [exact Hviol|].
      rewrite Hfound. apply Z.ltb_ge in Hlt. split.
      * intros (i & x & y & lx & ly & Hi & HSi & Hx & Hy & Hfall).
        exists (S i), x, y, lx, ly. by repeat split.
      * intros (i & x & y & lx & ly & Hi & HSi & Hx & Hy & Hfall).
        destruct i as [|i].
        { cbn in Hi, HSi. injection Hi as <-. injection HSi as <-.
          rewrite Ha in Hx. rewrite Hb in Hy. injection Hx as <-. injection Hy as <-. lia. }
        exists i, x, y, lx, ly. by repeat split.
Qed.

Lemma analyze_threads_spec hierarchy entries : forall report,
  (forall e, e ∈ entries -> Forall (fun a => is_Some (hierarchy !! a)) e.2) ->
  exists report',
    fold_left analyze_thread entries (report, hierarchy) = (report', hierarchy) /\
    (potential_deadlock_detected report' = true <->
       potential_deadlock_detected report = true \/
       exists e, e ∈ entries /\ falling_pair hierarchy e.2) /\
    (forall tid, tid ∈ involved_threads report' <->
       tid ∈ involved_threads report \/
       exists locks, (tid, locks) ∈ entries /\ falling_pair hierarchy locks) /\
    ((forall e, e ∈ entries -> ~ falling_pair hierarchy e.2) -> report' = report).
Proof.
  induction entries as [|[tid locks] entries IH]; intros report Hreg.
  { exists report. split; [done|]. split; [|split; [|done]].
    - split; [by left|]. intros [|(e & He & _)]; [done|by apply elem_of_nil in He].
    - intros t. split; [by left|].
      intros [|(l & He & _)]; [done|by apply elem_of_nil in He]. }
  cbn [fold_left analyze_thread].
  destruct (hierarchy_violation_spec hierarchy locks) as (found & -> & Hfound).
  { apply (Hreg (tid, locks)). by left. }
  destruct found.
  - destruct (IH {| potential_deadlock_detected := true; involved_locks := locks;
                    involved_threads := involved_threads report ++ [tid];
                    description := "Lock hierarchy violation detected" |})
      as (report' & -> & Hflag & Hthreads & Hclean).
    { intros e He. apply Hreg. by right. }
    assert (falling_pair hierarchy locks) as Hfall by (by apply Hfound).
    exists report'. split; [done|]. split; [|split].
    + rewrite Hflag. cbn. split; [|by left].
      intros _. right. exists (tid, locks). split; [by left|done].
    + intros t. rewrite Hthreads. cbn [involved_threads].
      rewrite elem_of_app, list_elem_of_singleton. split.
      * intros [[Ht | ->] | (l & Hl & Hfl)].
        -- by left.
        -- right. exists locks. split; [by left|done].
        -- right. exists l. split; [by right|done].
      * intros [Ht|(l & [Heq|Hl]%elem_of_cons & Hfl)].
        -- left. by left.
        -- injection Heq as -> ->. left. by right.
        -- right. by exists l.
    + intros Hnone. destruct (Hnone (tid, locks)); [by left|done].
  - assert (~ falling_pair hierarchy locks) as Hnofall
      by (intros Hf%Hfound; done).
    destruct (IH report) as (report' & -> & Hflag & Hthreads & Hclean).
    { intros e He. apply Hreg. by right. }
    exists report'. split; [done|]. split; [|split].
    + rewrite Hflag. split.
      * intros [|(e & He & Hfe)]; [by left|]. right. exists e. split; [by right|done].
      * intros [|(e & [->|He]%elem_of_cons & Hfe)]; [by left|done|].
        right. by exists e.
    + intros t. rewrite Hthreads. split.
      * intros [|(l & Hl & Hfl)]; [by left|]. right. exists l. split; [by right|done].
      * intros [|(l & [Heq|Hl]%elem_of_cons & Hfl)]; [by left| |].
        -- injection Heq as -> ->. done.
        -- right. by exists l.
    + intros Hnone. apply Hclean. intros e He. apply Hnone. by right.
Qed.

Lemma elem_of_threads_in_order d tid locks :
  (tid, locks) ∈ threads_in_order d <-> held_locks d !! tid = Some locks.
Proof.
  unfold threads_in_order. rewrite merge_sort_Permutation.
  apply elem_of_map_to_list.
Qed.

Lemma analysis_clean_when_ascending d :
  held_are_registered d ->
  (forall tid locks, held_locks d !! tid = Some locks ->
     ~ falling_pair (lock_hierarchy d) locks) ->
  (analyze_potential_deadlocks d).2 = d /\
  (analyze_potential_deadlocks d).1 = clean_report.
Proof.
  intros Hreg Hnone. unfold analyze_potential_deadlocks.
  destruct (analyze_threads_spec (lock_hierarchy d) (threads_in_order d) clean_report)
    as (report & Hfold & _ & _ & Hclean).
  { intros [tid locks] He%elem_of_threads_in_order. by apply (Hreg tid). }
  unfold clean_report in Hfold. rewrite Hfold. cbn [fst snd].
  split; [by destruct d|]. apply Hclean.
  intros [tid locks] He%elem_of_threads_in_order. by apply (Hnone tid).
Qed.

(** X20.  When every lock held by a thread has a level,
    [analyze_potential_deadlocks] leaves the registry as it is, reports
    a potential deadlock exactly when some thread's list has two
    neighbours whose levels fall, and lists among the involved threads
    exactly the threads with such a pair. *)
Theorem analysis_reports_falling_levels (d : DeadlockPrevention) :
  held_are_registered d ->
  (analyze_potential_deadlocks d).2 = d /\
  (potential_deadlock_detected (analyze_potential_deadlocks d).1 = true <->
     exists tid locks,
       held_locks d !! tid = Some locks /\ falling_pair (lock_hierarchy d) locks) /\
  (forall tid, tid ∈ involved_threads (analyze_potential_deadlocks d).1 <->
     exists locks,
       held_locks d !! tid = Some locks /\ falling_pair (lock_hierarchy d) locks) /\
  ((forall tid locks, held_locks d !! tid = Some locks ->
      ~ falling_pair (lock_hierarchy d) locks) ->
   (analyze_potential_deadlocks d).1 = clean_report).
Proof.
  intros Hreg. unfold analyze_potential_deadlocks.
  destruct (analyze_threads_spec (lock_hierarchy d) (threads_in_order d) clean_report)
    as (report & Hfold & Hflag & Hthreads & Hclean).
  { intros [tid locks] He%elem_of_threads_in_order. by apply (Hreg tid). }
  unfold clean_report in Hfold. rewrite Hfold. cbn [fst snd].
  split; [by destruct d|]. split; [|split].
  - rewrite Hflag. cbn. split.
    + intros [|([tid locks] & He%elem_of_threads_in_order & Hf)]; [done|].
      by exists tid, locks.
    + intros (tid & locks & He & Hf). right. exists (tid, locks).
      split; [by apply elem_of_threads_in_order|done].
  - intros tid. rewrite Hthreads. cbn. split.
    + intros [Hin|(locks & He%elem_of_threads_in_order & Hf)];
        [by apply elem_of_nil in Hin|]. by exists locks.
    + intros (locks & He & Hf). right. exists locks.
      split; [by apply elem_of_threads_in_order|done].
  - intros Hnone. apply Hclean.
    intros [tid locks] He%elem_of_threads_in_order. by apply (Hnone tid).
Qed.

(** A thread that registered B and then A, against the hierarchy. *)
Lemma analysis_reports_falling_levels_witness :
  let d := register_lock_acquisition
             (register_lock_acquisition (registered_in_order "A" "B") 7 "B" 1)
             7 "A" 2 in
  potential_deadlock_detected (analyze_potential_deadlocks d).1 = true.
Proof.
  intros d.
  assert (held_are_registered d) as Hreg.
  { intros tid locks Hl. unfold d, register_lock_acquisition in Hl.
    cbn [held_locks] in Hl.
    apply lookup_insert_Some in Hl as [[_ <-]|[_ Hl]].
    - rewrite lookup_insert_eq. repeat constructor; by eexists.
    - apply lookup_insert_Some in Hl as [[_ <-]|[_ Hl]].
      + repeat constructor; by eexists.
      + by vm_compute in Hl. }
  apply (proj1 (proj2 (analysis_reports_falling_levels d Hreg))).
  exists 7, ["B"; "A"]. split; [reflexivity|].
  exists 0%nat, "B", "A", 1, 0. by repeat split.
Defined.

(** *** Guards keep the order *)

Lemma guard_enter_returns d tid lock now d' :
  guard_enter d tid lock now = Returns d' ->
  can_acquire_safely d tid lock = Returns true /\
  d' = register_lock_acquisition d tid lock now.
Proof.
  unfold guard_enter. destruct (can_acquire_safely d tid lock) as [[|]| |]; try done.
  by intros [= <-].
Qed.

Lemma strongly_sorted_filter {A} (R : relation A) (keep : A -> bool) (l : list A) :
  StronglySorted R l -> StronglySorted R (List.filter keep l).
Proof.
  induction 1 as [|a l Hs IH Hall]; cbn [List.filter]; [constructor|].
  destruct (keep a); [|done]. constructor; [done|].
  rewrite Forall_forall in *. intros x [Hx _]%list_elem_of_In%filter_In.
  apply Hall. by apply list_elem_of_In.
Qed.

Lemma forall_filter {A} (P : A -> Prop) (keep : A -> bool) (l : list A) :
  Forall P l -> Forall P (List.filter keep l).
Proof.
  rewrite !Forall_forall. intros Hall x [Hx _]%list_elem_of_In%filter_In.
  apply Hall. by apply list_elem_of_In.
Qed.

Lemma ascending_enter d tid lock now d' :
  ascending d -> guard_enter d tid lock now = Returns d' -> ascending d'.
Proof.
  intros Hasc [Hcan ->]%guard_enter_returns.
  assert (exists level, lock_hierarchy d !! lock = Some level) as [level Hlevel].
  { unfold can_acquire_safely in Hcan.
    destruct (lock_hierarchy d !! lock) as [level|]; [by exists level|done]. }
  pose proof (can_acquire_safely_iff_order d tid lock level Hlevel Hcan) as Horder.
  intros t locks. unfold register_lock_acquisition. cbn [held_locks lock_hierarchy].
  intros [[<- <-]|[_ Hl]]%lookup_insert_Some; [|by apply (Hasc t)].
  assert (StronglySorted (level_le (lock_hierarchy d)) (default [] (held_locks d !! tid)) /\
          Forall (fun a => is_Some (lock_hierarchy d !! a)) (default [] (held_locks d !! tid)))
    as [Hsorted Hreg].
  { destruct (held_locks d !! tid) as [held|] eqn:Hheld; [by apply (Hasc tid)|].
    cbn. split; constructor. }
  split.
  - apply StronglySorted_app_2; [|done|repeat constructor].
    intros a b Ha ->%list_elem_of_singleton.
    rewrite Forall_forall in Hreg. destruct (Hreg a Ha) as [la Hla].
    exists la, level. repeat split; try done. by apply (Horder a).
  - apply Forall_app. split; [done|]. repeat constructor. by exists level.
Qed.

Lemma ascending_leave d tid lock :
  ascending d -> ascending (guard_leave d tid lock).
Proof.
  intros Hasc t locks. unfold guard_leave, register_lock_release.
  cbn [held_locks lock_hierarchy].
  intros [[<- <-]|[_ Hl]]%lookup_insert_Some; [|by apply (Hasc t)].
  destruct (held_locks d !! tid) as [held|] eqn:Hheld.
  - destruct (Hasc tid held Hheld) as [Hsorted Hreg]. cbn.
    split; [by apply strongly_sorted_filter|by apply forall_filter].
  - cbn. split; constructor.
Qed.

Lemma ascending_steps steps : forall d,
  ascending d -> ascending (fold_left guard_step steps d).
Proof.
  induction steps as [|s steps IH]; intros d Hasc; [done|].
  cbn [fold_left]. apply IH. destruct s as [tid lock now|tid lock]; cbn [guard_step].
  - destruct (guard_enter d tid lock now) as [d'| |] eqn:Henter; try done.
    by apply (ascending_enter d tid lock now).
  - by apply ascending_leave.
Qed.

Lemma ascending_no_falling_pair hierarchy locks :
  StronglySorted (level_le hierarchy) locks -> ~ falling_pair hierarchy locks.
Proof.
  intros Hsorted (i & a & b & la & lb & Hi & HSi & Ha & Hb & Hfall).
  assert (level_le hierarchy a b) as (la' & lb' & Ha' & Hb' & Hle).
  { rewrite <- (take_drop_middle locks i a Hi) in Hsorted, HSi.
    apply StronglySorted_app_1_r in Hsorted.
    apply StronglySorted_inv in Hsorted as [_ Hall].
    rewrite Forall_forall in Hall. apply Hall.
    apply list_elem_of_lookup. exists 0%nat.
    rewrite lookup_app_r in HSi by (rewrite length_take; apply lookup_lt_Some in Hi; lia).
    rewrite length_take in HSi. apply lookup_lt_Some in Hi.
    replace (S i - i `min` length locks)%nat with 1%nat in HSi by lia. done. }
  rewrite Ha in Ha'. rewrite Hb in Hb'. injection Ha' as <-. injection Hb' as <-. lia.
Qed.

Lemma guard_step_keeps_hierarchy d s :
  lock_hierarchy (guard_step d s) = lock_hierarchy d.
Proof.
  destruct s as [tid lock now|tid lock]; cbn [guard_step]; [|done].
  destruct (guard_enter d tid lock now) as [d'| |] eqn:Henter; try done.
  by apply guard_enter_returns in Henter as [_ ->].
Qed.

Lemma guard_steps_keep_hierarchy steps : forall d,
  lock_hierarchy (fold_left guard_step steps d) = lock_hierarchy d.
Proof.
  induction steps as [|s steps IH]; intros d; [done|].
  cbn [fold_left]. by rewrite IH, guard_step_keeps_hierarchy.
Qed.

(** The registry a guard type keeps to itself starts empty, and guards
    only: no name is ever entered in its hierarchy, no lock is recorded
    as owned, and every thread's list is empty. *)
Lemma guard_registry_stays_empty (steps : list GuardStep) : forall d,
  lock_hierarchy d = ∅ ->
  lock_registry d = ∅ ->
  (forall tid locks, held_locks d !! tid = Some locks -> locks = []) ->
  lock_hierarchy (fold_left guard_step steps d) = ∅ /\
  lock_registry (fold_left guard_step steps d) = ∅ /\
  next_hierarchy_level (fold_left guard_step steps d) = next_hierarchy_level d /\
  (forall tid locks,
     held_locks (fold_left guard_step steps d) !! tid = Some locks -> locks = []).
Proof.
  induction steps as [|s steps IH]; intros d Hh Hr Hheld; [done|].
  cbn [fold_left].
  assert (lock_hierarchy (guard_step d s) = ∅ /\
          lock_registry (guard_step d s) = ∅ /\
          next_hierarchy_level (guard_step d s) = next_hierarchy_level d /\
          (forall tid locks,
             held_locks (guard_step d s) !! tid = Some locks -> locks = []))
    as (Hh' & Hr' & Hn' & Hheld').
  { destruct s as [tid lock now|tid lock]; cbn [guard_step].
    - assert (guard_enter d tid lock now = Undefined) as ->; [|done].
      unfold guard_enter, can_acquire_safely. rewrite Hh.
      by rewrite (lookup_empty (M := gmap string) lock).
    - unfold guard_leave, register_lock_release.
      cbn [lock_hierarchy lock_registry next_hierarchy_level held_locks].
      split; [done|]. split; [by rewrite Hr, delete_empty|]. split; [done|].
      intros t locks [[<- <-]|[_ Hl]]%lookup_insert_Some; [|by apply (Hheld t)].
      destruct (held_locks d !! tid) as [held|] eqn:Hl; [|done].
      by rewrite (Hheld tid held Hl). }
  destruct (IH (guard_step d s) Hh' Hr' Hheld') as (? & ? & Hn & ?).
  by rewrite Hn, Hn'.
Qed.

(** X21.  No [SafeLockGuard] can be built within defined behaviour.
    The registry of a guard type is a function-local static that only
    the constructor and the destructor of its guards reach, and neither
    enters a name in the hierarchy.  So at the first constructor call,
    and after any constructor and destructor calls by whatever threads,
    the hierarchy is empty, no lock is recorded and no thread holds
    one, and the constructor finds its name unknown:
    [can_acquire_safely] then calls
    [register_lock_type] while it holds [registry_mutex], which locks a
    [std::mutex] the thread owns and is undefined behaviour. *)
Theorem guard_constructor_relocks_registry (steps : list GuardStep)
    (tid : Z) (lock : string) (now : Z) :
  lock_hierarchy (fold_left guard_step steps new_registry) = ∅ /\
  lock_registry (fold_left guard_step steps new_registry) = ∅ /\
  next_hierarchy_level (fold_left guard_step steps new_registry) = 0 /\
  default [] (held_locks (fold_left guard_step steps new_registry) !! tid) = [] /\
  can_acquire_safely (fold_left guard_step steps new_registry) tid lock = Undefined /\
  guard_enter (fold_left guard_step steps new_registry) tid lock now = Undefined.
Proof.
  destruct (guard_registry_stays_empty steps new_registry) as (Hh & Hr & Hn & Hheld);
    [done|done|intros t locks Hl; cbn in Hl; by rewrite lookup_empty in Hl|].
  split; [done|]. split; [done|]. split; [done|]. split.
  - destruct (held_locks _ !! tid) as [locks|] eqn:Hl; [|done].
    cbn. by apply (Hheld tid).
  - unfold guard_enter, can_acquire_safely. rewrite Hh.
    by rewrite (lookup_empty (M := gmap string) lock).
Qed.

End DeadlockFacts.

(** ** The type checker *)

Module TypeSystemFacts.
Import TypeSystem.

Lemma tolower_idempotent c : tolower (tolower c) = tolower c.
Proof. by destruct c as [[] [] [] [] [] [] [] []]. Qed.

Lemma tolower_question_mark c : tolower c = "?"%char <-> c = "?"%char.
Proof. destruct c as [[] [] [] [] [] [] [] []]; vm_compute; split; congruence. Qed.

Lemma lowercase_idempotent s : lowercase (lowercase s) = lowercase s.
Proof.
  induction s as [|c s IH]; [done|]. cbn [lowercase].
  by rewrite tolower_idempotent, IH.
Qed.

Lemma lowercase_empty s : String.eqb (lowercase s) EmptyString = String.eqb s EmptyString.
Proof. by destruct s. Qed.

Lemma back_lowercase s : back (lowercase s) = tolower <$> back s.
Proof.
  induction s as [|c s IH]; [done|]. cbn [lowercase back].
  destruct s as [|c' s]; [done|]. exact IH.
Qed.

Lemma pop_back_lowercase s : pop_back (lowercase s) = lowercase (pop_back s).
Proof.
  induction s as [|c s IH]; [done|]. cbn [lowercase pop_back].
  destruct s as [|c' s]; [done|]. cbn [lowercase] in *. by rewrite IH.
Qed.

Lemma nullable_marker_lowercase s :
  bool_decide (back (lowercase s) = Some "?"%char)
  = bool_decide (back s = Some "?"%char).
Proof.
  rewrite back_lowercase. apply bool_decide_ext.
  destruct (back s) as [c|]; cbn; [|done]. split.
  - intros [= Hc]. f_equal. by apply tolower_question_mark.
  - intros [= ->]. done.
Qed.

(** X22.  [parse_type_annotation] reads back the name a [TypeInfo]
    prints: for the types text, number, truth and nothing, nullable or
    not, parsing [type_name] gives the same [TypeInfo] again; the names
    of the types maybe and unknown are not annotations and give nothing,
    as does the empty string.  The parser ignores letter case: an
    annotation and its lower-case form parse alike. *)
Theorem parse_reads_back_type_name (type : HerType) (nullable : bool)
    (annotation : string) :
  parse_type_annotation (type_name (new_type_info type nullable))
  = match type with
    | Text | Number | Truth | Nothing => Some (new_type_info type nullable)
    | Maybe | Unknown => None
    end /\
  parse_type_annotation EmptyString = None /\
  parse_type_annotation (lowercase annotation) = parse_type_annotation annotation.
Proof.
  split; [by destruct type, nullable|]. split; [done|].
  unfold parse_type_annotation.
  rewrite lowercase_empty, nullable_marker_lowercase.
  destruct (String.eqb annotation EmptyString); [done|].
  destruct (bool_decide (back annotation = Some "?"%char)).
  - by rewrite pop_back_lowercase, lowercase_idempotent.
  - by rewrite lowercase_idempotent.
Qed.

Lemma is_compatible_refl t : is_compatible t t = true.
Proof.
  unfold is_compatible. repeat case_decide; try done.
  by destruct (is_nullable t).
Qed.

Lemma is_compatible_unknown_expected actual :
  is_compatible (new_type_info Unknown false) actual = true.
Proof. done. Qed.

(** X23.  An assignment to a variable that was never declared always
    passes the check, whatever the value's type.  After
    [declare_variable(name, t)] the variable has type [t] (a later
    declaration replaces an earlier one, other variables keep theirs),
    assigning a value of type [t] passes, and an assignment of any type
    either passes or throws a Type error that carries the line. *)
Theorem assignment_check_follows_declarations (tc : TypeChecker) (name other : string)
    (declared value : TypeInfo) (line : Z) :
  (variable_types tc !! name = None ->
     check_assignment_compatibility tc name value line = Returns tt) /\
  get_variable_type (declare_variable tc name declared) name = declared /\
  (other <> name ->
     get_variable_type (declare_variable tc name declared) other
     = get_variable_type tc other) /\
  check_assignment_compatibility (declare_variable tc name declared) name declared line
  = Returns tt /\
  (check_assignment_compatibility (declare_variable tc name declared) name value line
   = Returns tt /\ is_compatible declared value = true
   \/ exists e,
        check_assignment_compatibility (declare_variable tc name declared) name value line
        = Throws e /\
        is_compatible declared value = false /\
        error_type e = TypeError /\ line_number e = line).
Proof.
  assert (get_variable_type (declare_variable tc name declared) name = declared) as Hget.
  { unfold get_variable_type, declare_variable. cbn. by rewrite lookup_insert_eq. }
  split; [|split; [done|split; [|split]]].
  - intros Hnone. unfold check_assignment_compatibility, get_variable_type.
    by rewrite Hnone.
  - intros Hne. unfold get_variable_type, declare_variable. cbn.
    by rewrite lookup_insert_ne.
  - unfold check_assignment_compatibility. by rewrite Hget, is_compatible_refl.
  - unfold check_assignment_compatibility. rewrite Hget.
    destruct (is_compatible declared value); cbn [negb].
    + by left.
    + right. by eexists.
Qed.

Lemma assignment_check_follows_declarations_witness :
  check_assignment_compatibility new_checker "count" (new_type_info Text true) 12
  = Returns tt /\
  exists e,
    check_assignment_compatibility
      (declare_variable new_checker "count" (new_type_info Number false))
      "count" (new_type_info Text false) 12 = Throws e /\
    error_type e = TypeError /\ line_number e = 12.
Proof.
  pose proof (assignment_check_follows_declarations new_checker "count" "other"
                (new_type_info Number false)) as Hcheck.
  split.
  - exact (proj1 (Hcheck (new_type_info Text true) 12) eq_refl).
  - destruct (proj2 (proj2 (proj2 (proj2 (Hcheck (new_type_info Text false) 12)))))
      as [[_ Hyes]|(e & He & _ & Htype & Hline)]; [done|].
    by exists e.
Defined.

End TypeSystemFacts.

(** ** The checked array *)

Module MemorySafetyFacts.
Import MemorySafety.

(** X24.  [SafeArray::at] (and [operator[]], which forwards to it)
    returns the element at the index exactly for indices below
    [size()] and throws a Memory error that names the array for every
    index from [size()] on; it never reads outside the vector.
    [push_back] makes the array one longer, the new element is found at
    the old [size()], and every earlier index reads as before. *)
Theorem safe_array_bounds {T : Type} (a : @SafeArray T) (index : Z) (value : T) :
  0 <= index ->
  (index < size a ->
     exists x, data a !! Z.to_nat index = Some x /\
       at_index a index = Returns x /\ subscript a index = Returns x) /\
  (size a <= index ->
     at_index a index = Throws (index_out_of_bounds a index) /\
     error_type (index_out_of_bounds a index) = MemoryError /\
     message (index_out_of_bounds a index)
     = ("Array index out of bounds for '" ++ name a ++ "'")%string) /\
  size (push_back a value) = size a + 1 /\
  at_index (push_back a value) (size a) = Returns value /\
  (index < size a -> at_index (push_back a value) index = at_index a index).
Proof.
  intros Hpos. unfold subscript, at_index, size. split; [|split; [|split; [|split]]].
  - intros Hlt. destruct (lookup_lt_is_Some_2 (data a) (Z.to_nat index)) as [x Hx]; [lia|].
    exists x. rewrite Hx. by rewrite (proj2 (Z.leb_gt _ _) Hlt).
  - intros Hge. by rewrite (proj2 (Z.leb_le _ _) Hge).
  - cbn. rewrite length_app. cbn. lia.
  - cbn [push_back data]. rewrite length_app. cbn [length].
    rewrite (proj2 (Z.leb_gt _ _)) by lia.
    rewrite Nat2Z.id, lookup_app_r, Nat.sub_diag by lia. done.
  - intros Hlt. cbn [push_back data]. rewrite length_app. cbn [length].
    rewrite !(proj2 (Z.leb_gt _ _)) by lia.
    by rewrite lookup_app_l by lia.
Qed.

Lemma safe_array_bounds_witness :
  at_index (push_back (push_back (new_array "scores") 10) 20) 1 = Returns 20 /\
  at_index (push_back (push_back (new_array "scores") 10) 20) 2
  = Throws (index_out_of_bounds (push_back (push_back (new_array "scores") 10) 20) 2) /\
  suggestions (index_out_of_bounds (push_back (push_back (new_array "scores") 10) 20) 2)
  = ["Index 2 is >= array size 2"; "Use array.size() to check bounds before accessing"].
Proof.
  pose proof (safe_array_bounds (push_back (new_array "scores") 10) 1 20 ltac:(lia))
    as (_ & _ & _ & Hlast & _).
  split; [exact Hlast|].
  destruct (proj1 (proj2 (safe_array_bounds
                            (push_back (push_back (new_array "scores") 10) 20)
                            2 0 ltac:(lia))) ltac:(by vm_compute))
    as [Hthrow _].
  split; [exact Hthrow|reflexivity].
Defined.

End MemorySafetyFacts.

(** ** Blocked reduction *)

Module PerformanceFacts.
Import Performance.

Section ReduceFacts.
Context {T : Type}.
Variable operation : T -> T -> T.
Variable init : T.
Hypothesis operation_assoc :
  forall a b c, operation (operation a b) c = operation a (operation b c).
Hypothesis init_left_identity : forall a, operation init a = a.

Lemma fold_left_shift (l : list T) : forall x y,
  fold_left operation l (operation x y) = operation x (fold_left operation l y).
Proof.
  induction l as [|a l IH]; intros x y; cbn [fold_left]; [done|].
  by rewrite operation_assoc, IH.
Qed.

(** A block that is not empty, folded from [x], is [x] combined with
    the block folded from [init]. *)
Lemma fold_left_block (a : T) (l : list T) (x : T) :
  fold_left operation (a :: l) x
  = operation x (fold_left operation (a :: l) init).
Proof.
  cbn [fold_left]. by rewrite init_left_identity, fold_left_shift.
Qed.

Lemma partial_results_combine (blocks : nat) : forall (data : list T) (x : T),
  (length data <= blocks)%nat ->
  fold_left operation (partial_results blocks data init operation) x
  = fold_left operation data x.
Proof.
  induction blocks as [|blocks IH]; intros data x Hlen.
  { destruct data; [done|cbn in Hlen; lia]. }
  destruct data as [|a data]; [done|].
  cbn [partial_results fold_left].
  change (fold_left operation (drop CACHE_BLOCK_SIZE (a :: data))
            (fold_left operation (take CACHE_BLOCK_SIZE (a :: data)) x))
    with (fold_left operation (drop 1023 data)
            (fold_left operation (a :: take 1023 data) x)) in *.
  change (take CACHE_BLOCK_SIZE (a :: data)) with (a :: take 1023 data).
  change (drop CACHE_BLOCK_SIZE (a :: data)) with (drop 1023 data).
  rewrite IH by (rewrite length_drop; cbn in Hlen; lia).
  rewrite <- fold_left_block. rewrite <- fold_left_app.
  by rewrite <- app_comm_cons, take_drop.
Qed.

(** X25.  For an associative operation with [init] as a left identity,
    [parallel_reduce] over an array gives what folding the operation
    over the whole array from [init] gives, whatever the length; for an
    empty array it gives [init]. *)
Theorem parallel_reduce_is_the_fold (data : list T) :
  parallel_reduce data init operation = fold_left operation data init /\
  parallel_reduce [] init operation = init.
Proof.
  split; [|done]. unfold parallel_reduce. by apply partial_results_combine.
Qed.
End ReduceFacts.

Lemma parallel_reduce_is_the_fold_witness :
  parallel_reduce [3; 4; 5] 0 Z.add = 12.
Proof.
  exact (proj1 (parallel_reduce_is_the_fold Z.add 0
                  (fun a b c => eq_sym (Z.add_assoc a b c))
                  Z.add_0_l [3; 4; 5])).
Defined.

(** X26.  For an array of at most 1024 elements (one block) that is
    not empty, [parallel_reduce] gives [operation init] applied to the
    fold of the array from [init], whatever the operation: [init] enters
    the result twice. *)
Theorem parallel_reduce_single_block {T : Type} (operation : T -> T -> T)
    (init : T) (data : list T) :
  (0 < length data <= CACHE_BLOCK_SIZE)%nat ->
  parallel_reduce data init operation
  = operation init (fold_left operation data init).
Proof.
  intros [Hpos Hle]. unfold parallel_reduce.
  destruct data as [|a data]; [cbn in Hpos; lia|].
  cbn [length partial_results].
  rewrite take_ge by exact Hle.
  rewrite drop_ge by exact Hle.
  by destruct (length data).
Qed.

Lemma parallel_reduce_single_block_witness :
  parallel_reduce [3; 4; 5] 10 Z.add = 10 + (10 + 3 + 4 + 5).
Proof.
  apply (parallel_reduce_single_block Z.add 10 [3; 4; 5]).
  cbn [length]. unfold CACHE_BLOCK_SIZE. lia.
Defined.

(** ** The cache-friendly vector *)

Section VectorFacts.
Context {T : Type}.
Variable sizeof_T : Z.
Variable grants : nat -> Z -> bool.
Hypothesis sizeof_fits_line : 1 <= sizeof_T <= 64.

Local Abbreviation EPL := (ELEMENTS_PER_CACHE_LINE sizeof_T).
Local Abbreviation vector := (CacheFriendlyVector (T:=T)).

Lemma elements_per_line_range : 1 <= EPL <= 64.
Proof.
  unfold ELEMENTS_PER_CACHE_LINE, CACHE_LINE_SIZE. split.
  - apply Z.div_le_lower_bound; lia.
  - apply Z.div_le_upper_bound; lia.
Qed.

Lemma whole_lines_exact (n : Z) :
  0 <= n < 2 ^ 63 ->
  whole_lines sizeof_T n = (n + EPL - 1) / EPL * EPL.
Proof.
  intros Hn. pose proof elements_per_line_range as HE.
  unfold whole_lines.
  rewrite (wrap_size_t_small (n + EPL)) by (unfold SIZE_MAX; lia).
  rewrite (wrap_size_t_small (n + EPL - 1)) by (unfold SIZE_MAX; lia).
  apply wrap_size_t_small.
  pose proof (Z.mul_div_le (n + EPL - 1) EPL ltac:(lia)) as Hle.
  assert (0 <= (n + EPL - 1) / EPL) by (apply Z.div_pos; lia).
  unfold SIZE_MAX. nia.
Qed.

Lemma whole_lines_bounds (n : Z) :
  0 <= n < 2 ^ 63 ->
  n <= whole_lines sizeof_T n < n + EPL /\ whole_lines sizeof_T n mod EPL = 0.
Proof.
  intros Hn. pose proof elements_per_line_range as HE.
  rewrite whole_lines_exact by done.
  pose proof (Z.div_mod (n + EPL - 1) EPL ltac:(lia)) as Hdm.
  pose proof (Z.mod_pos_bound (n + EPL - 1) EPL ltac:(lia)) as Hm.
  split; [lia|]. apply Z.mod_mul. lia.
Qed.

(** Clearing the low six bits rounds down to a multiple of 64. *)
Lemma clear_low_bits (a : Z) :
  0 <= a < 2 ^ 64 ->
  Z.land a (wrap_size_t (Z.lnot (CACHE_LINE_SIZE - 1))) = a / 64 * 64.
Proof.
  intros Ha. unfold wrap_size_t, CACHE_LINE_SIZE.
  rewrite <- Z.land_ones by lia.
  rewrite (Z.land_comm (Z.lnot (64 - 1))), Z.land_assoc.
  rewrite (Z.land_ones a 64) by lia. rewrite (Z.mod_small a) by lia.
  rewrite <- Z.ldiff_land.
  change (64 - 1) with (Z.ones 6).
  rewrite Z.ldiff_ones_r by lia.
  rewrite Z.shiftr_div_pow2, Z.shiftl_mul_pow2 by lia. done.
Qed.

(** Without wrap-around the allocator is asked for room for all [count]
    elements. *)
Lemma requested_bytes_covers (count : Z) :
  0 <= count -> count * sizeof_T + 63 < 2 ^ 64 ->
  count * sizeof_T <= requested_bytes sizeof_T count.
Proof.
  intros Hc Hsmall. unfold requested_bytes.
  assert (0 <= count * sizeof_T) by nia.
  rewrite (wrap_size_t_small (count * sizeof_T)) by (unfold SIZE_MAX; lia).
  unfold CACHE_LINE_SIZE at 1.
  rewrite (wrap_size_t_small (count * sizeof_T + 64 - 1)) by (unfold SIZE_MAX; lia).
  rewrite clear_low_bits by lia.
  pose proof (Z.div_mod (count * sizeof_T + 64 - 1) 64 ltac:(lia)) as Hdm.
  pose proof (Z.mod_pos_bound (count * sizeof_T + 64 - 1) 64 ltac:(lia)) as Hm.
  lia.
Qed.

Lemma size_after_store (v : vector) (value : T) (c b : Z) (k : nat) :
  size_ {| cells := cells v ++ [value]; capacity_ := c; buffer_bytes := b;
           requests := k |}
  = size_ v + 1.
Proof. unfold size_. cbn [cells]. rewrite length_app. cbn [length]. lia. Qed.

(** One [push_back] on a vector in use: the allocator refuses, or the
    value is appended and the vector is in use again. *)
Lemma push_back_step (bound : Z) (v : vector) (value : T) :
  0 <= bound ->
  in_use sizeof_T bound v ->
  bound + 2 * size_ v + 64 < 2 ^ 56 ->
  (vector_push_back sizeof_T grants v value = BadAlloc
   /\ exists k n, grants k n = false)
  \/ exists v', vector_push_back sizeof_T grants v value = Done v'
       /\ cells v' = cells v ++ [value] /\ in_use sizeof_T bound v'.
Proof.
  intros Hb (Hcap & Hsize & Hmod & Hgrow & Hroom) Hsmall.
  pose proof elements_per_line_range as HE.
  assert (0 <= size_ v) as Hsz by (unfold size_; lia).
  unfold vector_push_back.
  destruct (capacity_ v <=? size_ v) eqn:Hfull.
  - apply Z.leb_le in Hfull.
    assert (Heq : capacity_ v = size_ v) by lia.
    rewrite (wrap_size_t_small (capacity_ v * 2)) by (unfold SIZE_MAX; lia).
    unfold resize_capacity.
    destruct (Z.eqb_spec EPL 0) as [?|_]; [lia|].
    pose proof (whole_lines_bounds (capacity_ v * 2) ltac:(lia)) as [Hw Hwm].
    set (c := whole_lines sizeof_T (capacity_ v * 2)) in *.
    pose proof (requested_bytes_covers c ltac:(lia) ltac:(nia)) as Hbytes.
    set (bytes := requested_bytes sizeof_T c) in *.
    destruct (grants (requests v) bytes) eqn:Hg; cbn [negb].
    2:{ left. split; [done|]. by eexists _, _. }
    rewrite (wrap_size_t_small (size_ v * sizeof_T)) by (unfold SIZE_MAX; nia).
    destruct (Z.ltb_spec bytes (size_ v * sizeof_T)) as [?|_]; [nia|].
    destruct (Z.ltb_spec (buffer_bytes v) (size_ v * sizeof_T)) as [?|_]; [nia|].
    cbn [orb]. unfold store_next. cbn [cells capacity_ buffer_bytes requests].
    replace (size_ {| cells := cells v; capacity_ := c; buffer_bytes := bytes;
                      requests := S (requests v) |})
      with (size_ v) by done.
    destruct (Z.leb_spec ((size_ v + 1) * sizeof_T) bytes) as [_|?]; [|nia].
    right. eexists. split; [done|]. split; [done|].
    unfold in_use. rewrite size_after_store. cbn [capacity_ buffer_bytes].
    repeat split; [lia|lia|done|lia|done].
  - apply Z.leb_gt in Hfull.
    unfold store_next.
    destruct (Z.leb_spec ((size_ v + 1) * sizeof_T) (buffer_bytes v)) as [_|?]; [|nia].
    right. eexists. split; [done|]. split; [done|].
    unfold in_use. rewrite size_after_store. cbn [capacity_ buffer_bytes].
    repeat split; [lia|lia|done|lia|done].
Qed.

Lemma push_all_steps (bound : Z) (values : list T) : forall v : vector,
  0 <= bound ->
  in_use sizeof_T bound v ->
  bound + 2 * (size_ v + Z.of_nat (length values)) + 64 < 2 ^ 56 ->
  (push_all sizeof_T grants v values = BadAlloc
   /\ exists k n, grants k n = false)
  \/ exists v', push_all sizeof_T grants v values = Done v'
       /\ cells v' = cells v ++ values /\ in_use sizeof_T bound v'.
Proof.
  induction values as [|value rest IH]; intros v Hb Huse Hsmall.
  { right. exists v. by rewrite app_nil_r. }
  cbn [push_all]. cbn [length] in Hsmall.
  destruct (push_back_step bound v value Hb Huse ltac:(lia))
    as [[-> Hno]|(v' & -> & Hcells & Huse')]; [by left|].
  assert (Hsz : size_ v' = size_ v + 1).
  { unfold size_. rewrite Hcells, length_app. cbn [length]. lia. }
  destruct (IH v' Hb Huse' ltac:(lia)) as [?|(v'' & Hdone & Hcells' & Huse'')];
    [by left|].
  right. exists v''. split; [done|]. split; [|done].
  by rewrite Hcells', Hcells, <- app_assoc.
Qed.

(** X27.  For an element type of 1 to 64 bytes, a vector constructed
    with an initial capacity of at least one element and filled by
    [push_back], with initial capacity and element count below 2^54 (so
    that no byte count wraps around in [size_t]), never writes outside
    its buffer: building it either ends in [std::bad_alloc], which takes
    a refusal of the allocator, or gives a vector that holds exactly the
    pushed values in their order, whose capacity covers its size and is
    a whole number of cache lines, whose buffer has room for the
    capacity, and whose [operator[]] reads back each pushed value at
    its position. *)
Theorem pushed_values_are_stored (initial_capacity : Z) (values : list T) :
  1 <= initial_capacity < 2 ^ 54 ->
  Z.of_nat (length values) < 2 ^ 54 ->
  build_vector sizeof_T grants initial_capacity values <> Broken /\
  ((forall k n, grants k n = true) ->
   exists v, build_vector sizeof_T grants initial_capacity values = Done v) /\
  (forall v, build_vector sizeof_T grants initial_capacity values = Done v ->
     cells v = values /\
     size_ v <= capacity_ v /\
     capacity_ v mod EPL = 0 /\
     capacity_ v * sizeof_T <= buffer_bytes v /\
     forall (i : nat) (x : T), values !! i = Some x ->
       vector_index sizeof_T v (Z.of_nat i) = Done x).
Proof.
  intros Hcap Hlen.
  pose proof elements_per_line_range as HE.
  pose proof (whole_lines_bounds initial_capacity ltac:(lia)) as [Hw Hwm].
  unfold build_vector, new_vector.
  destruct (Z.eqb_spec EPL 0) as [?|_]; [lia|].
  set (c := whole_lines sizeof_T initial_capacity) in *.
  pose proof (requested_bytes_covers c ltac:(lia) ltac:(nia)) as Hbytes.
  set (bytes := requested_bytes sizeof_T c) in *.
  destruct (grants 0%nat bytes) eqn:Hg.
  2:{ split; [done|]. split; [|done]. intros Hall. by rewrite Hall in Hg. }
  set (v0 := {| cells := []; capacity_ := c; buffer_bytes := bytes; requests := 1 |}).
  assert (Huse : in_use sizeof_T c v0).
  { unfold in_use, v0, size_. cbn [cells capacity_ buffer_bytes length]. lia. }
  destruct (push_all_steps c values v0 ltac:(lia) Huse
              ltac:(unfold v0, size_; cbn [cells length]; lia))
    as [[-> (k & n & Hno)]|(v & -> & Hcells & (_ & Hsize & Hmod & _ & Hroom))].
  { split; [done|]. split; [|done]. intros Hall. by rewrite Hall in Hno. }
  split; [done|]. split; [by eexists|].
  intros w [= <-]. unfold v0 in Hcells. cbn [cells app] in Hcells.
  repeat split; [done|done|done|done|].
  intros i x Hi. unfold vector_index.
  destruct (Z.ltb_spec (Z.of_nat i) 0) as [?|_]; [lia|].
  apply lookup_lt_Some in Hi as Hlt.
  assert (Z.of_nat i + 1 <= size_ v) by (unfold size_; rewrite Hcells; lia).
  destruct (Z.ltb_spec (buffer_bytes v) ((Z.of_nat i + 1) * sizeof_T)) as [?|_]; [nia|].
  cbn [orb]. by rewrite Nat2Z.id, Hcells, Hi.
Qed.

(** X28.  A vector of capacity zero cannot grow: the constructor called
    with an initial capacity of 0 gives such a vector when the allocator
    grants the request for 0 bytes, and on any vector of capacity zero
    [push_back] asks for 0 bytes again and then, when that is granted,
    stores the value outside the buffer (undefined behaviour), otherwise
    ends in [std::bad_alloc]; it never succeeds. *)
Theorem zero_capacity_vector_cannot_grow :
  (grants 0%nat 0 = true ->
   new_vector (T:=T) sizeof_T grants 0
   = Done {| cells := []; capacity_ := 0; buffer_bytes := 0; requests := 1 |}) /\
  (forall (v : vector) (value : T),
     capacity_ v = 0 ->
     vector_push_back sizeof_T grants v value
     = if grants (requests v) 0 then Broken else BadAlloc).
Proof.
  pose proof elements_per_line_range as HE.
  assert (Hzero : whole_lines sizeof_T 0 = 0).
  { rewrite whole_lines_exact by lia. by rewrite Z.div_small by lia. }
  assert (Hbytes : requested_bytes sizeof_T 0 = 0) by reflexivity.
  split.
  - intros Hg. unfold new_vector.
    destruct (Z.eqb_spec EPL 0) as [?|_]; [lia|].
    by rewrite Hzero, Hbytes, Hg.
  - intros v value Hcap. unfold vector_push_back, resize_capacity.
    assert (Hsz : 0 <= size_ v) by (unfold size_; lia).
    rewrite Hcap. destruct (Z.leb_spec 0 (size_ v)) as [_|?]; [|lia].
    destruct (Z.eqb_spec EPL 0) as [?|_]; [lia|].
    change (wrap_size_t (0 * 2)) with 0.
    rewrite Hzero, Hbytes.
    destruct (grants (requests v) 0); cbn [negb]; [|done].
    destruct ((0 <? wrap_size_t (size_ v * sizeof_T))
              || (buffer_bytes v <? wrap_size_t (size_ v * sizeof_T))); [done|].
    unfold store_next. cbn [capacity_ buffer_bytes].
    replace (size_ {| cells := cells v; capacity_ := 0; buffer_bytes := 0;
                      requests := S (requests v) |})
      with (size_ v) by done.
    by destruct (Z.leb_spec ((size_ v + 1) * sizeof_T) 0) as [?|_]; [nia|].
Qed.
End VectorFacts.

Lemma pushed_values_are_stored_witness :
  exists v, build_vector 4 (fun _ _ => true) 3 (seq 0 40) = Done v /\
            cells v = seq 0 40 /\
            vector_index 4 v 39 = Done 39%nat.
Proof.
  destruct (pushed_values_are_stored (T:=nat) 4 (fun _ _ => true)
              ltac:(lia) 3 (seq 0 40) ltac:(lia) ltac:(by vm_compute))
    as (_ & Hdone & Hdata).
  destruct (Hdone ltac:(done)) as [v Hv].
  exists v. destruct (Hdata v Hv) as (Hcells & _ & _ & _ & Hread).
  split; [done|]. split; [done|].
  by apply (Hread 39%nat 39%nat).
Defined.

Lemma zero_capacity_vector_cannot_grow_witness :
  build_vector (T:=Z) 8 (fun _ _ => true) 0 [7] = Broken.
Proof.
  destruct (zero_capacity_vector_cannot_grow (T:=Z) 8 (fun _ _ => true) ltac:(lia))
    as [Hnew Hpush].
  unfold build_vector. rewrite (Hnew eq_refl). cbn [push_all].
  by rewrite (Hpush {| cells := []; capacity_ := 0; buffer_bytes := 0; requests := 1 |}
                7 eq_refl).
Defined.

(** With 64-byte elements and a capacity of 2^58 the byte count wraps
    to 0: the allocator is asked for 0 bytes, and the first [push_back]
    writes outside the buffer. *)
Lemma wrapped_request_breaks_push_back :
  build_vector (T:=Z) 64 (fun _ _ => true) (2 ^ 58) [7] = Broken.
Proof. reflexivity. Qed.

End PerformanceFacts.

(** ** The generator's string escaping *)

Module GeneratorFacts.
Import Generator.

Lemma escape_string_app (s t : string) :
  escape_string (s +:+ t) = escape_string s +:+ escape_string t.
Proof.
  induction s as [|c s IH]; [done|].
  change (String c s +:+ t) with (String c (s +:+ t)).
  cbn [escape_string]. rewrite IH.
  by destruct (Ascii.eqb c quote), (Ascii.eqb c backslash).
Qed.

Lemma escaped_pieces_escape (s : string) :
  escaped_pieces (escape_string s) = Some s.
Proof.
  induction s as [|c s IH]; [done|].
  cbn [escape_string].
  destruct (Ascii.eqb_spec c quote) as [->|Hq].
  { change (String quote <$> escaped_pieces (escape_string s) = Some (String quote s)).
    by rewrite IH. }
  destruct (Ascii.eqb_spec c backslash) as [->|Hb].
  { change (String backslash <$> escaped_pieces (escape_string s)
            = Some (String backslash s)).
    by rewrite IH. }
  cbn [escaped_pieces].
  destruct (Ascii.eqb_spec c quote) as [?|_]; [done|].
  destruct (Ascii.eqb_spec c backslash) as [?|_]; [done|].
  by rewrite IH.
Qed.

Lemma occurrences_escape (c : ascii) (s : string) :
  occurrences c (escape_string s)
  = (occurrences c s
     + if Ascii.eqb c backslash
       then occurrences quote s + occurrences backslash s
       else 0)%nat.
Proof.
  induction s as [|c' s IH]; [by destruct (Ascii.eqb c backslash)|].
  cbn [escape_string].
  destruct (Ascii.eqb_spec c' quote) as [->|Hq].
  { cbn [occurrences]. rewrite IH.
    destruct (Ascii.eqb_spec c backslash) as [->|Hb].
    - cbn. lia.
    - rewrite (proj2 (Ascii.eqb_neq backslash c)) by done. lia. }
  destruct (Ascii.eqb_spec c' backslash) as [->|Hb'].
  { cbn [occurrences]. rewrite IH.
    destruct (Ascii.eqb_spec c backslash) as [->|Hb].
    - cbn. lia.
    - rewrite (proj2 (Ascii.eqb_neq backslash c)) by done. lia. }
  cbn [occurrences]. rewrite IH.
  rewrite (proj2 (Ascii.eqb_neq c' quote)), (proj2 (Ascii.eqb_neq c' backslash)) by done.
  destruct (Ascii.eqb c backslash); lia.
Qed.

(** X29.  [escape_string] loses nothing and escapes every quote: its
    result consists only of the pieces backslash-quote,
    backslash-backslash and single characters that are neither, and
    reading the pieces gives the text back; so two texts with the same
    escaped form are the same text, and the escaped form of a
    concatenation is the concatenation of the escaped forms.  Only
    backslashes are added, one for each quote and each backslash of the
    text: every other character, a line feed or a carriage return
    among them, occurs in the result exactly as often as in the text
    and is not escaped. *)
Theorem escape_string_keeps_the_text (s t : string) (c : ascii) :
  escaped_pieces (escape_string s) = Some s /\
  (escape_string s = escape_string t -> s = t) /\
  escape_string (s +:+ t) = escape_string s +:+ escape_string t /\
  occurrences c (escape_string s)
  = (occurrences c s
     + if Ascii.eqb c backslash
       then occurrences quote s + occurrences backslash s
       else 0)%nat /\
  String.length (escape_string s)
  = (String.length s + occurrences quote s + occurrences backslash s)%nat.
Proof.
  split; [apply escaped_pieces_escape|]. split.
  { intros Heq. pose proof (escaped_pieces_escape s) as Hs.
    rewrite Heq, escaped_pieces_escape in Hs. by injection Hs. }
  split; [apply escape_string_app|]. split; [apply occurrences_escape|].
  induction s as [|c' s IH]; [done|].
  cbn [escape_string occurrences String.length].
  destruct (Ascii.eqb_spec c' quote) as [->|Hq].
  { cbn [String.length]. rewrite IH. cbn. lia. }
  destruct (Ascii.eqb_spec c' backslash) as [->|Hb].
  { cbn [String.length]. rewrite IH. cbn. lia. }
  cbn [String.length]. rewrite IH. lia.
Qed.

End GeneratorFacts.

(** ** The friendly error report *)

Module ErrorReportFacts.
Import ErrorReport.

Lemma with_suggestions_fields (added : list string) : forall e : HerLangError,
  suggestions (with_suggestions e added) = suggestions e ++ added /\
  error_type (with_suggestions e added) = error_type e /\
  message (with_suggestions e added) = message e /\
  line_number (with_suggestions e added) = line_number e /\
  help_url (with_suggestions e added) = help_url e.
Proof.
  unfold with_suggestions.
  induction added as [|s added IH]; intros e; cbn [fold_left].
  { by rewrite app_nil_r. }
  destruct (IH (with_suggestion e s)) as (-> & -> & -> & -> & ->).
  cbn [with_suggestion suggestions error_type message line_number help_url].
  by rewrite <- app_assoc.
Qed.

Lemma common_solutions_not_empty (type : ErrorType) :
  is_empty (get_common_solutions type) = false.
Proof. by destruct type. Qed.

(** X30.  An error built at a throw site, by attaching suggestions one
    after the other and then a context, is reported with a list of
    suggestions whatever the error: the report holds the heading of the
    list, then one line for each suggestion the error had and each one
    attached, in the order attached, then one line for each common
    solution of the error's type, and there is always at least one common
    solution, so the heading is never left out; [what()] is still the
    message the error was made with. *)
Theorem report_always_suggests (e : HerLangError) (added : list string)
    (ctx : string) :
  (exists before after,
     display_friendly_error (with_context (with_suggestions e added) ctx)
     = before
       ++ [suggestions_heading]
       ++ flat_map bullet (suggestions e ++ added)
       ++ flat_map bullet (get_common_solutions (error_type e))
       ++ after) /\
  get_common_solutions (error_type e) <> [] /\
  what (with_context (with_suggestions e added) ctx) = message e.
Proof.
  destruct (with_suggestions_fields added e) as (Hs & Ht & Hm & Hl & Hu).
  split; [|split].
  - unfold display_friendly_error.
    cbn [with_context suggestions error_type message line_number help_url context].
    rewrite Hs, Ht, common_solutions_not_empty.
    rewrite orb_true_r.
    set (head := [nl +:+ "🌸 HerLang Error Report" +:+ nl; rule +:+ nl]).
    set (line := if 0 <? line_number (with_suggestions e added)
                 then _ else _).
    set (body := [message (with_suggestions e added); nl +:+ nl]).
    set (where_ := if negb (empty_string ctx) then _ else _).
    set (cheer := ["💝 "; get_encouragement (error_type e); nl +:+ nl]).
    set (foot := ["🌐 Need more help? Visit: "; _; nl; rule +:+ nl +:+ nl]).
    exists (head ++ line ++ body ++ where_ ++ cheer), ([nl] ++ foot).
    by rewrite <- !app_assoc.
  - by destruct (error_type e).
  - unfold what. by cbn [with_context message].
Qed.

End ErrorReportFacts.
